(** * importmem: the module graph engine

    A shallow embedding of [src/importmem/__init__.py]: the module
    registry, the graph builder ([get_modules]), the cycle collapser and
    the edge pruner ([collapse_modules]), the memory attributor
    ([_set_rss_for_module]) and the node naming of the DOT renderer
    ([print_dot]).

    Conventions.
    - A Python [dict] from names to [Module] objects is a [gmap string Module];
      a Python [set] of strings is a [gset string].
    - Python does not fix the order in which a [set] is iterated.  Every
      [for x in some_set] loop of the source goes through [set_iter], an
      arbitrary enumeration of the set's elements ([IterOrder]); the
      theorems hold for every such enumeration.  [dict_iter] plays the
      same role for loops over the registry.
    - [while] loops and the recursive search take a [fuel] argument; the
      theorems give the amount of fuel that is enough.
    - A raised exception is the [Raise] outcome. *)

From stdpp Require Import gmap strings list fin_maps fin_sets relations pretty.
From Stdlib Require Import Ascii ZArith Lia.

Open Scope string_scope.
Open Scope list_scope.
Open Scope Z_scope.

(** ** Outcomes of fallible, fuel-bounded code *)

Inductive exn : Type :=
  | KeyError (key : string)
  | VisitedError (visited : list string)
  | WaitStatusError (waitstatus : Z) (script : string).

Inductive outcome (A : Type) : Type :=
  | Done (a : A)
  | Raise (e : exn)
  | OutOfFuel.
Arguments Done {A} a.
Arguments Raise {A} e.
Arguments OutOfFuel {A}.

Definition outcome_bind {A B} (f : A → outcome B) (x : outcome A) : outcome B :=
  match x with
  | Done a => f a
  | Raise e => Raise e
  | OutOfFuel => OutOfFuel
  end.

#[global] Instance outcome_mbind : MBind outcome := @outcome_bind.
#[global] Instance outcome_mret : MRet outcome := @Done.

(** ** Strings *)

Definition newline : string := String "010"%char EmptyString.

(** [import_path.split(".")[0]] *)
Fixpoint _module_name (import_path : string) : string :=
  match import_path with
  | EmptyString => EmptyString
  | String c rest =>
      if Ascii.eqb c "."%char then EmptyString else String c (_module_name rest)
  end.

(** [sep.join(l)] *)
Fixpoint join (sep : string) (l : list string) : string :=
  match l with
  | [] => ""
  | [x] => x
  | x :: rest => x +:+ sep +:+ join sep rest
  end.

(** [visited.index(x)], used only when [x in visited] *)
Fixpoint index (x : string) (l : list string) : nat :=
  match l with
  | [] => 0%nat
  | y :: rest => if bool_decide (y = x) then 0%nat else S (index x rest)
  end.

(** [queue.pop()]: the last element and the list without it *)
Definition list_pop (queue : list string) : option (string * list string) :=
  match last queue with
  | None => None
  | Some x => Some (x, removelast queue)
  end.

(** ** The data model *)

Record Module : Type := mkModule {
  name : string;
  packages : gset string;
  dependencies : gset string;
  own_rss : Z;
  total_rss : Z
}.

(** [Module(name)] *)
Definition Module_init (name : string) : Module := mkModule name ∅ ∅ 0 0.

Definition set_packages (p : gset string) (M : Module) : Module :=
  mkModule (name M) p (dependencies M) (own_rss M) (total_rss M).
Definition set_dependencies (d : gset string) (M : Module) : Module :=
  mkModule (name M) (packages M) d (own_rss M) (total_rss M).
Definition set_own_rss (v : Z) (M : Module) : Module :=
  mkModule (name M) (packages M) (dependencies M) v (total_rss M).
Definition set_total_rss (v : Z) (M : Module) : Module :=
  mkModule (name M) (packages M) (dependencies M) (own_rss M) v.

Abbreviation registry := (gmap string Module).

(** [modules[k]] *)
Definition lookup_key (modules : registry) (k : string) : outcome Module :=
  match modules !! k with
  | Some M => Done M
  | None => Raise (KeyError k)
  end.

(** ** Iteration orders *)

Record IterOrder : Type := mkIterOrder {
  set_iter : gset string → list string;
  set_iter_perm : ∀ s, set_iter s ≡ₚ elements s;
  dict_iter : registry → list string;
  dict_iter_perm : ∀ m, dict_iter m ≡ₚ elements (dom m)
}.

Definition elements_order : IterOrder :=
  {| set_iter := elements;
     set_iter_perm := λ s, reflexivity (elements s);
     dict_iter := λ m, elements (dom m);
     dict_iter_perm := λ m, reflexivity (elements (dom m)) |}.

(** ** Dependency edges, reachability, and the registry invariants *)

Definition edge (modules : registry) (x y : string) : Prop :=
  ∃ M, modules !! x = Some M ∧ y ∈ dependencies M.

Definition reachable (modules : registry) (root x : string) : Prop :=
  rtc (edge modules) root x.

(** No cycle of dependency edges can be reached from [root]. *)
Definition acyclic_from (modules : registry) (root : string) : Prop :=
  ∀ x, reachable modules root x → ¬ tc (edge modules) x x.

Definition acyclic (modules : registry) : Prop :=
  ∀ x, ¬ tc (edge modules) x x.

(** Every module is stored under its own name. *)
Definition keyed (modules : registry) : Prop :=
  ∀ k M, modules !! k = Some M → name M = k.

Definition no_self_loops (modules : registry) : Prop :=
  ∀ k M, modules !! k = Some M → k ∉ dependencies M.

Definition no_dangling (modules : registry) : Prop :=
  ∀ k M d, modules !! k = Some M → d ∈ dependencies M → is_Some (modules !! d).

(** ** Graph builder *)

Section Builder.
(** The import tracer, an external collaborator. *)
Variable _get_imports : string → list string.

(** The [for import_path in _get_imports(pkg)] loop: [mod_] (the source's [mod]) is the module
    object being filled, [queue] the work queue. *)
Definition record_import (st : Module * list string) (import_path : string)
  : Module * list string :=
  let '(mod_, queue) := st in
  let queue := queue ++ [import_path] in
  let dep := _module_name import_path in
  if bool_decide (dep = name mod_) then (mod_, queue)
  else (set_dependencies ({[dep]} ∪ dependencies mod_) mod_, queue).

(** One iteration of [while queue], after [pkg] has been popped. *)
Definition visit_pkg (modules : registry) (queue : list string) (pkg : string)
  : registry * list string :=
  let module_name := _module_name pkg in
  let '(modules, mod_) :=
    match modules !! module_name with
    | None => let mod_ := Module_init module_name in
              (<[module_name := mod_]> modules, mod_)
    | Some mod_ => (modules, mod_)
    end in
  if bool_decide (pkg ∈ packages mod_) then (modules, queue)
  else
    let mod_ := set_packages ({[pkg]} ∪ packages mod_) mod_ in
    let '(mod_, queue) := foldl record_import (mod_, queue) (_get_imports pkg) in
    (<[module_name := mod_]> modules, queue).

(** The work loop, for any way [pop] of taking an entry off the queue. *)
Fixpoint build_loop (pop : list string → option (string * list string))
    (fuel : nat) (modules : registry) (queue : list string) : option registry :=
  match fuel with
  | O => None
  | S fuel =>
      match pop queue with
      | None => Some modules
      | Some (pkg, queue) =>
          let '(modules, queue) := visit_pkg modules queue pkg in
          build_loop pop fuel modules queue
      end
  end.

Definition get_modules_with (pop : list string → option (string * list string))
    (fuel : nat) (root_pkg : string) : option (registry * string) :=
  match build_loop pop fuel ∅ [root_pkg] with
  | Some modules => Some (modules, _module_name root_pkg)
  | None => None
  end.

(** [get_modules] as written: [queue.pop()] takes the last entry. *)
Definition get_modules (fuel : nat) (root_pkg : string) : option (registry * string) :=
  get_modules_with list_pop fuel root_pkg.

(** Import paths that the work loop can ever meet. *)
Definition imports (p q : string) : Prop := q ∈ _get_imports p.
End Builder.

(** A way of popping is admissible when it takes one entry off a non-empty
    queue and leaves the others. *)
Definition pop_ok (pop : list string → option (string * list string)) : Prop :=
  ∀ q, match pop q with
       | None => q = []
       | Some (x, q') => q ≡ₚ x :: q'
       end.

(** [queue.pop(0)]: the first entry. *)
Definition list_pop_first (queue : list string) : option (string * list string) :=
  match queue with
  | [] => None
  | x :: rest => Some (x, rest)
  end.

(** ** Cycle collapser and edge pruner *)

Section Engine.
Variable ord : IterOrder.

(** The [for dep in modules[start_name].dependencies] loop of
    [_detect_loop]; [search] is the recursive call.  The list [visited]
    is one object shared by all calls, so every call returns it. *)
Fixpoint search_deps
    (search : string → list string → outcome (option (list string) * list string))
    (deps : list string) (visited : list string)
  : outcome (option (list string) * list string) :=
  match deps with
  | [] => Done (None, removelast visited)
  | dep :: deps =>
      match search dep visited with
      | Done (Some found, visited) => Done (Some found, visited)
      | Done (None, visited) => search_deps search deps visited
      | Raise e => Raise e
      | OutOfFuel => OutOfFuel
      end
  end.

Fixpoint _detect_loop (fuel : nat) (modules : registry) (start_name : string)
    (visited : list string) : outcome (option (list string) * list string) :=
  match fuel with
  | O => OutOfFuel
  | S fuel =>
      if bool_decide (start_name ∈ visited) then
        Done (Some (drop (index start_name visited) visited), visited)
      else
        let visited := visited ++ [start_name] in
        match modules !! start_name with
        | None => Raise (VisitedError visited)
        | Some M =>
            search_deps (_detect_loop fuel modules)
              (set_iter ord (dependencies M)) visited
        end
  end.

(** The effect of [_rename_dependency] on one module. *)
Definition rename_in (name : string) (new_name : option string) (mod_ : Module) : Module :=
  if bool_decide (name ∈ dependencies mod_) then
    let deps := dependencies mod_ ∖ {[name]} in
    match new_name with
    | Some n => set_dependencies ({[n]} ∪ deps) mod_
    | None => set_dependencies deps mod_
    end
  else mod_.

Definition _rename_dependency (modules : registry) (name : string)
    (new_name : option string) : registry :=
  rename_in name new_name <$> modules.

(** [new_module] is at once a local variable and the object stored under
    its name.  [store] writes the variable through to the registry while
    that entry exists, [reload] reads the object back after the registry's
    modules were changed in place. *)
Definition store (new_name : string) (new_module : Module) (modules : registry) : registry :=
  alter (λ _, new_module) new_name modules.

Definition reload (new_name : string) (modules : registry) (new_module : Module) : Module :=
  default new_module (modules !! new_name).

(** First [for mod in loop]: fold the members into [new_module] and
    delete them. *)
Fixpoint merge_members (new_name : string) (loop : list string)
    (modules : registry) (new_module : Module) : outcome (registry * Module) :=
  match loop with
  | [] => Done (modules, new_module)
  | mod_ :: loop =>
      M ← lookup_key modules mod_;
      let new_module := set_packages (packages new_module ∪ packages M) new_module in
      let new_module :=
        set_dependencies (dependencies new_module ∪ dependencies M) new_module in
      let modules := store new_name new_module modules in
      merge_members new_name loop (delete mod_ modules) new_module
  end.

(** Second [for mod in loop]: redirect the edges and the root. *)
Fixpoint rename_members (new_name : string) (loop : list string)
    (modules : registry) (start_name : string) : registry * string :=
  match loop with
  | [] => (modules, start_name)
  | mod_ :: loop =>
      let modules := _rename_dependency modules mod_ (Some new_name) in
      let start_name := if bool_decide (mod_ = start_name) then new_name else start_name in
      rename_members new_name loop modules start_name
  end.

(** The body of the collapse loop once a cycle [loop] was found. *)
Definition collapse_cycle (modules : registry) (start_name : string)
    (loop : list string) : outcome (registry * string) :=
  let new_name := join newline loop in
  let new_module := Module_init new_name in
  let modules := <[new_name := new_module]> modules in
  '(modules, new_module) ← merge_members new_name loop modules new_module;
  let '(modules, start_name) := rename_members new_name loop modules start_name in
  let new_module := reload new_name modules new_module in
  if bool_decide (new_name ∈ dependencies new_module) then
    let new_module :=
      set_dependencies (dependencies new_module ∖ {[new_name]}) new_module in
    Done (store new_name new_module modules, start_name)
  else Raise (KeyError new_name).

(** One iteration of the collapse loop: [None] when no cycle is left. *)
Definition collapse_step (fuel : nat) (modules : registry) (start_name : string)
  : outcome (option (registry * string)) :=
  '(found, _) ← _detect_loop fuel modules start_name [];
  match found with
  | None => Done None
  | Some loop => st ← collapse_cycle modules start_name loop; Done (Some st)
  end.

Fixpoint collapse_loop (fuel : nat) (modules : registry) (start_name : string)
  : outcome (registry * string) :=
  match fuel with
  | O => OutOfFuel
  | S fuel' =>
      r ← collapse_step fuel modules start_name;
      match r with
      | None => Done (modules, start_name)
      | Some (modules, start_name) => collapse_loop fuel' modules start_name
      end
  end.

(** The state of the collapse loop after [n] iterations, if it gets
    that far. *)
Fixpoint collapse_iter (fuel : nat) (n : nat) (modules : registry) (start_name : string)
  : option (registry * string) :=
  match n with
  | O => Some (modules, start_name)
  | S n =>
      match collapse_step fuel modules start_name with
      | Done (Some (modules, start_name)) => collapse_iter fuel n modules start_name
      | _ => None
      end
  end.

Fixpoint can_remove_scan (modules : registry) (dependency : string)
    (deps : list string) : outcome bool :=
  match deps with
  | [] => Done false
  | dep :: deps =>
      if bool_decide (dep = dependency) then can_remove_scan modules dependency deps
      else
        D ← lookup_key modules dep;
        if bool_decide (dependency ∈ dependencies D) then Done true
        else can_remove_scan modules dependency deps
  end.

Definition _dependency_can_be_removed (modules : registry) (name dependency : string)
  : outcome bool :=
  M ← lookup_key modules name;
  can_remove_scan modules dependency (set_iter ord (dependencies M)).

(** The [for dep in modules[mod_name].dependencies] search for an edge
    to eliminate. *)
Fixpoint find_eliminate (modules : registry) (mod_name : string)
    (deps : list string) : outcome (option string) :=
  match deps with
  | [] => Done None
  | dep :: deps =>
      b ← _dependency_can_be_removed modules mod_name dep;
      if b : bool then Done (Some dep) else find_eliminate modules mod_name deps
  end.

(** The pruning phase changes the registry in place, so its functions
    return the registry they leave behind together with how they ended. *)
Fixpoint eliminate_loop (fuel : nat) (modules : registry) (mod_name : string)
  : registry * outcome unit :=
  match fuel with
  | O => (modules, OutOfFuel)
  | S fuel =>
      match lookup_key modules mod_name with
      | Done M =>
          match find_eliminate modules mod_name (set_iter ord (dependencies M)) with
          | Done None => (modules, Done ())
          | Done (Some eliminate) =>
              if bool_decide (eliminate ∈ dependencies M) then
                let M := set_dependencies (dependencies M ∖ {[eliminate]}) M in
                eliminate_loop fuel (<[mod_name := M]> modules) mod_name
              else (modules, Raise (KeyError eliminate))
          | Raise e => (modules, Raise e)
          | OutOfFuel => (modules, OutOfFuel)
          end
      | Raise e => (modules, Raise e)
      | OutOfFuel => (modules, OutOfFuel)
      end
  end.

Fixpoint prune_loop (fuel : nat) (modules : registry) (queue : list string)
  : registry * outcome unit :=
  match fuel with
  | O => (modules, OutOfFuel)
  | S fuel' =>
      match list_pop queue with
      | None => (modules, Done ())
      | Some (mod_name, queue) =>
          match eliminate_loop fuel modules mod_name with
          | (modules, Done _) =>
              match lookup_key modules mod_name with
              | Done M =>
                  prune_loop fuel' modules (queue ++ set_iter ord (dependencies M))
              | Raise e => (modules, Raise e)
              | OutOfFuel => (modules, OutOfFuel)
              end
          | (modules, Raise e) => (modules, Raise e)
          | (modules, OutOfFuel) => (modules, OutOfFuel)
          end
      end
  end.

(** The pruning phase, started from the root. *)
Definition prune (fuel : nat) (modules : registry) (start_name : string)
  : registry * outcome unit :=
  prune_loop fuel modules [start_name].

Definition collapse_modules (fuel : nat) (modules : registry) (start_name : string)
  : outcome registry :=
  '(modules, start_name) ← collapse_loop fuel modules start_name;
  let '(modules, r) := prune fuel modules start_name in
  _ ← r; Done modules.
End Engine.

(** ** Memory attributor *)

Inductive log_record : Type :=
  | InfoGettingRss (name : string)
  | InfoOwnPackages (name : string) (pkgs : gset string)
  | InfoDependencies (name : string) (deps : gset string)
  | WarningNegativeOwnRss (name : string) (own_rss : Z).

Section Attribution.
Variable ord : IterOrder.

(** The operating system: running [python -c script] in a child process
    and waiting for it changes the world and yields the wait status and
    the peak resident set size [ru_maxrss].  [run_python] is the child
    that was started and waited for: an [OSError] raised by [Popen] or
    [os.wait4] themselves (no interpreter to run) has no outcome here. *)
Variable World : Type.
Variable run_python : World → string → World * (Z * Z).

(** What attribution changes: the world, the log and the registry. *)
Record attr_state : Type := mkAttrState {
  st_world : World;
  st_log : list log_record;
  st_modules : registry
}.

Definition add_log (r : log_record) (st : attr_state) : attr_state :=
  mkAttrState (st_world st) (st_log st ++ [r]) (st_modules st).
Definition set_world (w : World) (st : attr_state) : attr_state :=
  mkAttrState w (st_log st) (st_modules st).
Definition set_module (k : string) (M : Module) (st : attr_state) : attr_state :=
  mkAttrState (st_world st) (st_log st) (<[k := M]> (st_modules st)).

Definition import_script (imports : gset string) : string :=
  join ";" (map (λ i, "import " +:+ i) (set_iter ord imports)).

Definition _imports_memory_usage (w : World) (imports : gset string)
  : World * outcome Z :=
  let script := import_script imports in
  let '(w, (waitstatus, ru_maxrss)) := run_python w script in
  if bool_decide (waitstatus ≠ 0) then (w, Raise (WaitStatusError waitstatus script))
  else (w, Done ru_maxrss).

(** The [for dep in modules[name].dependencies] loop that gathers the
    packages of the direct dependencies. *)
Fixpoint collect_deps (modules : registry) (dep_names : list string)
    (deps : gset string) : outcome (gset string) :=
  match dep_names with
  | [] => Done deps
  | dep :: dep_names =>
      D ← lookup_key modules dep;
      collect_deps modules dep_names (deps ∪ packages D)
  end.

Definition _set_rss_for_module (st : attr_state) (name : string)
  : attr_state * outcome unit :=
  let st := add_log (InfoGettingRss name) st in
  match st_modules st !! name with
  | None => (st, Raise (KeyError name))
  | Some M =>
      let st := add_log (InfoOwnPackages name (packages M)) st in
      let '(w, r) := _imports_memory_usage (st_world st) (packages M) in
      let st := set_world w st in
      match r with
      | Done total =>
          let M := set_total_rss total M in
          let st := set_module name M st in
          match collect_deps (st_modules st) (set_iter ord (dependencies M)) ∅ with
          | Done deps =>
              let st := add_log (InfoDependencies name deps) st in
              let '(w, r) := _imports_memory_usage (st_world st) deps in
              let st := set_world w st in
              match r with
              | Done deps_rss =>
                  let M := set_own_rss (total_rss M - deps_rss) M in
                  let st := set_module name M st in
                  if bool_decide (own_rss M < 0) then
                    let st := add_log (WarningNegativeOwnRss name (own_rss M)) st in
                    (set_module name (set_own_rss 0 M) st, Done ())
                  else (st, Done ())
              | Raise e => (st, Raise e)
              | OutOfFuel => (st, OutOfFuel)
              end
          | Raise e => (st, Raise e)
          | OutOfFuel => (st, OutOfFuel)
          end
      | Raise e => (st, Raise e)
      | OutOfFuel => (st, OutOfFuel)
      end
  end.

(** [for name in names: _set_rss_for_module(modules, name)] *)
Fixpoint set_rss_each (st : attr_state) (names : list string)
  : attr_state * outcome unit :=
  match names with
  | [] => (st, Done ())
  | name :: names =>
      match _set_rss_for_module st name with
      | (st, Done _) => set_rss_each st names
      | (st, Raise e) => (st, Raise e)
      | (st, OutOfFuel) => (st, OutOfFuel)
      end
  end.

Definition set_rss_for_modules (st : attr_state) : attr_state * outcome unit :=
  set_rss_each st (dict_iter ord (st_modules st)).
End Attribution.

Arguments mkAttrState {World} _ _ _.
Arguments st_world {World} _.
Arguments st_log {World} _.
Arguments st_modules {World} _.

(** ** Renderer: node identifiers *)

(** The complement of the character class [[^0-9A-Za-z_]]. *)
Definition is_dot_char (c : ascii) : bool :=
  let n := nat_of_ascii c in
  ((48 <=? n) && (n <=? 57) || (65 <=? n) && (n <=? 90)
   || (97 <=? n) && (n <=? 122) || (n =? 95))%nat.

(** [_invalid_dot_chars.sub("_", name)] *)
Fixpoint sanitize (s : string) : string :=
  match s with
  | EmptyString => EmptyString
  | String c rest => String (if is_dot_char c then c else "_"%char) (sanitize rest)
  end.

Definition _dot_node_name (unique_id : N) (name : string) : string :=
  "node" +:+ pretty unique_id +:+ "_" +:+ sanitize name.

(** What [print_dot] prints.  The label and the fill colour of a node are
    formatted from the module and the extreme totals with floating point;
    a [DotNode] line keeps those inputs instead of the formatted text.
    The formatting itself is not modelled: [m.own_rss / 1024 / 1024] and
    [m.total_rss / 1024 / 1024] raise [OverflowError] for an integer beyond
    the range of a float, so the renderer below is that of the source for
    memory fields within that range, which is where every figure that
    [os.wait4] reports lies. *)
Inductive dot_line : Type :=
  | DotBegin      (* digraph G { *)
  | DotNodesep    (* nodesep=0.5 *)
  | DotNodeStyle  (* node [fontsize=10,shape=box,style=...] *)
  | DotEnd        (* } *)
  | DotNode (node_name : string) (m : Module) (min_rss max_rss : Z)
  | DotEdge (src dst : string).

Section Renderer.
Variable ord : IterOrder.

(** [modules.values()] *)
Definition dict_values (modules : registry) : list Module :=
  omap (λ k, modules !! k) (dict_iter ord modules).

Definition sys_maxsize : Z := 2 ^ 63 - 1.

(** The first loop of [print_dot]: [(max_rss, min_rss)]. *)
Definition rss_range (ms : list Module) : Z * Z :=
  let '(max_rss, min_rss) :=
    foldl (λ '(max_rss, min_rss) mod_,
             (Z.max max_rss (total_rss mod_), Z.min min_rss (total_rss mod_)))
          (0, sys_maxsize) ms in
  if bool_decide (min_rss = max_rss) then (max_rss + 1, min_rss)
  else (max_rss, min_rss).

(** The node loop: [counter] is passed along as the source has it, and
    the source never changes it. *)
Fixpoint print_nodes (counter : N) (min_rss max_rss : Z) (ms : list Module)
    (node_names : gmap string string) : gmap string string * list dot_line :=
  match ms with
  | [] => (node_names, [])
  | m :: ms =>
      let node_name := _dot_node_name counter (name m) in
      let node_names := <[name m := node_name]> node_names in
      let '(node_names, lines) := print_nodes counter min_rss max_rss ms node_names in
      (node_names, DotNode node_name m min_rss max_rss :: lines)
  end.

Definition lookup_node (node_names : gmap string string) (k : string) : outcome string :=
  match node_names !! k with
  | Some n => Done n
  | None => Raise (KeyError k)
  end.

Fixpoint print_edges_of (node_names : gmap string string) (m : Module)
    (deps : list string) : list dot_line * outcome unit :=
  match deps with
  | [] => ([], Done ())
  | dep :: deps =>
      match lookup_node node_names (name m) with
      | Done src =>
          match lookup_node node_names dep with
          | Done dst =>
              let '(lines, r) := print_edges_of node_names m deps in
              (DotEdge src dst :: lines, r)
          | Raise e => ([], Raise e)
          | OutOfFuel => ([], OutOfFuel)
          end
      | Raise e => ([], Raise e)
      | OutOfFuel => ([], OutOfFuel)
      end
  end.

Fixpoint print_edges (node_names : gmap string string) (ms : list Module)
  : list dot_line * outcome unit :=
  match ms with
  | [] => ([], Done ())
  | m :: ms =>
      match print_edges_of node_names m (set_iter ord (dependencies m)) with
      | (lines, Done _) =>
          let '(lines', r) := print_edges node_names ms in (lines ++ lines', r)
      | (lines, r) => (lines, r)
      end
  end.

(** The lines written to [file], and how the call ended. *)
Definition print_dot (modules : registry) : list dot_line * outcome unit :=
  let ms := dict_values modules in
  let '(max_rss, min_rss) := rss_range ms in
  let header := [DotBegin; DotNodesep; DotNodeStyle] in
  let counter := 0%N in
  let '(node_names, nodes) := print_nodes counter min_rss max_rss ms ∅ in
  match print_edges node_names ms with
  | (edges, Done _) => (header ++ nodes ++ edges ++ [DotEnd], Done ())
  | (edges, r) => (header ++ nodes ++ edges, r)
  end.

(** The node identifiers among the printed lines. *)
Definition node_ids (lines : list dot_line) : list string :=
  omap (λ l, match l with DotNode n _ _ _ => Some n | _ => None end) lines.
End Renderer.

(** ** Specifications used by the theorems *)

(** Where an edge to [d] points once the members of [loop] are merged
    into [new_name]. *)
Definition redirect (loop : list string) (new_name : string) (d : string) : string :=
  if bool_decide (d ∈ loop) then new_name else d.

Definition redirect_module (loop : list string) (new_name : string) (M : Module) : Module :=
  set_dependencies (set_map (redirect loop new_name) (dependencies M)) M.

Definition pkgs_of (modules : registry) (loop : list string) : gset string :=
  ⋃ ((λ k, from_option packages ∅ (modules !! k)) <$> loop).

Definition deps_of (modules : registry) (loop : list string) : gset string :=
  ⋃ ((λ k, from_option dependencies ∅ (modules !! k)) <$> loop).

(** The registry after the cycle [loop] has been collapsed. *)
Definition collapsed (modules : registry) (loop : list string) : registry :=
  let new_name := join newline loop in
  <[new_name :=
      mkModule new_name (pkgs_of modules loop)
        (set_map (redirect loop new_name) (deps_of modules loop) ∖ {[new_name]}) 0 0]>
    (redirect_module loop new_name <$> foldr delete modules loop).

(** Consecutive entries of [l] are related by [R]. *)
Definition chain (R : relation string) (l : list string) : Prop :=
  ∀ i a b, l !! i = Some a → l !! S i = Some b → R a b.

(** [loop] is a cycle of dependency edges between distinct modules. *)
Definition is_cycle (modules : registry) (loop : list string) : Prop :=
  NoDup loop ∧ (∀ x, x ∈ loop → is_Some (modules !! x)) ∧
  chain (edge modules) loop ∧
  ∃ a b, last loop = Some a ∧ head loop = Some b ∧ edge modules a b.

(** [modules'] has the modules of [modules], each with the same name,
    packages and memory figures and with some of its dependencies. *)
Definition prunes (modules modules' : registry) : Prop :=
  ∀ k, match modules !! k, modules' !! k with
       | Some M, Some M' =>
           name M' = name M ∧ packages M' = packages M ∧
           own_rss M' = own_rss M ∧ total_rss M' = total_rss M ∧
           dependencies M' ⊆ dependencies M
       | None, None => True
       | _, _ => False
       end.

(** Every edge of [modules] is still a path in [modules']. *)
Definition keeps_paths (modules modules' : registry) : Prop :=
  ∀ a b, edge modules a b → rtc (edge modules') a b.

(** ** Deciding the invariants, and example registries *)

#[global] Instance no_self_loops_dec (m : registry) : Decision (no_self_loops m).
Proof.
  refine (cast_if (decide (map_Forall (λ k M, k ∉ dependencies M) m)));
    abstract done.
Defined.

#[global] Instance no_dangling_dec (m : registry) : Decision (no_dangling m).
Proof.
  refine (cast_if (decide (map_Forall
    (λ _ M, set_Forall (λ d, is_Some (m !! d)) (dependencies M)) m)));
    abstract (unfold no_dangling, map_Forall, set_Forall in *; naive_solver).
Defined.

Definition two_cycle : registry :=
  <["A" := mkModule "A" {["A"]} {["B"]} 0 0]>
    {["B" := mkModule "B" {["B.x"]} {["A"]} 0 0]}.


Definition diamond : registry :=
  list_to_map
    [("A", mkModule "A" {["A"]} {["B"; "C"; "D"]} 0 0);
     ("B", mkModule "B" {["B"]} {["D"]} 0 0);
     ("C", mkModule "C" {["C"]} {["D"]} 0 0);
     ("D", mkModule "D" {["D"]} ∅ 0 0)].

(** Every dependency edge goes to a module of smaller rank. *)
Definition ranked (rank : string → nat) (modules : registry) : Prop :=
  map_Forall (λ k M, set_Forall (λ d, (rank d < rank k)%nat) (dependencies M)) modules.

(** ** The invariant of the graph builder *)

Section BuilderSpec.
Variable _get_imports : string → list string.
Variable root_pkg : string.

(** The import paths that importing [root_pkg] leads to. *)
Definition traced (p : string) : Prop := rtc (imports _get_imports) root_pkg p.

(** [p] has been recorded as a package of its module. *)
Definition processed (modules : registry) (p : string) : Prop :=
  ∃ M, modules !! _module_name p = Some M ∧ p ∈ packages M.

Record build_inv (modules : registry) (queue : list string) : Prop := {
  inv_module : ∀ k M, modules !! k = Some M →
    name M = k ∧ own_rss M = 0 ∧ total_rss M = 0 ∧ ∃ p, p ∈ packages M;
  inv_package : ∀ k M p, modules !! k = Some M → p ∈ packages M →
    _module_name p = k ∧ traced p ∧
    ∀ i, i ∈ _get_imports p →
      (i ∈ queue ∨ processed modules i) ∧
      (_module_name i ≠ k → _module_name i ∈ dependencies M);
  inv_dependency : ∀ k M d, modules !! k = Some M → d ∈ dependencies M →
    d ≠ k ∧ ∃ p i, p ∈ packages M ∧ i ∈ _get_imports p ∧ _module_name i = d;
  inv_queue : ∀ q, q ∈ queue → traced q;
  inv_root : root_pkg ∈ queue ∨ processed modules root_pkg
}.
End BuilderSpec.

(** All import paths recorded in the registry. *)
Definition all_packages (modules : registry) : gset string :=
  ⋃ ((packages ∘ snd) <$> map_to_list modules).

(** The work ahead of the builder when the import paths it can meet are
    those of [U]: for every path of [U] not yet recorded, its visit and the
    queue entries that visit makes; and the entries already queued. *)
Definition build_work (_get_imports : string → list string) (U : gset string)
    (modules : registry) (queue : list string) : nat :=
  (sum_list_with (λ p, S (length (_get_imports p))) (elements (U ∖ all_packages modules))
   + length queue)%nat.

(** No module lists its own name among its dependencies. *)
Definition own_name_not_dependency (modules : registry) : Prop :=
  ∀ k M, modules !! k = Some M → name M ∉ dependencies M.

(** A small import trace: [a.x] imports [b], [a.y] and [a]; [b] imports
    [a.x] and [c.d.e]; nothing else imports anything. *)
Definition example_tracer (p : string) : list string :=
  if bool_decide (p = "a.x") then ["b"; "a.y"; "a"]
  else if bool_decide (p = "b") then ["a.x"; "c.d.e"]
  else [].

(** A world that only counts the child processes run so far: the first
    probe reports 100, every later one 120. *)
Definition noisy_python (w : nat) (script : string) : nat * (Z * Z) :=
  (S w, (0, if bool_decide (w = 0%nat) then 100 else 120)).

(** A probe with a zero baseline: the empty script peaks at 0, every
    other script at 100. *)
Definition zero_baseline_python (w : unit) (script : string) : unit * (Z * Z) :=
  (w, (0, if bool_decide (script = "") then 0 else 100)).

Definition leaf_registry : registry :=
  {["leaf" := mkModule "leaf" {["leaf"]} ∅ 0 0]}.

(** The registry left by collapsing the cycle of [a] and [b] below the
    root [a_b]. *)
Definition colliding : registry :=
  <["a_b" := mkModule "a_b" {["a_b"]} {[join newline ["a"; "b"]]} 0 0]>
    {[join newline ["a"; "b"] :=
        mkModule (join newline ["a"; "b"]) {["a"; "b"]} ∅ 0 0]}.

#[global] Instance ranked_dec rank (m : registry) : Decision (ranked rank m).
Proof. unfold ranked. apply _. Defined.

Definition diamond_rank (k : string) : nat :=
  if bool_decide (k = "A") then 2%nat
  else if bool_decide (k = "D") then 0%nat else 1%nat.

#[global] Instance keyed_dec (m : registry) : Decision (keyed m).
Proof.
  refine (cast_if (decide (map_Forall (λ k M, name M = k) m))); abstract done.
Defined.

#[global] Instance own_name_not_dependency_dec (m : registry) :
  Decision (own_name_not_dependency m).
Proof.
  refine (cast_if (decide (map_Forall (λ _ M, name M ∉ dependencies M) m)));
    abstract done.
Defined.

(** ** Further functions of the source *)

Definition backslash : ascii := "092"%char.
Definition dquote : ascii := "034"%char.

(** [s.replace(c, r)] for a pattern [c] of one character *)
Fixpoint replace_char (c : ascii) (r : string) (s : string) : string :=
  match s with
  | EmptyString => EmptyString
  | String a rest =>
      if Ascii.eqb a c then r +:+ replace_char c r rest
      else String a (replace_char c r rest)
  end.

(** [_dot_escape]: backslashes first, then double quotes, then newlines. *)
Definition _dot_escape (s : string) : string :=
  replace_char "010"%char (String backslash "n")
    (replace_char dquote (String backslash (String dquote ""))
       (replace_char backslash (String backslash (String backslash "")) s)).

(** [c in s] for a single character *)
Fixpoint contains_char (c : ascii) (s : string) : bool :=
  match s with
  | EmptyString => false
  | String a rest => Ascii.eqb a c || contains_char c rest
  end.

(** [s.startswith(p)] *)
Fixpoint startswith (p s : string) : bool :=
  match p, s with
  | EmptyString, _ => true
  | String a p, String b s => Ascii.eqb a b && startswith p s
  | String _ _, EmptyString => false
  end.

(** [s[n:]] *)
Fixpoint string_drop (n : nat) (s : string) : string :=
  match n, s with
  | O, _ => s
  | S n, String _ rest => string_drop n rest
  | S _, EmptyString => EmptyString
  end.

(** [s[:n]] for [0 <= n] *)
Fixpoint string_take (n : nat) (s : string) : string :=
  match n, s with
  | O, _ => EmptyString
  | S n, String a rest => String a (string_take n rest)
  | S _, EmptyString => EmptyString
  end.

(** [s.endswith(suffix)] *)
Definition endswith (suffix s : string) : bool :=
  (String.length suffix <=? String.length s)%nat
  && String.eqb (string_drop (String.length s - String.length suffix) s) suffix.

(** [s[:-len(suffix)]], for a non-empty [suffix] *)
Definition drop_suffix (suffix s : string) : string :=
  string_take (String.length s - String.length suffix) s.

(** The command line of [cli.py] *)
Record cli_args : Type := mkCliArgs {
  arg_module_name : string;
  arg_output : string;
  arg_generate_svg : bool;
  arg_open : bool
}.

(** The first block of [main]: a path given as the module is turned into
    a dotted module name. *)
Definition module_name_of_arg (module_name : string) : string :=
  if contains_char "/"%char module_name then
    let module_name :=
      if startswith "./" module_name then string_drop 2 module_name
      else module_name in
    let module_name :=
      if endswith ".py" module_name then drop_suffix ".py" module_name
      else module_name in
    replace_char "/"%char "." module_name
  else module_name.

(** The file names [main] settles on: the DOT output, the SVG output, and
    whether [dot -Tsvg] is run. *)
Definition output_plan (args : cli_args) (module_name : string)
  : string * string * bool :=
  let dot_output := arg_output args in
  let generate_svg := arg_generate_svg args in
  let generate_svg := if arg_open args then true else generate_svg in
  let dot_output :=
    if generate_svg && String.eqb dot_output "-"
    then "./" +:+ replace_char "."%char "_" module_name +:+ ".dot"
    else dot_output in
  let svg_output := dot_output in
  let svg_output :=
    if endswith ".dot" svg_output then drop_suffix ".dot" svg_output
    else svg_output in
  let svg_output := svg_output +:+ ".svg" in
  (dot_output, svg_output, generate_svg).

(** ** The import tracer *)

Module Tracer.

Definition _exclude : list string :=
  ["__future__"; "_ast"; "_bisect"; "_blake2"; "_bz2"; "_cffi_backend";
   "_compression"; "_contextvars"; "_csv"; "_datetime"; "_decimal"; "_hashlib";
   "_json"; "_lzma"; "_markupbase"; "_multibytecodec"; "_opcode"; "_random";
   "_scproxy"; "_sha3"; "_sha512"; "_ssl"; "_uuid"; "ast"; "base64"; "binascii";
   "bisect"; "calendar"; "csv"; "ctypes"; "ctypes._endian"; "dataclasses";
   "datetime"; "decimal"; "decimal"; "difflib"; "dis"; "encodings"; "fnmatch";
   "gc"; "getpass"; "gettext"; "grp"; "hashlib"; "hmac"; "inspect"; "ipaddress";
   "json"; "json.decoder"; "json.encoder"; "json.scanner"; "locale"; "mmap";
   "ntpath"; "numbers"; "opcode"; "pkgutil"; "platform"; "pprint"; "pwd";
   "quopri"; "random"; "resource"; "ssl"; "stringprep"; "tempfile"; "textwrap";
   "timeit"; "unicodedata"; "uu"; "uuid"; "zipfile"; "zlib";
   "oslo_config.sources._environment"].

(** [sys.modules]: the loaded modules by name, in insertion order, each
    with the name of its [__spec__] when it has one. *)
Abbreviation sys_modules := (list (string * option string)).

(** [del sys.modules[name]] *)
Definition sys_del (name : string) (sys : sys_modules) : sys_modules :=
  filter (λ e, e.1 ≠ name) sys.

(** The loop over [sys.modules] after the import: the new spec names to
    report and the keys to delete. *)
Definition scan_entry (own_modules : list string)
    (acc : list string * list string) (entry : string * option string)
  : list string * list string :=
  let '(new_modules, to_delete) := acc in
  let '(name, spec) := entry in
  if bool_decide (name ∈ own_modules) then (new_modules, to_delete)
  else
    let new_modules :=
      match spec with
      | None => new_modules
      | Some spec_name =>
          if bool_decide (spec_name ∈ _exclude) then new_modules
          else new_modules ++ [spec_name]
      end in
    (new_modules, to_delete ++ [name]).

Section GetImports.
(** [import_module(pkg)] changes [sys.modules]; [Some e] is the exception
    it raised. *)
Variable Error : Type.
Variable import_module : sys_modules → string → sys_modules * option Error.

Definition _get_imports (sys : sys_modules) (pkg : string)
  : sys_modules * (Error + list string) :=
  let own_modules := sys.*1 in
  match import_module sys pkg with
  | (sys, Some e) => (sys, inl e)
  | (sys, None) =>
      let '(new_modules, to_delete) := foldl (scan_entry own_modules) ([], []) sys in
      (foldl (λ sys name, sys_del name sys) sys to_delete, inr new_modules)
  end.
End GetImports.

End Tracer.

(** ** The pipeline of [main] *)

Section Pipeline.
Variable ord : IterOrder.
Variable _get_imports : string → list string.
Variable World : Type.
Variable run_python : World → string → World * (Z * Z).

End Pipeline.

(** ** Further specifications *)

(** No dependency of the module stored at [x] is shadowed by another of
    its dependencies. *)
Definition irreducible (modules : registry) (x : string) : Prop :=
  ∀ M d c D, modules !! x = Some M → d ∈ dependencies M → c ∈ dependencies M →
    c ≠ d → modules !! c = Some D → d ∉ dependencies D.

(** Every character of [s] satisfies [P]. *)
Fixpoint string_forall (P : ascii → bool) (s : string) : bool :=
  match s with
  | EmptyString => true
  | String a rest => P a && string_forall P rest
  end.

(** The edge lines among the printed lines. *)
Definition edge_lines (lines : list dot_line) : list (string * string) :=
  omap (λ l, match l with DotEdge a b => Some (a, b) | _ => None end) lines.

Definition is_digit (c : ascii) : bool :=
  let n := nat_of_ascii c in ((48 <=? n) && (n <=? 57))%nat.

(** What [_dot_escape] writes for one character. *)
Definition escape_char (c : ascii) : string :=
  if Ascii.eqb c backslash then String backslash (String backslash "")
  else if Ascii.eqb c dquote then String backslash (String dquote "")
  else if Ascii.eqb c "010"%char then String backslash "n"
  else String c "".

(** The two registries have the same modules with the same names,
    packages and dependencies; only the memory fields may differ. *)
Definition same_graph (modules modules' : registry) : Prop :=
  ∀ k, match modules !! k, modules' !! k with
       | Some M, Some M' =>
           name M' = name M ∧ packages M' = packages M ∧
           dependencies M' = dependencies M
       | None, None => True
       | _, _ => False
       end.

(** Both memory fields of every module are within the range of a float,
    so that formatting the node label in [print_dot] does not overflow. *)
Definition rss_fits_float (modules : registry) : Prop :=
  ∀ k M, modules !! k = Some M →
    Z.abs (own_rss M) < 2 ^ 1024 ∧ Z.abs (total_rss M) < 2 ^ 1024.

#[global] Instance rss_fits_float_dec (m : registry) : Decision (rss_fits_float m).
Proof.
  refine (cast_if (decide (map_Forall
    (λ _ M, Z.abs (own_rss M) < 2 ^ 1024 ∧ Z.abs (total_rss M) < 2 ^ 1024) m)));
    abstract done.
Defined.

(** ** Example data *)


(** A table of loaded modules, and an import that loads the package and
    [json] without raising. *)
Definition example_sys : Tracer.sys_modules := [("sys", None); ("os", Some "os")].

Definition example_import (sys : Tracer.sys_modules) (pkg : string)
  : Tracer.sys_modules * option unit :=
  (sys ++ [(pkg, Some pkg); ("json", Some "json")], None).

(** A module that imports only itself. *)
Definition self_importer : registry :=
  {["A" := mkModule "A" {["A"]} {["A"]} 0 0]}.

(** A module whose dependency is not in the registry. *)
Definition dangling_registry : registry :=
  {["a" := mkModule "a" {["a"]} {["b"]} 0 0]}.
(** * Theorems *)

(** ** Iteration orders and strings *)

Section OrderFacts.
Variable ord : IterOrder.

Lemma set_iter_elem_of s x : x ∈ set_iter ord s ↔ x ∈ s.
Proof. rewrite (set_iter_perm ord s). apply elem_of_elements. Qed.

Lemma set_iter_NoDup s : NoDup (set_iter ord s).
Proof. rewrite (set_iter_perm ord s). apply NoDup_elements. Qed.

Lemma set_iter_length s : length (set_iter ord s) = size s.
Proof. by rewrite (set_iter_perm ord s). Qed.

Lemma set_iter_singleton x : set_iter ord {[x]} = [x].
Proof.
  apply Permutation_singleton_r.
  rewrite (set_iter_perm ord). by rewrite elements_singleton.
Qed.

Lemma set_iter_empty : set_iter ord ∅ = [].
Proof.
  apply Permutation_nil_r. rewrite (set_iter_perm ord). by rewrite elements_empty.
Qed.

Lemma dict_iter_elem_of (m : registry) k : k ∈ dict_iter ord m ↔ is_Some (m !! k).
Proof. rewrite (dict_iter_perm ord m), elem_of_elements. apply elem_of_dom. Qed.

Lemma dict_iter_NoDup (m : registry) : NoDup (dict_iter ord m).
Proof. rewrite (dict_iter_perm ord m). apply NoDup_elements. Qed.
End OrderFacts.

Lemma string_app_length (a b : string) :
  String.length (a +:+ b) = (String.length a + String.length b)%nat.
Proof. induction a; simpl; auto. Qed.

Lemma join_length_ge sep l x :
  x ∈ l → (String.length x ≤ String.length (join sep l))%nat.
Proof.
  induction l as [|y l IH]; [by intros ?%elem_of_nil|].
  intros [->|Hx]%elem_of_cons; destruct l as [|z l]; simpl in *.
  - lia.
  - rewrite !string_app_length. lia.
  - by apply elem_of_nil in Hx.
  - rewrite !string_app_length. specialize (IH Hx). lia.
Qed.

(** The name of a composite of two or more modules is longer than the
    name of each member, so it is none of them. *)
Lemma join_length_gt x y l z :
  z ∈ x :: y :: l →
  (String.length z < String.length (join newline (x :: y :: l)))%nat.
Proof.
  intros Hz.
  change (join newline (x :: y :: l)) with (x +:+ newline +:+ join newline (y :: l)).
  rewrite !string_app_length. change (String.length newline) with 1%nat.
  apply elem_of_cons in Hz as [->|Hz]; [lia|].
  pose proof (join_length_ge newline _ _ Hz). lia.
Qed.

Lemma join_not_member x y l : join newline (x :: y :: l) ∉ x :: y :: l.
Proof. intros H%join_length_gt. lia. Qed.

(** ** The collapse of one cycle *)

Lemma lookup_foldr_delete_in (m : registry) (l : list string) k :
  k ∈ l → foldr delete m l !! k = None.
Proof.
  induction l as [|x l IH]; [by intros ?%elem_of_nil|]. simpl.
  destruct (decide (x = k)) as [->|Hne]; [by rewrite lookup_delete_eq|].
  intros [->|Hk]%elem_of_cons; [done|]. rewrite lookup_delete_ne by done. auto.
Qed.

Lemma lookup_foldr_delete_notin (m : registry) (l : list string) k :
  k ∉ l → foldr delete m l !! k = m !! k.
Proof.
  induction l as [|x l IH]; [done|]. simpl. intros Hk.
  apply not_elem_of_cons in Hk as [Hne Hk].
  rewrite lookup_delete_ne by done. auto.
Qed.

Lemma size_foldr_delete (m : registry) (l : list string) :
  NoDup l → (∀ x, x ∈ l → is_Some (m !! x)) →
  (size (foldr delete m l) + length l = size m)%nat.
Proof.
  induction l as [|x l IH]; simpl; [lia|].
  intros [Hx Hl]%NoDup_cons Hin.
  specialize (IH Hl (λ y Hy, Hin y (list_elem_of_further _ _ _ Hy))).
  destruct (Hin x (list_elem_of_here _ _)) as [M HM].
  assert (foldr delete m l !! x = Some M) as Hlk
    by by rewrite lookup_foldr_delete_notin.
  pose proof (map_size_delete x (foldr delete m l)) as Hs.
  rewrite Hlk in Hs. simpl in Hs.
  assert (size (foldr delete m l) ≠ 0)%nat.
  { intros E. apply map_size_empty_iff in E. rewrite E in Hlk. by rewrite lookup_empty in Hlk. }
  lia.
Qed.

Lemma elem_of_pkgs_of (m : registry) loop p :
  p ∈ pkgs_of m loop ↔ ∃ k M, k ∈ loop ∧ m !! k = Some M ∧ p ∈ packages M.
Proof.
  unfold pkgs_of. rewrite elem_of_union_list. split.
  - intros (X & (k & -> & Hk)%list_elem_of_fmap & Hp).
    destruct (m !! k) as [M|] eqn:E; simpl in Hp; [eauto|set_solver].
  - intros (k & M & Hk & E & Hp). exists (packages M). split; [|done].
    apply list_elem_of_fmap. exists k. by rewrite E.
Qed.

Lemma elem_of_deps_of (m : registry) loop d :
  d ∈ deps_of m loop ↔ ∃ k M, k ∈ loop ∧ m !! k = Some M ∧ d ∈ dependencies M.
Proof.
  unfold deps_of. rewrite elem_of_union_list. split.
  - intros (X & (k & -> & Hk)%list_elem_of_fmap & Hp).
    destruct (m !! k) as [M|] eqn:E; simpl in Hp; [eauto|set_solver].
  - intros (k & M & Hk & E & Hp). exists (dependencies M). split; [|done].
    apply list_elem_of_fmap. exists k. by rewrite E.
Qed.

Lemma Module_eq (M1 M2 : Module) :
  name M1 = name M2 → packages M1 = packages M2 →
  dependencies M1 = dependencies M2 → own_rss M1 = own_rss M2 →
  total_rss M1 = total_rss M2 → M1 = M2.
Proof. destruct M1, M2; simpl; congruence. Qed.

Lemma foldr_delete_delete (m : registry) (l : list string) k :
  foldr delete (delete k m) l = delete k (foldr delete m l).
Proof.
  induction l as [|x l IH]; simpl; [done|]. by rewrite IH, delete_delete.
Qed.

Lemma pkgs_of_delete (m : registry) loop k :
  k ∉ loop → pkgs_of (delete k m) loop = pkgs_of m loop.
Proof.
  intros Hk. unfold pkgs_of. f_equal. apply list_fmap_ext.
  intros i x Hi. rewrite lookup_delete_ne; [done|].
  intros ->. apply Hk. eapply list_elem_of_lookup_2; eauto.
Qed.

Lemma deps_of_delete (m : registry) loop k :
  k ∉ loop → deps_of (delete k m) loop = deps_of m loop.
Proof.
  intros Hk. unfold deps_of. f_equal. apply list_fmap_ext.
  intros i x Hi. rewrite lookup_delete_ne; [done|].
  intros ->. apply Hk. eapply list_elem_of_lookup_2; eauto.
Qed.

Lemma pkgs_of_insert (m : registry) loop k M :
  k ∉ loop → pkgs_of (<[k := M]> m) loop = pkgs_of m loop.
Proof.
  intros Hk. unfold pkgs_of. f_equal. apply list_fmap_ext.
  intros i x Hi. rewrite lookup_insert_ne; [done|].
  intros ->. apply Hk. eapply list_elem_of_lookup_2; eauto.
Qed.

Lemma deps_of_insert (m : registry) loop k M :
  k ∉ loop → deps_of (<[k := M]> m) loop = deps_of m loop.
Proof.
  intros Hk. unfold deps_of. f_equal. apply list_fmap_ext.
  intros i x Hi. rewrite lookup_insert_ne; [done|].
  intros ->. apply Hk. eapply list_elem_of_lookup_2; eauto.
Qed.

(** The first loop of the collapse, from a registry in which the new
    module is stored under a name that is not a member. *)
Lemma merge_members_spec new_name loop (m0 : registry) nm :
  new_name ∉ loop → NoDup loop → (∀ l, l ∈ loop → is_Some (m0 !! l)) →
  let nm' := mkModule (name nm) (packages nm ∪ pkgs_of m0 loop)
               (dependencies nm ∪ deps_of m0 loop) (own_rss nm) (total_rss nm) in
  merge_members new_name loop (<[new_name := nm]> m0) nm
  = Done (<[new_name := nm']> (foldr delete m0 loop), nm').
Proof.
  revert m0 nm. induction loop as [|l loop IH]; intros m0 nm Hnew Hnd Hin nm'.
  - simpl. assert (nm' = nm) as ->; [|done].
    apply Module_eq; simpl; try done; unfold pkgs_of, deps_of; simpl; set_solver.
  - apply not_elem_of_cons in Hnew as [Hne Hnew].
    apply NoDup_cons in Hnd as [Hl Hnd].
    destruct (Hin l (list_elem_of_here _ _)) as [M HM].
    cbn [merge_members]. unfold lookup_key.
    rewrite lookup_insert_ne by done. rewrite HM.
    cbn [mbind outcome_mbind outcome_bind].
    unfold store. rewrite alter_insert_eq, delete_insert_ne by done.
    rewrite IH; [|done|done|].
    2:{ intros l' Hl'. rewrite lookup_delete_ne by (intros ->; done).
        apply Hin. by apply list_elem_of_further. }
    rewrite foldr_delete_delete, pkgs_of_delete, deps_of_delete by done.
    assert (∀ a b : Module, a = b → ∀ m : registry,
      Done (<[new_name := a]> m, a) = Done (<[new_name := b]> m, b)) as Heq
      by (by intros ?? ->).
    simpl foldr. apply Heq.
    apply Module_eq; simpl; try done; unfold nm', pkgs_of, deps_of; simpl;
      rewrite HM; simpl; set_solver.
Qed.

Lemma redirect_module_rename l loop new_name M :
  new_name ∉ loop →
  redirect_module loop new_name (rename_in l (Some new_name) M)
  = redirect_module (l :: loop) new_name M.
Proof.
  intros Hnew. unfold redirect_module, rename_in.
  assert (∀ d, redirect (l :: loop) new_name d
    = if bool_decide (d = l) then new_name else redirect loop new_name d) as Hr.
  { intros d. unfold redirect. repeat case_bool_decide; set_solver. }
  assert (redirect loop new_name new_name = new_name) as Hn.
  { unfold redirect. by case_bool_decide. }
  case_bool_decide as Hl; apply Module_eq; simpl; try done.
  - apply set_eq. intros d. rewrite !elem_of_map. split.
    + intros (x & -> & [->%elem_of_singleton|[Hx Hxl]%elem_of_difference]%elem_of_union).
      * exists l. rewrite Hr, Hn. by rewrite bool_decide_eq_true_2.
      * exists x. rewrite Hr. rewrite bool_decide_eq_false_2 by set_solver. done.
    + intros (x & -> & Hx). rewrite Hr. case_bool_decide as E.
      * exists new_name. rewrite Hn. set_solver.
      * exists x. set_solver.
  - apply set_eq. intros d. rewrite !elem_of_map.
    split; intros (x & -> & Hx); exists x; (split; [|done]); rewrite Hr;
      rewrite bool_decide_eq_false_2; congruence.
Qed.

Lemma redirect_module_nil new_name M : redirect_module [] new_name M = M.
Proof.
  unfold redirect_module. apply Module_eq; simpl; try done.
  apply set_eq. intros d. rewrite elem_of_map. unfold redirect.
  split; [intros (x & -> & Hx)|intros Hd; exists d];
    rewrite bool_decide_eq_false_2 by apply not_elem_of_nil; done.
Qed.

(** The second loop of the collapse redirects every edge into the cycle
    and the root. *)
Lemma rename_members_spec new_name loop (m : registry) s :
  new_name ∉ loop →
  rename_members new_name loop m s
  = (redirect_module loop new_name <$> m, redirect loop new_name s).
Proof.
  revert m s. induction loop as [|l loop IH]; intros m s Hnew.
  - simpl. f_equal.
    rewrite <-(map_fmap_id m) at 1. apply map_fmap_ext.
    intros. by rewrite redirect_module_nil.
  - apply not_elem_of_cons in Hnew as [Hne Hnew].
    cbn [rename_members]. rewrite IH by done. unfold _rename_dependency.
    rewrite <-map_fmap_compose. f_equal.
    + apply map_fmap_ext. intros k M _. simpl. by apply redirect_module_rename.
    + unfold redirect. repeat case_bool_decide; set_solver.
Qed.

(** Collapsing a cycle whose composite name is not a member. *)
Lemma collapse_cycle_spec (m : registry) s loop :
  join newline loop ∉ loop → NoDup loop → (∀ l, l ∈ loop → is_Some (m !! l)) →
  (∃ d, d ∈ loop ∧ d ∈ deps_of m loop) →
  collapse_cycle m s loop
  = Done (collapsed m loop, redirect loop (join newline loop) s).
Proof.
  intros Hnew Hnd Hin (d & Hd & Hdd). unfold collapse_cycle, collapsed.
  set (new_name := join newline loop) in *.
  rewrite merge_members_spec by done.
  cbn [mbind outcome_mbind outcome_bind Module_init name packages dependencies
       own_rss total_rss].
  rewrite rename_members_spec by done.
  unfold reload, store. rewrite fmap_insert, lookup_insert_eq. cbn [default].
  rewrite bool_decide_eq_true_2.
  2:{ unfold redirect_module. cbn [set_dependencies dependencies].
      apply elem_of_map. exists d. split; [|set_solver].
      unfold redirect. by rewrite bool_decide_eq_true_2. }
  rewrite alter_insert_eq. do 3 f_equal.
  apply Module_eq; simpl; try done; [set_solver|].
  by rewrite (left_id_L ∅ (∪)).
Qed.

(** A one-member cycle overwrites the member with the empty composite and
    then fails to remove the self-edge. *)
Lemma collapse_cycle_singleton (m : registry) s x :
  collapse_cycle m s [x] = Raise (KeyError x).
Proof.
  unfold collapse_cycle. cbn [join merge_members]. unfold lookup_key.
  rewrite lookup_insert_eq. cbn [mbind outcome_mbind outcome_bind].
  unfold store. rewrite alter_insert_eq, delete_insert_eq.
  cbn [rename_members]. unfold reload, _rename_dependency.
  rewrite lookup_fmap, lookup_delete_eq. cbn [fmap option_fmap option_map default].
  rewrite bool_decide_eq_false_2; [done|]. simpl. set_solver.
Qed.

(** ** The cycle search *)

Lemma chain_app_l (R : relation string) l1 l2 : chain R (l1 ++ l2) → chain R l1.
Proof.
  intros H i a b Ha Hb. apply (H i); by apply lookup_app_l_Some.
Qed.

Lemma chain_drop (R : relation string) n l : chain R l → chain R (drop n l).
Proof.
  intros H i a b. rewrite !lookup_drop. replace (n + S i)%nat with (S (n + i)) by lia.
  apply H.
Qed.

Lemma chain_snoc (R : relation string) l a b :
  chain R (l ++ [a]) → R a b → chain R ((l ++ [a]) ++ [b]).
Proof.
  intros H Hab i x y Hx Hy.
  destruct (decide (S i < length (l ++ [a]))%nat) as [Hlt|Hge].
  - apply (H i); [rewrite lookup_app_l in Hx by lia|rewrite lookup_app_l in Hy by lia]; done.
  - assert (i < length (l ++ [a]))%nat as Hi.
    { apply lookup_lt_Some in Hy. rewrite length_app in Hy. simpl in Hy. lia. }
    rewrite lookup_app_l in Hx by done.
    rewrite length_app in Hi, Hge. simpl in Hi, Hge.
    assert (i = length l) as -> by lia.
    rewrite lookup_app_r in Hy by (rewrite length_app; simpl; lia).
    rewrite length_app in Hy. simpl in Hy.
    replace (S (length l) - (length l + 1))%nat with 0%nat in Hy by lia.
    rewrite lookup_app_r in Hx by lia.
    replace (length l - length l)%nat with 0%nat in Hx by lia.
    simpl in Hx, Hy. by simplify_eq.
Qed.

Lemma index_lookup x (l : list string) : x ∈ l → l !! index x l = Some x.
Proof.
  induction l as [|y l IH]; [by intros ?%elem_of_nil|]. simpl.
  case_bool_decide as E; [by subst|].
  intros [->|Hx]%elem_of_cons; [done|]. simpl. auto.
Qed.

Lemma last_drop_lookup (l : list string) n x :
  l !! n = Some x → last (drop n l) = last l.
Proof.
  revert n. induction l as [|y l IH]; intros n Hn; [done|].
  destruct n as [|n]; [done|]. simpl in *. rewrite (IH n Hn).
  destruct l; [by rewrite lookup_nil in Hn|done].
Qed.

Section Detect.
Variable ord : IterOrder.

Lemma search_deps_cases search deps v :
  (∀ d v', d ∈ deps → search d v = Done (None, v') → v' = v) →
  (search_deps search deps v = Done (None, removelast v) ∧
   ∀ d, d ∈ deps → search d v = Done (None, v))
  ∨ (∃ d, d ∈ deps ∧ search_deps search deps v = search d v ∧
          ∀ v', search d v ≠ Done (None, v')).
Proof.
  induction deps as [|d deps IH]; intros Hs; simpl.
  - left. split; [done|]. intros d Hd. by apply elem_of_nil in Hd.
  - destruct (search d v) as [[[found|] v']| |] eqn:E.
    + right. exists d. rewrite E. split; [left|]. split; [done|]. congruence.
    + assert (v' = v) as -> by (eapply Hs; [left|done]).
      destruct IH as [[H1 H2]|(d' & Hd' & H1 & H2)].
      { intros. eapply Hs; [by right|done]. }
      * left. split; [done|]. intros d' [->|Hd']%elem_of_cons; auto.
      * right. exists d'. split; [by right|]. done.
    + right. exists d. rewrite E. split; [left|]. split; [done|]. congruence.
    + right. exists d. rewrite E. split; [left|]. split; [done|]. congruence.
Qed.

Lemma search_deps_ext search1 search2 deps v :
  (∀ d v, d ∈ deps → search1 d v ≠ OutOfFuel → search2 d v = search1 d v) →
  search_deps search1 deps v ≠ OutOfFuel →
  search_deps search2 deps v = search_deps search1 deps v.
Proof.
  revert v. induction deps as [|d deps IH]; intros v Hs; simpl; [done|].
  intros Hne.
  assert (search1 d v ≠ OutOfFuel) as H1 by (intros E; by rewrite E in Hne).
  rewrite (Hs d v (list_elem_of_here _ _) H1).
  destruct (search1 d v) as [[[found|] v']| |]; try done.
  apply IH; [|done]. intros. apply Hs; [by right|done].
Qed.

(** A search that finds nothing leaves the shared list as it was. *)
Lemma detect_loop_none_visited fuel (m : registry) x v v' :
  _detect_loop ord fuel m x v = Done (None, v') → v' = v.
Proof.
  revert x v v'. induction fuel as [|fuel IH]; intros x v v'; simpl; [done|].
  case_bool_decide; [done|]. destruct (m !! x) as [M|]; [|done].
  intros Hs. destruct (search_deps_cases (_detect_loop ord fuel m)
    (set_iter ord (dependencies M)) (v ++ [x])) as [[H1 _]|(d & _ & H1 & H2)].
  - intros d w _. apply IH.
  - rewrite H1 in Hs. rewrite removelast_last in Hs. congruence.
  - rewrite H1 in Hs. by apply H2 in Hs.
Qed.

(** More fuel does not change a result. *)
Lemma detect_loop_fuel_mono fuel fuel' (m : registry) x v :
  (fuel ≤ fuel')%nat → _detect_loop ord fuel m x v ≠ OutOfFuel →
  _detect_loop ord fuel' m x v = _detect_loop ord fuel m x v.
Proof.
  revert fuel' x v. induction fuel as [|fuel IH]; intros fuel' x v Hle; [done|].
  destruct fuel' as [|fuel']; [lia|]. simpl.
  case_bool_decide; [done|]. destruct (m !! x) as [M|]; [|done].
  apply search_deps_ext. intros d w _. apply IH. lia.
Qed.

Lemma NoDup_length_le_size (m : registry) (v : list string) :
  NoDup v → (∀ y, y ∈ v → is_Some (m !! y)) → (length v ≤ size m)%nat.
Proof.
  intros Hnd Hin. rewrite <-(size_dom (D := gset string) m).
  rewrite <-(size_list_to_set (C := gset string) v Hnd).
  apply subseteq_size. intros y Hy%elem_of_list_to_set.
  apply elem_of_dom. auto.
Qed.

(** The search has enough fuel when the path may still grow to the size
    of the registry. *)
Lemma detect_loop_fuel_enough fuel (m : registry) x v :
  NoDup v → (∀ y, y ∈ v → is_Some (m !! y)) →
  (size m < length v + fuel)%nat →
  _detect_loop ord fuel m x v ≠ OutOfFuel.
Proof.
  revert x v. induction fuel as [|fuel IH]; intros x v Hnd Hin Hsz.
  - pose proof (NoDup_length_le_size m v Hnd Hin). lia.
  - simpl. case_bool_decide as Hx; [done|]. destruct (m !! x) as [M|] eqn:HM; [|done].
    assert (NoDup (v ++ [x])) as Hnd'.
    { apply NoDup_app. split; [done|]. split; [|apply NoDup_singleton].
      intros y Hy ->%list_elem_of_singleton. done. }
    assert (∀ y, y ∈ v ++ [x] → is_Some (m !! y)) as Hin'.
    { intros y [Hy| ->%list_elem_of_singleton]%elem_of_app; eauto. }
    destruct (search_deps_cases (_detect_loop ord fuel m)
      (set_iter ord (dependencies M)) (v ++ [x])) as [[H1 _]|(d & _ & H1 & _)].
    + intros d w _. apply detect_loop_none_visited.
    + by rewrite H1.
    + rewrite H1. apply IH; [done|done|]. rewrite length_app. simpl. lia.
Qed.

(** What the search returns is a cycle. *)
Lemma detect_loop_is_cycle fuel (m : registry) x v loop v' :
  NoDup v → (∀ y, y ∈ v → is_Some (m !! y)) → chain (edge m) (v ++ [x]) →
  _detect_loop ord fuel m x v = Done (Some loop, v') →
  is_cycle m loop.
Proof.
  revert x v. induction fuel as [|fuel IH]; intros x v Hnd Hin Hch; [done|].
  simpl. case_bool_decide as Hx.
  - intros [= <- <-]. pose proof (index_lookup x v Hx) as Hi.
    split; [|split; [|split]].
    + rewrite <-(take_drop (index x v) v) in Hnd. by apply NoDup_app in Hnd as (_ & _ & ?).
    + intros y Hy. apply Hin. by apply (subseteq_drop (index x v) v).
    + apply chain_drop. by apply chain_app_l in Hch.
    + destruct (last v) as [a|] eqn:Ha.
      2:{ apply last_None in Ha. subst. by apply elem_of_nil in Hx. }
      exists a, x. split; [by erewrite last_drop_lookup|].
      split; [by rewrite head_lookup, lookup_drop, Nat.add_0_r|].
      apply last_Some in Ha as [l' ->].
      apply (Hch (length l')).
      * rewrite lookup_app_l by (rewrite length_app; simpl; lia).
        by rewrite lookup_app_r, Nat.sub_diag by lia.
      * rewrite lookup_app_r by (rewrite length_app; simpl; lia).
        rewrite length_app. simpl. by replace (S (length l') - (length l' + 1))%nat with 0%nat by lia.
  - destruct (m !! x) as [M|] eqn:HM; [|done]. intros Hs.
    destruct (search_deps_cases (_detect_loop ord fuel m)
      (set_iter ord (dependencies M)) (v ++ [x])) as [[H1 _]|(d & Hd & H1 & _)].
    + intros d w _. apply detect_loop_none_visited.
    + rewrite H1 in Hs. done.
    + rewrite H1 in Hs. apply set_iter_elem_of in Hd.
      eapply IH; [| |apply chain_snoc; [done|]|done].
      * apply NoDup_app. split; [done|]. split; [|apply NoDup_singleton].
        intros y Hy ->%list_elem_of_singleton. done.
      * intros y [Hy| ->%list_elem_of_singleton]%elem_of_app; eauto.
      * by exists M.
Qed.
End Detect.

Section DetectNone.
Variable ord : IterOrder.

Lemma detect_loop_none_step fuel (m : registry) x v :
  _detect_loop ord fuel m x v = Done (None, v) →
  (x ∉ v) ∧ (∃ M, m !! x = Some M ∧
    ∀ d, d ∈ dependencies M →
      _detect_loop ord (pred fuel) m d (v ++ [x]) = Done (None, v ++ [x])).
Proof.
  destruct fuel as [|fuel]; [done|]. simpl.
  case_bool_decide as Hx; [done|]. destruct (m !! x) as [M|]; [|done].
  intros Hs. split; [done|]. exists M. split; [done|]. intros d Hd.
  destruct (search_deps_cases (_detect_loop ord fuel m)
    (set_iter ord (dependencies M)) (v ++ [x])) as [[_ H2]|(d' & _ & H1 & H2)].
  - intros d' w _. apply detect_loop_none_visited.
  - apply H2. by apply set_iter_elem_of.
  - rewrite H1 in Hs. by apply H2 in Hs.
Qed.

Lemma detect_loop_none_rtc fuel (m : registry) x y v :
  _detect_loop ord fuel m x v = Done (None, v) → rtc (edge m) x y →
  ∃ fuel' w, _detect_loop ord fuel' m y (v ++ w) = Done (None, v ++ w).
Proof.
  intros Hs Hr. revert fuel v Hs.
  induction Hr as [x|x z y (M & HM & Hz) _ IH]; intros fuel v Hs.
  - exists fuel, []. by rewrite app_nil_r.
  - apply detect_loop_none_step in Hs as (_ & M' & HM' & Hd).
    simplify_eq. destruct (IH _ _ (Hd z Hz)) as (fuel' & w & Hw).
    exists fuel', ([x] ++ w). by rewrite (assoc_L (++)).
Qed.

(** When the search from the root finds nothing, no cycle can be reached
    from the root. *)
Lemma detect_loop_none_acyclic fuel (m : registry) s v :
  _detect_loop ord fuel m s [] = Done (None, v) → acyclic_from m s.
Proof.
  intros Hs. assert (v = []) as -> by by apply detect_loop_none_visited in Hs.
  intros x Hx Hcyc.
  destruct (detect_loop_none_rtc _ _ _ _ _ Hs Hx) as (f1 & w & Hw). simpl in Hw.
  assert (∃ z, edge m x z ∧ rtc (edge m) z x) as (z & (M & HM & Hz) & Hzx).
  { inversion Hcyc; subst; eauto using rtc_refl, tc_rtc. }
  apply detect_loop_none_step in Hw as (_ & M' & HM' & Hd). simplify_eq.
  destruct (detect_loop_none_rtc _ _ _ _ _ (Hd z Hz) Hzx) as (f2 & w' & Hw').
  apply detect_loop_none_step in Hw' as (Hnot & _).
  apply Hnot. set_solver.
Qed.

Lemma detect_loop_no_raise fuel (m : registry) x v e :
  no_dangling m → is_Some (m !! x) → _detect_loop ord fuel m x v ≠ Raise e.
Proof.
  intros Hdang. revert x v. induction fuel as [|fuel IH]; intros x v [M HM]; [done|].
  simpl. case_bool_decide; [done|]. rewrite HM.
  destruct (search_deps_cases (_detect_loop ord fuel m)
    (set_iter ord (dependencies M)) (v ++ [x])) as [[H1 _]|(d & Hd & H1 & _)].
  - intros d w _. apply detect_loop_none_visited.
  - by rewrite H1.
  - rewrite H1. apply IH. apply set_iter_elem_of in Hd. eauto.
Qed.

Lemma detect_loop_missing_root fuel (m : registry) s :
  m !! s = None → _detect_loop ord (S fuel) m s [] = Raise (VisitedError [s]).
Proof.
  intros Hs. cbn [_detect_loop].
  rewrite bool_decide_eq_false_2 by apply not_elem_of_nil. by rewrite Hs.
Qed.
End DetectNone.

(** ** The collapsed registry *)

Lemma collapsed_lookup_new (m : registry) loop :
  let new_name := join newline loop in
  collapsed m loop !! new_name
  = Some (mkModule new_name (pkgs_of m loop)
            (set_map (redirect loop new_name) (deps_of m loop) ∖ {[new_name]}) 0 0).
Proof. intros new_name. unfold collapsed. by rewrite lookup_insert_eq. Qed.

Lemma collapsed_lookup_ne (m : registry) loop k :
  k ≠ join newline loop →
  collapsed m loop !! k
  = if bool_decide (k ∈ loop) then None
    else redirect_module loop (join newline loop) <$> m !! k.
Proof.
  intros Hk. unfold collapsed. rewrite lookup_insert_ne by done.
  rewrite lookup_fmap. case_bool_decide.
  - by rewrite lookup_foldr_delete_in.
  - by rewrite lookup_foldr_delete_notin.
Qed.

Lemma is_cycle_nonempty (m : registry) loop : is_cycle m loop → loop ≠ [].
Proof. intros (_ & _ & _ & a & b & Ha & _) ->. done. Qed.

Lemma is_cycle_closes (m : registry) loop :
  is_cycle m loop → ∃ d, d ∈ loop ∧ d ∈ deps_of m loop.
Proof.
  intros (_ & _ & _ & a & b & Ha & Hb & M & HM & Hab). exists b.
  split; [by apply head_Some_elem_of|].
  apply elem_of_deps_of. exists a, M. split; [|done].
  apply last_Some in Ha as [l' ->]. set_solver.
Qed.

Lemma is_cycle_singleton (m : registry) x : is_cycle m [x] → edge m x x.
Proof. intros (_ & _ & _ & a & b & Ha & Hb & Hab). simpl in *. by simplify_eq. Qed.

Lemma collapsed_size (m : registry) loop :
  is_cycle m loop → (2 ≤ length loop)%nat → (size (collapsed m loop) < size m)%nat.
Proof.
  intros (Hnd & Hin & _) Hlen. unfold collapsed.
  pose proof (size_foldr_delete m loop Hnd Hin) as Hsz.
  set (new_name := join newline loop). set (M := mkModule _ _ _ _ _).
  set (m0 := redirect_module loop new_name <$> foldr delete m loop).
  assert (size m0 = size (foldr delete m loop)) as Hm0 by apply map_size_fmap.
  assert (size (<[new_name := M]> m0) ≤ S (size m0))%nat.
  { destruct (m0 !! new_name) as [M0|] eqn:E.
    - rewrite map_size_insert_Some by eauto. lia.
    - rewrite map_size_insert_None by done. lia. }
  lia.
Qed.

Lemma collapsed_keyed (m : registry) loop : keyed m → keyed (collapsed m loop).
Proof.
  intros Hk k M'. destruct (decide (k = join newline loop)) as [->|Hne].
  - rewrite collapsed_lookup_new. by intros [= <-].
  - rewrite collapsed_lookup_ne by done. case_bool_decide; [done|].
    destruct (m !! k) as [M|] eqn:E; [|done]. intros [= <-]. simpl. eauto.
Qed.

Lemma elem_of_redirect_deps loop new_name (D : gset string) d :
  d ∈ (set_map (redirect loop new_name) D : gset string) ↔
  (d ∈ D ∧ d ∉ loop) ∨ (d = new_name ∧ ∃ l, l ∈ loop ∧ l ∈ D).
Proof.
  rewrite elem_of_map. unfold redirect. split.
  - intros (x & -> & Hx). case_bool_decide; eauto.
  - intros [[Hd Hl]|[-> (l & Hl & HD)]].
    + exists d. by rewrite bool_decide_eq_false_2.
    + exists l. by rewrite bool_decide_eq_true_2.
Qed.

Lemma collapsed_no_self_loops (m : registry) loop :
  no_self_loops m → no_self_loops (collapsed m loop).
Proof.
  intros Hs k M'. destruct (decide (k = join newline loop)) as [->|Hne].
  - rewrite collapsed_lookup_new. intros [= <-]. simpl. set_solver.
  - rewrite collapsed_lookup_ne by done. case_bool_decide as Hk; [done|].
    destruct (m !! k) as [M|] eqn:E; [|done]. intros [= <-]. simpl.
    rewrite elem_of_redirect_deps. intros [[Hd _]|[? _]]; [|done].
    by apply (Hs k M).
Qed.

Lemma collapsed_no_dangling (m : registry) loop :
  no_dangling m → no_dangling (collapsed m loop).
Proof.
  intros Hdang.
  assert (∀ d M k, m !! k = Some M → d ∈ dependencies M → d ∉ loop →
            is_Some (collapsed m loop !! d)) as Hkeep.
  { intros d M k HM Hd Hl. destruct (decide (d = join newline loop)) as [->|Hne].
    - rewrite collapsed_lookup_new. eauto.
    - rewrite collapsed_lookup_ne, bool_decide_eq_false_2 by done.
      destruct (Hdang k M d HM Hd) as [D ->]. simpl. eauto. }
  intros k M' d. destruct (decide (k = join newline loop)) as [->|Hne].
  - rewrite collapsed_lookup_new. intros [= <-]. simpl.
    intros [[[(l & M & Hl & HM & Hd)%elem_of_deps_of Hnl]|[-> _]]%elem_of_redirect_deps Hnew]%elem_of_difference.
    + eauto.
    + set_solver.
  - rewrite collapsed_lookup_ne by done. case_bool_decide as Hk; [done|].
    destruct (m !! k) as [M|] eqn:E; [|done]. intros [= <-]. simpl.
    intros [[Hd Hnl]|[-> _]]%elem_of_redirect_deps; [eauto|].
    rewrite collapsed_lookup_new. eauto.
Qed.

Lemma collapsed_root (m : registry) loop s :
  is_Some (m !! s) → is_Some (collapsed m loop !! redirect loop (join newline loop) s).
Proof.
  intros [M HM]. unfold redirect. case_bool_decide as Hs.
  - rewrite collapsed_lookup_new. eauto.
  - destruct (decide (s = join newline loop)) as [->|Hne].
    + rewrite collapsed_lookup_new. eauto.
    + rewrite collapsed_lookup_ne, bool_decide_eq_false_2, HM by done. simpl. eauto.
Qed.

(** ** The collapse loop *)

Section Collapse.
Variable ord : IterOrder.

(** A completed iteration collapsed a cycle of two or more modules. *)
Lemma collapse_step_some fuel (m : registry) s m' s' :
  collapse_step ord fuel m s = Done (Some (m', s')) →
  ∃ loop, is_cycle m loop ∧ (2 ≤ length loop)%nat ∧
          m' = collapsed m loop ∧ s' = redirect loop (join newline loop) s.
Proof.
  unfold collapse_step.
  destruct (_detect_loop ord fuel m s []) as [[[loop|] v]| |] eqn:Hd; try done.
  cbn [mbind outcome_mbind outcome_bind]. intros Hc.
  assert (is_cycle m loop) as Hcyc.
  { eapply (detect_loop_is_cycle ord fuel m s []); [apply NoDup_nil_2| | |done].
    - by intros y ?%elem_of_nil.
    - intros [|i] a b; simpl; [|by rewrite lookup_nil]. done. }
  exists loop. split; [done|].
  destruct loop as [|x [|y loop]].
  - by apply is_cycle_nonempty in Hcyc.
  - by rewrite collapse_cycle_singleton in Hc.
  - rewrite collapse_cycle_spec in Hc.
    + simpl in Hc. simplify_eq. split; [simpl; lia|done].
    + apply join_not_member.
    + apply Hcyc.
    + apply Hcyc.
    + by apply is_cycle_closes.
Qed.

Lemma collapse_step_none fuel (m : registry) s :
  collapse_step ord fuel m s = Done None → acyclic_from m s.
Proof.
  unfold collapse_step.
  destruct (_detect_loop ord fuel m s []) as [[[loop|] v]| |] eqn:Hd; try done.
  - cbn [mbind outcome_mbind outcome_bind].
    by destruct (collapse_cycle m s loop).
  - intros _. by eapply detect_loop_none_acyclic.
Qed.

Lemma collapse_step_fuel_mono fuel fuel' (m : registry) s :
  (fuel ≤ fuel')%nat → collapse_step ord fuel m s ≠ OutOfFuel →
  collapse_step ord fuel' m s = collapse_step ord fuel m s.
Proof.
  intros Hle Hne. unfold collapse_step in *.
  rewrite (detect_loop_fuel_mono ord fuel fuel'); [done|done|].
  intros E. by rewrite E in Hne.
Qed.

(** With the invariants and enough fuel an iteration completes. *)
Lemma collapse_step_done fuel (m : registry) s :
  no_self_loops m → no_dangling m → is_Some (m !! s) → (size m < fuel)%nat →
  ∃ r, collapse_step ord fuel m s = Done r.
Proof.
  intros Hself Hdang Hs Hfuel. unfold collapse_step.
  destruct (_detect_loop ord fuel m s []) as [[[loop|] v]|e|] eqn:Hd.
  - cbn [mbind outcome_mbind outcome_bind].
    assert (is_cycle m loop) as Hcyc.
    { eapply (detect_loop_is_cycle ord fuel m s []); [apply NoDup_nil_2| | |done].
      - by intros y ?%elem_of_nil.
      - intros [|i] a b; simpl; [|by rewrite lookup_nil]. done. }
    destruct loop as [|x [|y loop]].
    + by apply is_cycle_nonempty in Hcyc.
    + apply is_cycle_singleton in Hcyc as (M & HM & Hx). by apply Hself in HM.
    + rewrite collapse_cycle_spec; [by eexists|apply join_not_member|apply Hcyc..|].
      by apply is_cycle_closes.
  - by eexists.
  - by apply detect_loop_no_raise in Hd.
  - apply detect_loop_fuel_enough in Hd; [done|apply NoDup_nil_2| |simpl; lia].
    by intros y ?%elem_of_nil.
Qed.

Lemma collapse_step_missing_root fuel (m : registry) s :
  m !! s = None → collapse_step ord (S fuel) m s = Raise (VisitedError [s]).
Proof. intros Hs. unfold collapse_step. by rewrite detect_loop_missing_root. Qed.

Lemma collapse_iter_fuel_mono fuel fuel' n (m : registry) s r :
  (fuel ≤ fuel')%nat → collapse_iter ord fuel n m s = Some r →
  collapse_iter ord fuel' n m s = Some r.
Proof.
  intros Hle. revert m s. induction n as [|n IH]; intros m s; simpl; [done|].
  destruct (collapse_step ord fuel m s) as [[[m1 s1]|]| |] eqn:E; try done.
  rewrite (collapse_step_fuel_mono fuel fuel'), E by (done || by rewrite E).
  apply IH.
Qed.

Lemma collapse_iter_S fuel n (m : registry) s :
  collapse_iter ord fuel (S n) m s
  = match collapse_iter ord fuel n m s with
    | Some (m1, s1) =>
        match collapse_step ord fuel m1 s1 with
        | Done (Some st) => Some st
        | _ => None
        end
    | None => None
    end.
Proof.
  revert m s. induction n as [|n IH]; intros m s.
  - simpl. by destruct (collapse_step ord fuel m s) as [[[??]|]| |].
  - change (collapse_iter ord fuel (S n) m s) with
      (match collapse_step ord fuel m s with
       | Done (Some (m1, s1)) => collapse_iter ord fuel n m1 s1
       | _ => None
       end).
    change (collapse_iter ord fuel (S (S n)) m s) with
      (match collapse_step ord fuel m s with
       | Done (Some (m1, s1)) => collapse_iter ord fuel (S n) m1 s1
       | _ => None
       end).
    destruct (collapse_step ord fuel m s) as [[[m1 s1]|]| |]; done.
Qed.

(** Every completed iteration leaves fewer modules. *)
Lemma collapse_iter_decreases fuel i (m : registry) s m1 s1 m2 s2 :
  collapse_iter ord fuel i m s = Some (m1, s1) →
  collapse_iter ord fuel (S i) m s = Some (m2, s2) →
  (size m2 < size m1)%nat.
Proof.
  intros H1. rewrite collapse_iter_S, H1.
  destruct (collapse_step ord fuel m1 s1) as [[[m' s']|]| |] eqn:E; try done.
  intros [= -> ->]. apply collapse_step_some in E as (loop & Hcyc & Hlen & -> & _).
  by apply collapsed_size.
Qed.

Lemma missing_root_acyclic (m : registry) s : m !! s = None → acyclic_from m s.
Proof.
  intros Hs x Hx Hcyc.
  assert (x = s) as ->.
  { destruct Hx as [|x y z (M & HM & _) _]; [done|]. congruence. }
  assert (∃ z, edge m s z) as (z & M & HM & _); [|congruence].
  inversion Hcyc; subst; eauto.
Qed.

Lemma collapse_loop_run fuel (m : registry) s :
  no_self_loops m → no_dangling m → is_Some (m !! s) → (size m < fuel)%nat →
  ∃ n m' s',
    collapse_iter ord fuel n m s = Some (m', s') ∧
    acyclic_from m' s' ∧
    collapse_loop ord fuel m s = Done (m', s').
Proof.
  revert m s. induction fuel as [|fuel IH]; intros m s Hself Hdang Hs Hfuel; [lia|].
  destruct (collapse_step_done (S fuel) m s) as [[[m1 s1]|] Hr]; try done.
  - pose proof Hr as Hstep.
    apply collapse_step_some in Hr as (loop & Hcyc & Hlen & -> & ->).
    pose proof (collapsed_size m loop Hcyc Hlen) as Hsz.
    destruct (IH (collapsed m loop) (redirect loop (join newline loop) s))
      as (n & m' & s' & Hiter & Hacyc & Hloop).
    { by apply collapsed_no_self_loops. }
    { by apply collapsed_no_dangling. }
    { by apply collapsed_root. }
    { lia. }
    exists (S n), m', s'. split; [|split; [done|]].
    + cbn [collapse_iter]. rewrite Hstep.
      eapply collapse_iter_fuel_mono; [|done]. lia.
    + cbn [collapse_loop]. rewrite Hstep. done.
  - exists 0%nat, m, s. split; [done|]. split; [by eapply collapse_step_none|].
    cbn [collapse_loop]. by rewrite Hr.
Qed.

(** C1: from a registry without self-loops and without dangling edges,
    the collapse loop started with more fuel than there are modules stops
    after some number [n] of iterations; every completed iteration leaves
    strictly fewer modules, so [n] is at most the number of modules lost;
    and in the registry it stops with no cycle of dependency edges can be
    reached from the (possibly renamed) root.  The loop ends normally when
    the root names a module, and with the search's exception, before any
    change, when it does not. *)
Theorem collapse_loop_terminates_acyclic (m : registry) (s : string) (fuel : nat) :
  no_self_loops m → no_dangling m → (size m < fuel)%nat →
  ∃ n m' s',
    collapse_iter ord fuel n m s = Some (m', s') ∧
    (∀ i m1 s1 m2 s2,
       collapse_iter ord fuel i m s = Some (m1, s1) →
       collapse_iter ord fuel (S i) m s = Some (m2, s2) →
       (size m2 < size m1)%nat) ∧
    (n + size m' ≤ size m)%nat ∧
    acyclic_from m' s' ∧
    collapse_loop ord fuel m s
    = if decide (is_Some (m !! s)) then Done (m', s')
      else Raise (VisitedError [s]).
Proof.
  intros Hself Hdang Hfuel. destruct (decide (is_Some (m !! s))) as [Hs|Hs].
  - destruct (collapse_loop_run fuel m s) as (n & m' & s' & Hiter & Hacyc & Hloop);
      try done.
    exists n, m', s'. split; [done|]. split; [intros i m1 s1 m2 s2; apply collapse_iter_decreases|].
    split; [|done].
    clear Hloop Hacyc Hs Hself Hdang Hfuel. revert m s Hiter.
    induction n as [|n IH]; intros m s; simpl; [intros [= -> ->]; lia|].
    destruct (collapse_step ord fuel m s) as [[[m1 s1]|]| |] eqn:E; try done.
    intros Hiter%IH.
    apply collapse_step_some in E as (loop & Hcyc & Hlen & -> & _).
    pose proof (collapsed_size m loop Hcyc Hlen). lia.
  - assert (m !! s = None) as Hnone by by apply eq_None_not_Some.
    exists 0%nat, m, s. split; [done|]. split; [intros i m1 s1 m2 s2; apply collapse_iter_decreases|].
    split; [lia|]. split; [by apply missing_root_acyclic|].
    destruct fuel as [|fuel]; [lia|]. cbn [collapse_loop].
    by rewrite collapse_step_missing_root.
Qed.
End Collapse.

Lemma collapse_loop_terminates_acyclic_witness :
  ∃ n m' s',
      collapse_iter elements_order 3 n two_cycle "A" = Some (m', s') ∧
      (∀ i m1 s1 m2 s2,
         collapse_iter elements_order 3 i two_cycle "A" = Some (m1, s1) →
         collapse_iter elements_order 3 (S i) two_cycle "A" = Some (m2, s2) →
         (size m2 < size m1)%nat) ∧
      (n + size m' ≤ size two_cycle)%nat ∧
      acyclic_from m' s' ∧
      collapse_loop elements_order 3 two_cycle "A"
      = if decide (is_Some (two_cycle !! "A")) then Done (m', s')
        else Raise (VisitedError ["A"]).
Proof.
  apply (collapse_loop_terminates_acyclic elements_order two_cycle "A" 3).
  - apply (bool_decide_unpack _). by vm_compute.
  - apply (bool_decide_unpack _). by vm_compute.
  - vm_compute. lia.
Defined.

(** ** The two-module cycle *)

Section TwoCycle.
Variable ord : IterOrder.

(** C5: for a registry of exactly two modules [A] and [B] that depend on
    each other, with root [A], one iteration of the collapse loop leaves
    exactly one module: the composite named after the members [A; B],
    with the union of their packages and no dependencies; the root
    becomes the composite's name. *)
Theorem two_cycle_collapse (A B : string) (pa pb : gset string)
    (oa ta ob tb : Z) (fuel : nat) :
  A ≠ B → (3 ≤ fuel)%nat →
  let AB := join newline [A; B] in
  collapse_step ord fuel
    (<[A := mkModule A pa {[B]} oa ta]> {[B := mkModule B pb {[A]} ob tb]}) A
  = Done (Some ({[AB := mkModule AB (pa ∪ pb) ∅ 0 0]}, AB)).
Proof.
  intros Hne Hfuel AB.
  set (m := <[A := mkModule A pa {[B]} oa ta]> {[B := mkModule B pb {[A]} ob tb]}).
  assert (m !! A = Some (mkModule A pa {[B]} oa ta)) as HmA
    by apply lookup_insert_eq.
  assert (m !! B = Some (mkModule B pb {[A]} ob tb)) as HmB.
  { unfold m. rewrite lookup_insert_ne by done. apply lookup_singleton_eq. }
  assert (∀ k, k ≠ A → k ≠ B → m !! k = None) as Hmk.
  { intros k ??. unfold m. rewrite lookup_insert_ne by done.
    by apply lookup_singleton_ne. }
  pose proof (join_not_member A B []) as Hnew. fold AB in Hnew.
  assert (AB ≠ A ∧ AB ≠ B) as [HA HB] by set_solver.
  destruct fuel as [|[|[|fuel]]]; try lia.
  unfold collapse_step. cbn [_detect_loop].
  rewrite bool_decide_eq_false_2 by set_solver.
  rewrite HmA. cbn [dependencies]. rewrite set_iter_singleton.
  cbn [search_deps app].
  rewrite bool_decide_eq_false_2 by set_solver.
  rewrite HmB. cbn [dependencies]. rewrite set_iter_singleton.
  cbn [search_deps app].
  rewrite bool_decide_eq_true_2 by set_solver.
  cbn [index]. rewrite bool_decide_eq_true_2 by done. cbn [drop].
  cbn [mbind outcome_mbind outcome_bind].
  rewrite collapse_cycle_spec.
  2:{ done. }
  2:{ apply NoDup_cons. split; [set_solver|apply NoDup_singleton]. }
  2:{ intros l [-> | ->%list_elem_of_singleton]%elem_of_cons; eauto. }
  2:{ exists A. split; [set_solver|]. apply elem_of_deps_of.
      exists B, (mkModule B pb {[A]} ob tb). set_solver. }
  cbn [mbind outcome_mbind outcome_bind]. fold AB. do 3 f_equal.
  - apply map_eq. intros k. destruct (decide (k = AB)) as [->|Hk].
    + unfold AB at 1. rewrite collapsed_lookup_new, lookup_singleton_eq. fold AB.
      f_equal. apply Module_eq; simpl; try done.
      * unfold pkgs_of. simpl. rewrite HmA, HmB. simpl. set_solver.
      * apply set_eq. intros d. rewrite elem_of_difference, elem_of_redirect_deps.
        unfold deps_of. simpl. rewrite HmA, HmB. simpl. set_solver.
    + rewrite collapsed_lookup_ne, lookup_singleton_ne by done.
      case_bool_decide as Hl; [done|]. rewrite Hmk; [done|set_solver..].
  - unfold redirect. rewrite bool_decide_eq_true_2; [done|set_solver].
Qed.
End TwoCycle.

Lemma two_cycle_collapse_witness :
  collapse_step elements_order 3 two_cycle "A"
  = Done (Some ({[join newline ["A"; "B"] :=
                   mkModule (join newline ["A"; "B"]) ({["A"]} ∪ {["B.x"]}) ∅ 0 0]},
                join newline ["A"; "B"])).
Proof.
  apply (two_cycle_collapse elements_order "A" "B" {["A"]} {["B.x"]} 0 0 0 0 3).
  - done.
  - lia.
Defined.

(** ** The pruning phase *)

Lemma prunes_refl (m : registry) : prunes m m.
Proof. intros k. by destruct (m !! k). Qed.

Lemma prunes_trans (m1 m2 m3 : registry) : prunes m1 m2 → prunes m2 m3 → prunes m1 m3.
Proof.
  intros H12 H23 k. specialize (H12 k). specialize (H23 k).
  destruct (m1 !! k), (m2 !! k), (m3 !! k); try done.
  destruct H12 as (? & ? & ? & ? & ?), H23 as (? & ? & ? & ? & ?).
  repeat split; try congruence. set_solver.
Qed.

Lemma prunes_lookup (m m' : registry) k M :
  prunes m m' → m !! k = Some M →
  ∃ M', m' !! k = Some M' ∧ name M' = name M ∧ packages M' = packages M ∧
        own_rss M' = own_rss M ∧ total_rss M' = total_rss M ∧
        dependencies M' ⊆ dependencies M.
Proof.
  intros H HM. specialize (H k). rewrite HM in H.
  destruct (m' !! k) as [M'|]; [|done]. eauto.
Qed.

Lemma prunes_lookup_inv (m m' : registry) k M' :
  prunes m m' → m' !! k = Some M' →
  ∃ M, m !! k = Some M ∧ name M' = name M ∧ packages M' = packages M ∧
       own_rss M' = own_rss M ∧ total_rss M' = total_rss M ∧
       dependencies M' ⊆ dependencies M.
Proof.
  intros H HM. specialize (H k). rewrite HM in H.
  destruct (m !! k) as [M|]; [|done]. eauto.
Qed.

Lemma prunes_is_Some (m m' : registry) k :
  prunes m m' → is_Some (m' !! k) ↔ is_Some (m !! k).
Proof.
  intros H. specialize (H k).
  destruct (m !! k), (m' !! k); try done; split; intros [? ?]; try done; eauto.
Qed.

Lemma prunes_edge (m m' : registry) a b : prunes m m' → edge m' a b → edge m a b.
Proof.
  intros H (M' & HM' & Hb). destruct (prunes_lookup_inv _ _ _ _ H HM')
    as (M & HM & _ & _ & _ & _ & Hsub). exists M. split; [done|]. set_solver.
Qed.

Lemma prunes_no_dangling (m m' : registry) : prunes m m' → no_dangling m → no_dangling m'.
Proof.
  intros H Hd k M' d HM' Hdep.
  destruct (prunes_lookup_inv _ _ _ _ H HM') as (M & HM & _ & _ & _ & _ & Hsub).
  apply (prunes_is_Some _ _ _ H). apply (Hd k M d HM). set_solver.
Qed.

Lemma prunes_no_self_loops (m m' : registry) :
  prunes m m' → no_self_loops m → no_self_loops m'.
Proof.
  intros H Hs k M' HM' Hk.
  destruct (prunes_lookup_inv _ _ _ _ H HM') as (M & HM & _ & _ & _ & _ & Hsub).
  apply (Hs k M HM). set_solver.
Qed.

Lemma prunes_keyed (m m' : registry) : prunes m m' → keyed m → keyed m'.
Proof.
  intros H Hk k M' HM'.
  destruct (prunes_lookup_inv _ _ _ _ H HM') as (M & HM & -> & _). eauto.
Qed.

(** Dropping the dependency [e] of the module stored at [x]. *)
Lemma prunes_drop_edge (m : registry) x M e :
  m !! x = Some M →
  prunes m (<[x := set_dependencies (dependencies M ∖ {[e]}) M]> m).
Proof.
  intros HM k. destruct (decide (k = x)) as [->|Hne].
  - rewrite HM, lookup_insert_eq. simpl. repeat split; try done. set_solver.
  - rewrite lookup_insert_ne by done. by destruct (m !! k).
Qed.

Lemma keeps_paths_refl (m : registry) : keeps_paths m m.
Proof. intros a b H. by apply rtc_once. Qed.

Lemma keeps_paths_rtc (m m' : registry) a b :
  keeps_paths m m' → rtc (edge m) a b → rtc (edge m') a b.
Proof.
  intros H. induction 1 as [|a c b Hac _ IH]; [done|].
  by etrans; [apply H|].
Qed.

Lemma keeps_paths_trans (m1 m2 m3 : registry) :
  keeps_paths m1 m2 → keeps_paths m2 m3 → keeps_paths m1 m3.
Proof. intros H12 H23 a b Hab. eapply keeps_paths_rtc; eauto. Qed.

(** The edge [x → e] may go when [x → c → e] stays. *)
Lemma keeps_paths_drop_edge (m : registry) x M e c D :
  m !! x = Some M → x ∉ dependencies M →
  c ∈ dependencies M → c ≠ e → m !! c = Some D → e ∈ dependencies D →
  keeps_paths m (<[x := set_dependencies (dependencies M ∖ {[e]}) M]> m).
Proof.
  intros HM Hself Hc Hce HD He a b (Ma & HMa & Hb).
  set (m' := <[x := set_dependencies (dependencies M ∖ {[e]}) M]> m).
  assert (c ≠ x) as Hcx by (intros ->; done).
  assert (edge m' x c) as Hxc.
  { eexists. split; [apply lookup_insert_eq|]. simpl. set_solver. }
  assert (edge m' c e) as Hcedge.
  { exists D. split; [|done]. unfold m'. by rewrite lookup_insert_ne. }
  destruct (decide (a = x)) as [->|Hax].
  - simplify_eq. destruct (decide (b = e)) as [->|Hbe].
    + eapply rtc_l; [done|]. by apply rtc_once.
    + apply rtc_once. eexists. split; [apply lookup_insert_eq|]. simpl. set_solver.
  - apply rtc_once. exists Ma. split; [|done]. unfold m'. by rewrite lookup_insert_ne.
Qed.

Lemma list_pop_snoc (q : list string) x : list_pop (q ++ [x]) = Some (x, q).
Proof. unfold list_pop. by rewrite last_snoc, removelast_last. Qed.

Lemma list_pop_nil : list_pop [] = None.
Proof. done. Qed.

(** Closes the cases in which a loop leaves the registry as it found it. *)
Ltac unchanged := split; [apply prunes_refl|intros; apply keeps_paths_refl].

Section Prune.
Variable ord : IterOrder.

Lemma can_remove_scan_true (m : registry) dependency deps :
  can_remove_scan m dependency deps = Done true →
  ∃ c D, c ∈ deps ∧ c ≠ dependency ∧ m !! c = Some D ∧ dependency ∈ dependencies D.
Proof.
  induction deps as [|c deps IH]; simpl; [done|].
  case_bool_decide as Hc.
  - intros (c' & D & ? & ?)%IH. exists c', D. set_solver.
  - unfold lookup_key. destruct (m !! c) as [D|] eqn:HD; [|done].
    cbn [mbind outcome_mbind outcome_bind]. case_bool_decide as He.
    + intros _. exists c, D. set_solver.
    + intros (c' & D' & ? & ?)%IH. exists c', D'. set_solver.
Qed.

Lemma can_remove_scan_done (m : registry) dependency deps :
  (∀ c, c ∈ deps → is_Some (m !! c)) →
  ∃ b, can_remove_scan m dependency deps = Done b.
Proof.
  induction deps as [|c deps IH]; intros Hin; simpl; [by eexists|].
  assert (∃ b, can_remove_scan m dependency deps = Done b) as Hrest.
  { apply IH. intros. apply Hin. by right. }
  case_bool_decide; [done|].
  destruct (Hin c (list_elem_of_here _ _)) as [D HD]. unfold lookup_key. rewrite HD.
  cbn [mbind outcome_mbind outcome_bind]. case_bool_decide; [by eexists|done].
Qed.

Lemma find_eliminate_some (m : registry) x deps e :
  find_eliminate ord m x deps = Done (Some e) →
  e ∈ deps ∧ _dependency_can_be_removed ord m x e = Done true.
Proof.
  induction deps as [|d deps IH]; simpl; [done|].
  destruct (_dependency_can_be_removed ord m x d) as [[|]| |] eqn:E; try done;
    cbn [mbind outcome_mbind outcome_bind].
  - intros [= <-]. split; [left|done].
  - intros [? ?]%IH. split; [by right|done].
Qed.

Lemma find_eliminate_done (m : registry) x M deps :
  no_dangling m → m !! x = Some M →
  ∃ r, find_eliminate ord m x deps = Done r.
Proof.
  intros Hdang HM. induction deps as [|d deps IH]; simpl; [by eexists|].
  unfold _dependency_can_be_removed, lookup_key. rewrite HM.
  cbn [mbind outcome_mbind outcome_bind].
  destruct (can_remove_scan_done m d (set_iter ord (dependencies M))) as [b ->].
  { intros c Hc%set_iter_elem_of. eauto. }
  cbn [mbind outcome_mbind outcome_bind]. destruct b; [by eexists|done].
Qed.

(** Whatever happens, the elimination loop only drops dependencies, and
    without self-loops it keeps every path. *)
Lemma eliminate_loop_prunes fuel (m : registry) x :
  prunes m (eliminate_loop ord fuel m x).1 ∧
  (no_self_loops m → keeps_paths m (eliminate_loop ord fuel m x).1).
Proof.
  revert m. induction fuel as [|fuel IH]; intros m; simpl.
  { unchanged. }
  unfold lookup_key. destruct (m !! x) as [M|] eqn:HM; simpl.
  2:{ unchanged. }
  destruct (find_eliminate ord m x (set_iter ord (dependencies M)))
    as [[e|]| |] eqn:Hf; simpl;
    try (unchanged).
  case_bool_decide as He; simpl;
    [|unchanged].
  pose proof (prunes_drop_edge m x M e HM) as Hp.
  destruct (IH (<[x := set_dependencies (dependencies M ∖ {[e]}) M]> m)) as [IH1 IH2].
  split; [by eapply prunes_trans|]. intros Hself.
  eapply keeps_paths_trans; [|apply IH2; by eapply prunes_no_self_loops].
  apply find_eliminate_some in Hf as [_ Hrem].
  unfold _dependency_can_be_removed, lookup_key in Hrem. rewrite HM in Hrem.
  cbn [mbind outcome_mbind outcome_bind] in Hrem.
  apply can_remove_scan_true in Hrem as (c & D & Hc%set_iter_elem_of & Hce & HD & HeD).
  by apply (keeps_paths_drop_edge m x M e c D); [|apply (Hself x M)|..].
Qed.

Lemma prune_loop_prunes fuel (m : registry) queue :
  prunes m (prune_loop ord fuel m queue).1 ∧
  (no_self_loops m → keeps_paths m (prune_loop ord fuel m queue).1).
Proof.
  revert m queue. induction fuel as [|fuel IH]; intros m queue.
  { unchanged. }
  cbn [prune_loop]. destruct (list_pop queue) as [[x queue']|].
  2:{ unchanged. }
  destruct (eliminate_loop_prunes (S fuel) m x) as [H1 H2].
  destruct (eliminate_loop ord (S fuel) m x) as [m1 r]. simpl in H1, H2.
  destruct r as [[]|e|]; simpl; try done.
  unfold lookup_key. destruct (m1 !! x) as [M1|]; simpl; [|done].
  destruct (IH m1 (queue' ++ set_iter ord (dependencies M1))) as [H3 H4].
  split; [by eapply prunes_trans|]. intros Hself.
  eapply keeps_paths_trans; [by apply H2|]. apply H4.
  by eapply prunes_no_self_loops.
Qed.

Lemma eliminate_loop_done fuel (m : registry) x M :
  no_dangling m → m !! x = Some M → (size (dependencies M) < fuel)%nat →
  (eliminate_loop ord fuel m x).2 = Done ().
Proof.
  revert m M. induction fuel as [|fuel IH]; intros m M Hdang HM Hsz; [lia|].
  simpl. unfold lookup_key. rewrite HM.
  destruct (find_eliminate_done m x M (set_iter ord (dependencies M)) Hdang HM)
    as [[e|] Hf]; rewrite Hf; [|done].
  apply find_eliminate_some in Hf as [He%set_iter_elem_of _].
  rewrite bool_decide_eq_true_2 by done.
  eapply IH.
  - eapply prunes_no_dangling; [|done]. by apply prunes_drop_edge.
  - apply lookup_insert_eq.
  - simpl. assert (size (dependencies M ∖ {[e]}) < size (dependencies M))%nat; [|lia].
    apply subset_size. set_solver.
Qed.

(** Processing the queue entry [x] and everything it enqueues, below a
    node from which the dependency edges are well founded. *)
Lemma prune_loop_node (m0 : registry) (B : nat) :
  no_dangling m0 →
  (∀ k M, m0 !! k = Some M → (size (dependencies M) < B)%nat) →
  ∀ x, sn (edge m0) x →
  ∀ (m : registry) queue, prunes m0 m → is_Some (m !! x) →
  ∃ n (m' : registry), prunes m m' ∧
    ∀ fuel, (B ≤ fuel)%nat →
      prune_loop ord (n + fuel) m (queue ++ [x]) = prune_loop ord fuel m' queue.
Proof.
  intros Hdang HB x Hsn. induction Hsn as [x _ IH].
  intros m queue Hp [M HM].
  destruct (eliminate_loop_prunes (S B) m x) as [Hp1 _].
  assert (no_dangling m) as Hdm by by eapply prunes_no_dangling.
  destruct (prunes_lookup_inv _ _ _ _ Hp HM) as (M0 & HM0 & _ & _ & _ & _ & Hsub0).
  assert (size (dependencies M) < B)%nat as HszM.
  { pose proof (HB x M0 HM0). pose proof (subseteq_size _ _ Hsub0). lia. }
  assert (∀ fuel, (B ≤ fuel)%nat → ∃ m1 : registry,
    eliminate_loop ord (S fuel) m x = (m1, Done ()) ∧ prunes m m1) as Helim.
  { intros fuel Hfuel.
    pose proof (eliminate_loop_done (S fuel) m x M Hdm HM ltac:(lia)) as Hdone.
    destruct (eliminate_loop_prunes (S fuel) m x) as [Hpr _].
    destruct (eliminate_loop ord (S fuel) m x) as [m1 r]. simpl in *. subst.
    by exists m1. }
  (* the registry after the elimination does not depend on the fuel *)
  destruct (Helim B ltac:(lia)) as (m1 & Hm1 & Hpm1).
  assert (∀ fuel, (B ≤ fuel)%nat →
    eliminate_loop ord (S fuel) m x = (m1, Done ())) as Helim'.
  { intros fuel Hfuel. revert Hm1. clear -Hfuel.
    assert (∀ f f' (m2 : registry) r, (f ≤ f')%nat →
      eliminate_loop ord f m2 x = (r, Done ()) →
      eliminate_loop ord f' m2 x = (r, Done ())) as Hmono.
    { induction f as [|f IHf]; intros f' m2 r Hle; [done|].
      destruct f' as [|f']; [lia|]. simpl.
      destruct (lookup_key m2 x) as [M2| |]; try done.
      destruct (find_eliminate ord m2 x (set_iter ord (dependencies M2)))
        as [[e|]| |]; try done.
      case_bool_decide; [|done]. apply IHf. lia. }
    apply Hmono. lia. }
  destruct (prunes_lookup _ _ _ _ Hpm1 HM) as (M1 & HM1 & _ & _ & _ & _ & Hsub1).
  assert (prunes m0 m1) as Hp01 by by eapply prunes_trans.
  assert (∀ l, (∀ d, d ∈ l → d ∈ dependencies M1) →
    ∀ (m2 : registry) queue, prunes m0 m2 →
    ∃ n (m' : registry), prunes m2 m' ∧
      ∀ fuel, (B ≤ fuel)%nat →
        prune_loop ord (n + fuel) m2 (queue ++ l) = prune_loop ord fuel m' queue)
    as Hlist.
  { induction l as [|d l IHl] using rev_ind; intros Hl m2 q Hp2.
    - exists 0%nat, m2. split; [apply prunes_refl|]. intros. by rewrite app_nil_r.
    - assert (d ∈ dependencies M0) as Hd0 by set_solver.
      destruct (IH d) with (m := m2) (queue := q ++ l)
        as (n1 & m3 & Hp3 & Hrun1); [by exists M0|done|..].
      { apply (prunes_is_Some _ _ _ Hp2). eauto. }
      destruct (IHl) with (m2 := m3) (queue := q)
        as (n2 & m4 & Hp4 & Hrun2); [set_solver|by eapply prunes_trans|].
      exists (n1 + n2)%nat, m4. split; [by eapply prunes_trans|].
      intros fuel Hfuel. rewrite (assoc_L (++)).
      replace (n1 + n2 + fuel)%nat with (n1 + (n2 + fuel))%nat by lia.
      rewrite Hrun1 by lia. by apply Hrun2. }
  destruct (Hlist (set_iter ord (dependencies M1))) with (m2 := m1) (queue := queue)
    as (n & m' & Hp' & Hrun); [by intros d ?%set_iter_elem_of|done|].
  exists (S n), m'. split; [by eapply prunes_trans|].
  intros fuel Hfuel. cbn [Nat.add prune_loop]. rewrite list_pop_snoc.
  rewrite Helim' by lia. unfold lookup_key. rewrite HM1. by apply Hrun.
Qed.

Lemma tc_last_edge (m : registry) x y :
  tc (edge m) x y → ∃ z, edge m z y.
Proof. induction 1; eauto. Qed.

Lemma acyclic_sn (m : registry) x : acyclic m → no_dangling m → sn (edge m) x.
Proof.
  intros Hacyc Hdang. apply tc_finite_sn; [intros y; apply Hacyc|].
  exists (elements (dom m)). intros y Hy. apply elem_of_elements, elem_of_dom.
  apply tc_last_edge in Hy as (z & M & HM & Hz). eauto.
Qed.

Lemma acyclic_no_self_loops (m : registry) : acyclic m → no_self_loops m.
Proof. intros Hacyc k M HM Hk. apply (Hacyc k). apply tc_once. by exists M. Qed.

Lemma deps_size_bound (m : registry) k M :
  no_dangling m → m !! k = Some M → (size (dependencies M) < S (size m))%nat.
Proof.
  intros Hdang HM. rewrite <-(size_dom (D := gset string) m).
  assert (dependencies M ⊆ dom m) as Hsub.
  { intros d Hd. apply elem_of_dom. eauto. }
  pose proof (subseteq_size _ _ Hsub). lia.
Qed.

(** C2: for an acyclic registry without dangling edges, at every point
    of the pruning phase a module name is reachable from the root exactly
    when it was reachable before pruning; and with enough fuel the phase
    ends, normally when the root names a module and with [KeyError]
    before any change when it does not. *)
Theorem prune_preserves_reachability (m : registry) (s : string) :
  acyclic m → no_dangling m →
  (∀ fuel x, reachable m s x ↔ reachable (prune ord fuel m s).1 s x) ∧
  ∃ n, ∀ fuel, (n ≤ fuel)%nat →
    (prune ord fuel m s).2
    = if decide (is_Some (m !! s)) then Done () else Raise (KeyError s).
Proof.
  intros Hacyc Hdang. split.
  - intros fuel x. unfold prune.
    destruct (prune_loop_prunes fuel m [s]) as [Hp Hk]. split.
    + apply keeps_paths_rtc. apply Hk. by apply acyclic_no_self_loops.
    + apply rtc_subrel. intros a b. by apply prunes_edge.
  - destruct (decide (is_Some (m !! s))) as [Hs|Hs].
    + destruct (prune_loop_node m (S (size m)) Hdang) with (x := s) (m := m)
        (queue := @nil string) as (n & m' & _ & Hrun);
        [intros; by eapply deps_size_bound|by apply acyclic_sn|apply prunes_refl|done|].
      exists (n + S (size m))%nat. intros fuel Hfuel. unfold prune.
      replace fuel with (n + (fuel - n))%nat by lia.
      change [s] with ([] ++ [s]). rewrite Hrun by lia.
      destruct (fuel - n)%nat eqn:E; [lia|]. done.
    + exists 1%nat. intros [|fuel] Hfuel; [lia|]. unfold prune.
      cbn [prune_loop]. change [s] with ([] ++ [s]). rewrite list_pop_snoc.
      cbn [eliminate_loop]. unfold lookup_key.
      apply eq_None_not_Some in Hs. by rewrite Hs.
Qed.

(** C10: at every point of the pruning phase the registry has exactly
    the modules it had before, each with the same name, packages, own_rss
    and total_rss, and with a subset of its former dependencies. *)
Theorem prune_only_shrinks_dependencies (m : registry) (s : string) (fuel : nat) :
  let m' := (prune ord fuel m s).1 in
  (∀ k, is_Some (m' !! k) ↔ is_Some (m !! k)) ∧
  ∀ k M M', m !! k = Some M → m' !! k = Some M' →
    name M' = name M ∧ packages M' = packages M ∧
    own_rss M' = own_rss M ∧ total_rss M' = total_rss M ∧
    dependencies M' ⊆ dependencies M.
Proof.
  intros m'. destruct (prune_loop_prunes fuel m [s]) as [Hp _].
  fold (prune ord fuel m s) in Hp. fold m' in Hp. split.
  - intros k. by apply prunes_is_Some.
  - intros k M M' HM HM'.
    destruct (prunes_lookup _ _ _ _ Hp HM) as (M'' & ? & ?). by simplify_eq.
Qed.
End Prune.

(** ** The graph builder *)

Lemma list_pop_ok : pop_ok list_pop.
Proof.
  intros q. unfold list_pop. destruct (last q) as [x|] eqn:E.
  - apply last_Some in E as [q' ->]. rewrite removelast_last.
    by rewrite Permutation_app_comm.
  - by apply last_None.
Qed.

Lemma list_pop_first_ok : pop_ok list_pop_first.
Proof. intros [|x q]; simpl; reflexivity. Qed.

Section BuilderProofs.
Variable _get_imports : string → list string.
Variable root_pkg : string.

Lemma foldl_record_import (mod_ : Module) queue l :
  ∃ mod', foldl record_import (mod_, queue) l = (mod', queue ++ l) ∧
    name mod' = name mod_ ∧ packages mod' = packages mod_ ∧
    own_rss mod' = own_rss mod_ ∧ total_rss mod' = total_rss mod_ ∧
    ∀ d, d ∈ dependencies mod' ↔
         d ∈ dependencies mod_ ∨ (d ≠ name mod_ ∧ ∃ i, i ∈ l ∧ _module_name i = d).
Proof.
  revert mod_ queue. induction l as [|i l IH]; intros mod_ queue.
  - exists mod_. rewrite app_nil_r. split_and!; try done. intros d. split; [by left|].
    intros [?|(_ & i & ?%elem_of_nil & _)]; done.
  - cbn [foldl]. unfold record_import at 2. case_bool_decide as Hi.
    + destruct (IH mod_ (queue ++ [i])) as (mod' & -> & ? & ? & ? & ? & Hd).
      exists mod'. rewrite <-(assoc_L (++)). split_and!; try done.
      intros d. rewrite Hd. split.
      * intros [?|(? & j & ? & ?)]; [by left|right]. split; [done|].
        exists j. split; [by right|done].
      * intros [?|(? & j & [->|?]%elem_of_cons & ?)]; [by left|congruence|].
        right. eauto.
    + destruct (IH (set_dependencies ({[_module_name i]} ∪ dependencies mod_) mod_)
                  (queue ++ [i])) as (mod' & -> & ? & ? & ? & ? & Hd).
      exists mod'. rewrite <-(assoc_L (++)). split_and!; try done.
      intros d. rewrite Hd. simpl. split.
      * intros [[->%elem_of_singleton|?]%elem_of_union|(? & j & ? & ?)].
        -- right. split; [done|]. exists i. split; [by left|done].
        -- by left.
        -- right. split; [done|]. exists j. split; [by right|done].
      * intros [?|(? & j & [->|?]%elem_of_cons & ?)].
        -- left. set_solver.
        -- left. set_solver.
        -- right. eauto.
Qed.

(** What one iteration of the work loop does with the popped path. *)
Lemma visit_pkg_spec (m : registry) queue pkg :
  (∀ M, m !! _module_name pkg = Some M → name M = _module_name pkg) →
  let k := _module_name pkg in
  (processed m pkg ∧ visit_pkg _get_imports m queue pkg = (m, queue))
  ∨ (¬ processed m pkg ∧ ∃ mod',
       visit_pkg _get_imports m queue pkg
       = (<[k := mod']> m, queue ++ _get_imports pkg) ∧
       name mod' = k ∧
       packages mod' = {[pkg]} ∪ from_option packages ∅ (m !! k) ∧
       own_rss mod' = from_option own_rss 0 (m !! k) ∧
       total_rss mod' = from_option total_rss 0 (m !! k) ∧
       ∀ d, d ∈ dependencies mod' ↔
            d ∈ from_option dependencies ∅ (m !! k)
            ∨ (d ≠ k ∧ ∃ i, i ∈ _get_imports pkg ∧ _module_name i = d)).
Proof.
  intros Hname k. unfold visit_pkg, processed. fold k.
  destruct (m !! k) as [M|] eqn:HM.
  - case_bool_decide as Hp.
    + left. split; [|done]. by exists M.
    + right. split; [intros (M' & ? & ?); by simplify_eq|].
      destruct (foldl_record_import (set_packages ({[pkg]} ∪ packages M) M)
                  queue (_get_imports pkg)) as (mod' & -> & Hn & ? & ? & ? & Hd).
      exists mod'. simpl in *. rewrite (Hname M) in Hd by done.
      split_and!; try done. by rewrite Hn, Hname.
  - right. split; [intros (M' & ? & ?); by simplify_eq|].
    rewrite bool_decide_eq_false_2 by set_solver.
    destruct (foldl_record_import
                (set_packages ({[pkg]} ∪ packages (Module_init k)) (Module_init k))
                queue (_get_imports pkg)) as (mod' & -> & Hn & ? & ? & ? & Hd).
    exists mod'. simpl in *. rewrite insert_insert_eq. split_and!; try done.
Qed.

Lemma build_inv_init : build_inv _get_imports root_pkg ∅ [root_pkg].
Proof.
  constructor.
  - intros k M H. by rewrite lookup_empty in H.
  - intros k M p H. by rewrite lookup_empty in H.
  - intros k M d H. by rewrite lookup_empty in H.
  - intros q ->%list_elem_of_singleton. apply rtc_refl.
  - left. by apply list_elem_of_singleton.
Qed.

Lemma processed_insert (m : registry) k M' p :
  (∀ M, m !! k = Some M → packages M ⊆ packages M') →
  processed m p → processed (<[k := M']> m) p.
Proof.
  intros Hsub (M & HM & Hp). unfold processed.
  destruct (decide (k = _module_name p)) as [->|Hne].
  - exists M'. rewrite lookup_insert_eq. split; [done|]. by apply (Hsub M).
  - exists M. by rewrite lookup_insert_ne.
Qed.

(** The invariant survives one iteration of the work loop. *)
Lemma build_inv_step (m : registry) queue pkg queue' m' q' :
  build_inv _get_imports root_pkg m queue → queue ≡ₚ pkg :: queue' →
  visit_pkg _get_imports m queue' pkg = (m', q') →
  build_inv _get_imports root_pkg m' q'.
Proof.
  intros [Hmod Hpkg Hdep Hq Hroot] Hperm Hvisit.
  assert (∀ x, x ∈ queue ↔ x = pkg ∨ x ∈ queue') as Hin.
  { intros x. by rewrite Hperm, elem_of_cons. }
  assert (traced _get_imports root_pkg pkg) as Htr by (apply Hq, Hin; by left).
  destruct (visit_pkg_spec m queue' pkg) as [[Hproc E]|[Hnproc (mod' & E & Hn & Hp & Ho & Ht & Hd)]].
  { intros M HM. by apply Hmod in HM as [? _]. }
  - rewrite E in Hvisit. simplify_eq. constructor; try done.
    + intros k M p HM Hp. destruct (Hpkg k M p HM Hp) as (? & ? & Hi).
      split_and!; try done. intros i Hi'. destruct (Hi i Hi') as [[Hiq|?] ?].
      * split; [|done]. apply Hin in Hiq as [->|?]; [by right|by left].
      * by split; [right|].
    + intros q Hq'. apply Hq, Hin. by right.
    + destruct Hroot as [[->|?]%Hin|?]; [by right|by left|by right].
  - rewrite E in Hvisit. simplify_eq.
    set (k := _module_name pkg) in *.
    assert (processed (<[k := mod']> m) pkg) as Hnow.
    { exists mod'. rewrite lookup_insert_eq. split; [done|]. rewrite Hp. set_solver. }
    assert (∀ p, processed m p → processed (<[k := mod']> m) p) as Hmono.
    { intros p. apply processed_insert. intros M HM. rewrite Hp, HM. simpl. set_solver. }
    assert (∀ i, i ∈ queue ∨ processed m i →
              i ∈ queue' ++ _get_imports pkg ∨ processed (<[k:=mod']> m) i) as Hmove.
    { intros i [[->|?]%Hin|?]; [by right|left; set_solver|right; auto]. }
    constructor.
    + intros k' M. destruct (decide (k' = k)) as [->|Hne].
      * rewrite lookup_insert_eq. intros [= <-]. split_and!; try done.
        -- rewrite Ho. destruct (m !! k) as [M|] eqn:HM; [|done].
           by apply Hmod in HM as (_ & ? & _).
        -- rewrite Ht. destruct (m !! k) as [M|] eqn:HM; [|done].
           by apply Hmod in HM as (_ & _ & ? & _).
        -- exists pkg. rewrite Hp. set_solver.
      * rewrite lookup_insert_ne by done. apply Hmod.
    + intros k' M p. destruct (decide (k' = k)) as [->|Hne].
      * rewrite lookup_insert_eq. intros [= <-]. rewrite Hp.
        intros [->%elem_of_singleton|Hold]%elem_of_union.
        -- split_and!; try done. intros i Hi. split; [left; set_solver|].
           intros Hik. apply Hd. right. eauto.
        -- destruct (m !! k) as [M|] eqn:HM; [|set_solver]. simpl in Hold.
           destruct (Hpkg k M p HM Hold) as (? & ? & Hi).
           split_and!; try done. intros i Hi'. destruct (Hi i Hi') as [? Hdi].
           split; [by apply Hmove|]. intros Hik. apply Hd. left. simpl. auto.
      * rewrite lookup_insert_ne by done. intros HM Hp'.
        destruct (Hpkg k' M p HM Hp') as (? & ? & Hi).
        split_and!; try done. intros i Hi'. destruct (Hi i Hi') as [? Hdi].
        split; [by apply Hmove|done].
    + intros k' M d. destruct (decide (k' = k)) as [->|Hne].
      * rewrite lookup_insert_eq. intros [= <-].
        intros [Hold|(Hdk & i & Hi & <-)]%Hd.
        -- destruct (m !! k) as [M|] eqn:HM; [|set_solver]. simpl in Hold.
           destruct (Hdep k M d HM Hold) as (? & p & i & ? & ? & ?).
           split; [done|]. exists p, i. rewrite Hp. set_solver.
        -- split; [done|]. exists pkg, i. rewrite Hp. set_solver.
      * rewrite lookup_insert_ne by done. apply Hdep.
    + intros q [Hq'|Hq']%elem_of_app; [apply Hq, Hin; by right|].
      eapply rtc_r; [apply Htr|done].
    + by apply Hmove.
Qed.

Lemma build_loop_inv pop fuel (m : registry) queue m' :
  pop_ok pop → build_inv _get_imports root_pkg m queue →
  build_loop _get_imports pop fuel m queue = Some m' →
  build_inv _get_imports root_pkg m' [].
Proof.
  intros Hpop. revert m queue. induction fuel as [|fuel IH]; intros m queue Hinv; [done|].
  simpl. specialize (Hpop queue). destruct (pop queue) as [[pkg queue']|].
  - destruct (visit_pkg _get_imports m queue' pkg) as [m1 q1] eqn:E.
    apply IH. by eapply build_inv_step.
  - intros [= <-]. by subst.
Qed.

(** When the queue is empty, the recorded packages are exactly the
    traced import paths. *)
Lemma build_inv_processed (m : registry) p :
  build_inv _get_imports root_pkg m [] →
  processed m p ↔ traced _get_imports root_pkg p.
Proof.
  intros [Hmod Hpkg Hdep Hq Hroot]. split.
  - intros (M & HM & Hp). by apply (Hpkg _ _ _ HM Hp).
  - revert p. apply rtc_ind_r.
    + destruct Hroot as [?%elem_of_nil|?]; done.
    + intros p i _ Hi (M & HM & Hp).
      destruct (Hpkg _ _ _ HM Hp) as (_ & _ & Himp).
      destruct (Himp i Hi) as [[?%elem_of_nil|?] _]; done.
Qed.

Lemma build_inv_final (m : registry) :
  build_inv _get_imports root_pkg m [] →
  keyed m ∧ no_self_loops m ∧ no_dangling m.
Proof.
  intros Hinv. pose proof Hinv as [Hmod Hpkg Hdep Hq Hroot]. split_and!.
  - intros k M HM. by apply Hmod in HM as [? _].
  - intros k M HM Hk. by destruct (Hdep k M k HM Hk).
  - intros k M d HM Hd. destruct (Hdep k M d HM Hd) as (_ & p & i & Hp & Hi & <-).
    destruct (Hpkg _ _ _ HM Hp) as (_ & _ & Himp).
    destruct (Himp i Hi) as [[?%elem_of_nil|(M' & ? & _)] _]; [done|eauto].
Qed.

(** Two registries that satisfy the invariant with an empty queue are
    the same registry. *)
Lemma build_inv_unique (m1 m2 : registry) :
  build_inv _get_imports root_pkg m1 [] → build_inv _get_imports root_pkg m2 [] →
  m1 = m2.
Proof.
  intros H1 H2.
  assert (∀ ma mb : registry,
    build_inv _get_imports root_pkg ma [] → build_inv _get_imports root_pkg mb [] →
    ∀ k Ma, ma !! k = Some Ma → ∃ Mb, mb !! k = Some Mb ∧
      packages Ma ⊆ packages Mb ∧ dependencies Ma ⊆ dependencies Mb) as Hle.
  { intros ma mb Ha Hb k Ma HMa.
    pose proof Ha as [Hmoda Hpkga Hdepa _ _]. pose proof Hb as [Hmodb Hpkgb Hdepb _ _].
    assert (∀ p, p ∈ packages Ma → ∃ Mb, mb !! k = Some Mb ∧ p ∈ packages Mb) as Hpk.
    { intros p Hp. destruct (Hpkga _ _ _ HMa Hp) as (Hk & Htr & _).
      apply (build_inv_processed mb p Hb) in Htr as (Mb & HMb & ?).
      exists Mb. by rewrite <-Hk. }
    destruct (Hmoda k Ma HMa) as (_ & _ & _ & p0 & Hp0).
    destruct (Hpk p0 Hp0) as (Mb & HMb & _). exists Mb. split; [done|]. split.
    - intros p Hp. destruct (Hpk p Hp) as (Mb' & ? & ?). by simplify_eq.
    - intros d Hd. destruct (Hdepa k Ma d HMa Hd) as (Hdk & p & i & Hp & Hi & <-).
      destruct (Hpk p Hp) as (Mb' & ? & Hpb). simplify_eq.
      by apply (Hpkgb _ _ _ HMb Hpb). }
  apply map_eq. intros k.
  destruct (m1 !! k) as [M1|] eqn:E1, (m2 !! k) as [M2|] eqn:E2.
  - destruct (Hle m1 m2 H1 H2 k M1 E1) as (M2' & ? & ? & ?).
    destruct (Hle m2 m1 H2 H1 k M2 E2) as (M1' & ? & ? & ?). simplify_eq.
    destruct (inv_module _ _ _ _ H1 k M1 E1) as (? & ? & ? & _).
    destruct (inv_module _ _ _ _ H2 k M2 E2) as (? & ? & ? & _).
    f_equal. apply Module_eq; try congruence; set_solver.
  - destruct (Hle m1 m2 H1 H2 k M1 E1) as (M2' & ? & _). congruence.
  - destruct (Hle m2 m1 H2 H1 k M2 E2) as (M1' & ? & _). congruence.
  - done.
Qed.
(** *** Termination of the work loop *)

Lemma elem_of_all_packages (m : registry) p :
  p ∈ all_packages m ↔ ∃ k M, m !! k = Some M ∧ p ∈ packages M.
Proof.
  unfold all_packages. rewrite elem_of_union_list. split.
  - intros (X & ([k M] & -> & HkM%elem_of_map_to_list)%list_elem_of_fmap & Hp). eauto.
  - intros (k & M & HM & Hp). exists (packages M). split; [|done].
    apply list_elem_of_fmap. exists (k, M). split; [done|].
    by apply elem_of_map_to_list.
Qed.

Lemma sum_list_with_take (f : string → nat) (X : gset string) p :
  p ∈ X →
  (sum_list_with f (elements X) = f p + sum_list_with f (elements (X ∖ {[p]})))%nat.
Proof.
  intros Hp. rewrite (union_difference_singleton_L p X Hp) at 1.
  rewrite elements_union_singleton by set_solver. done.
Qed.

(** Each iteration of the work loop uses up some of the work ahead, so the
    loop returns when the fuel exceeds it. *)
Lemma build_loop_terminates (U : gset string) pop fuel (m : registry) queue :
  (∀ p, traced _get_imports root_pkg p → p ∈ U) → pop_ok pop →
  build_inv _get_imports root_pkg m queue →
  (build_work _get_imports U m queue < fuel)%nat →
  is_Some (build_loop _get_imports pop fuel m queue).
Proof.
  intros HU Hpop. revert m queue.
  induction fuel as [|fuel IH]; intros m queue Hinv Hwork; [lia|].
  simpl. pose proof (Hpop queue) as Hq. destruct (pop queue) as [[pkg queue']|]; [|done].
  assert (length queue = S (length queue')) as Hlen by by rewrite Hq.
  pose proof (build_inv_step m queue pkg queue') as Hstep.
  destruct (visit_pkg_spec m queue' pkg)
    as [[Hproc E]|[Hnproc (mod' & E & Hn & Hp & _ & _ & _)]].
  { intros M HM. by apply (inv_module _ _ _ _ Hinv) in HM as [? _]. }
  - rewrite E in Hstep |- *. apply IH; [by eapply Hstep|].
    unfold build_work in *. lia.
  - rewrite E in Hstep |- *. apply IH; [by eapply Hstep|].
    set (k := _module_name pkg) in *.
    assert (pkg ∈ U ∖ all_packages m) as Hpkg.
    { apply elem_of_difference. split.
      - apply HU, (inv_queue _ _ _ _ Hinv). rewrite Hq. by left.
      - intros (k' & M & HM & Hin)%elem_of_all_packages. apply Hnproc.
        destruct (inv_package _ _ _ _ Hinv k' M pkg HM Hin) as [<- _]. by exists M. }
    unfold build_work in *.
    assert (U ∖ all_packages (<[k := mod']> m) = (U ∖ all_packages m) ∖ {[pkg]}) as ->.
    { apply set_eq. intros p. rewrite !elem_of_difference, !elem_of_all_packages.
      rewrite elem_of_singleton. split.
      - intros [HpU Hnot]. split; [split; [done|]|].
        + intros (k' & M & HM & Hin). apply Hnot.
          destruct (decide (k' = k)) as [->|Hne].
          * exists k, mod'. rewrite lookup_insert_eq, Hp, HM. set_solver.
          * exists k', M. by rewrite lookup_insert_ne.
        + intros Heq. apply Hnot. exists k, mod'. rewrite lookup_insert_eq, Hp, Heq.
          set_solver.
      - intros [[HpU Hnot] Hne]. split; [done|].
        intros (k' & M & HM & Hin). destruct (decide (k' = k)) as [->|Hk].
        + rewrite lookup_insert_eq in HM. injection HM as <-. rewrite Hp in Hin.
          apply elem_of_union in Hin as [?%elem_of_singleton|Hin]; [done|].
          apply Hnot. destruct (m !! k) as [M0|] eqn:HM0; [|set_solver]. eauto.
        + rewrite lookup_insert_ne in HM by done. apply Hnot. eauto. }
    rewrite (sum_list_with_take _ _ pkg Hpkg) in Hwork. rewrite length_app. lia.
Qed.
End BuilderProofs.

(** ** The registry invariants along the pipeline *)

Lemma get_modules_inv _get_imports fuel root_pkg (m : registry) r :
  get_modules _get_imports fuel root_pkg = Some (m, r) →
  build_inv _get_imports root_pkg m [].
Proof.
  unfold get_modules, get_modules_with.
  destruct (build_loop _ _ _ _ _) as [m'|] eqn:E; [|done]. intros [= <- _].
  eapply build_loop_inv; [apply list_pop_ok|apply build_inv_init|done].
Qed.

Lemma keyed_own_name (m : registry) :
  keyed m → no_self_loops m ↔ own_name_not_dependency m.
Proof.
  intros Hk. split; intros H k M HM; specialize (H k M HM); by rewrite (Hk k M HM) in *.
Qed.

(** C3: no dangling edges.  Every dependency names a module of the
    registry when [get_modules] returns; a completed iteration of the
    collapse loop and every point of the pruning phase keep it so. *)
Theorem no_dangling_edges (ord : IterOrder) :
  (∀ _get_imports fuel root_pkg (m : registry) r,
     get_modules _get_imports fuel root_pkg = Some (m, r) → no_dangling m) ∧
  (∀ fuel (m : registry) s m' s',
     no_dangling m → collapse_step ord fuel m s = Done (Some (m', s')) →
     no_dangling m') ∧
  (∀ fuel (m : registry) s,
     no_dangling m → no_dangling (prune ord fuel m s).1).
Proof.
  split_and!.
  - intros T fuel root_pkg m r Hget%get_modules_inv.
    by apply build_inv_final in Hget as (_ & _ & ?).
  - intros fuel m s m' s' Hd (loop & _ & _ & -> & _)%collapse_step_some.
    by apply collapsed_no_dangling.
  - intros fuel m s Hd. eapply prunes_no_dangling; [|done]. apply prune_loop_prunes.
Qed.

Lemma no_dangling_edges_witness :
  no_dangling (default ∅ (fst <$> get_modules example_tracer 10 "a.x")) ∧
  no_dangling (match collapse_step elements_order 3 two_cycle "A" with
               | Done (Some (m', _)) => m'
               | _ => ∅
               end) ∧
  no_dangling (prune elements_order 10 diamond "A").1.
Proof.
  destruct (no_dangling_edges elements_order) as (Hbuild & Hcollapse & Hprune).
  split_and!.
  - assert (is_Some (get_modules example_tracer 10 "a.x")) as [[m r] E]
      by (apply (bool_decide_unpack _); vm_compute; exact I).
    rewrite E. exact (Hbuild _ _ _ _ _ E).
  - assert (match collapse_step elements_order 3 two_cycle "A" with
            | Done (Some _) => True
            | _ => False
            end) as Hdone by (vm_compute; exact I).
    destruct (collapse_step elements_order 3 two_cycle "A") as [[[m' s']|]| |] eqn:E;
      try done.
    refine (Hcollapse _ _ _ _ _ _ E).
    apply (bool_decide_unpack _). vm_compute; exact I.
  - apply Hprune. apply (bool_decide_unpack _). vm_compute; exact I.
Defined.

(** C4: no self-loops.  No module has its own name among its dependencies
    when [get_modules] returns; a completed iteration of the collapse loop
    and every point of the pruning phase keep it so, in a registry that
    stores every module under its name. *)
Theorem no_self_loops_kept (ord : IterOrder) :
  (∀ _get_imports fuel root_pkg (m : registry) r,
     get_modules _get_imports fuel root_pkg = Some (m, r) →
     keyed m ∧ own_name_not_dependency m) ∧
  (∀ fuel (m : registry) s m' s',
     keyed m → own_name_not_dependency m →
     collapse_step ord fuel m s = Done (Some (m', s')) →
     keyed m' ∧ own_name_not_dependency m') ∧
  (∀ fuel (m : registry) s,
     keyed m → own_name_not_dependency m →
     keyed (prune ord fuel m s).1 ∧ own_name_not_dependency (prune ord fuel m s).1).
Proof.
  split_and!.
  - intros T fuel root_pkg m r Hget%get_modules_inv.
    apply build_inv_final in Hget as (Hk & Hs & _). split; [done|].
    by apply keyed_own_name.
  - intros fuel m s m' s' Hk Hs (loop & _ & _ & -> & _)%collapse_step_some.
    assert (keyed (collapsed m loop)) by by apply collapsed_keyed.
    split; [done|]. apply keyed_own_name; [done|].
    apply collapsed_no_self_loops. by apply keyed_own_name.
  - intros fuel m s Hk Hs.
    assert (prunes m (prune ord fuel m s).1) as Hp by apply prune_loop_prunes.
    assert (keyed (prune ord fuel m s).1) by by eapply prunes_keyed.
    split; [done|]. apply keyed_own_name; [done|].
    eapply prunes_no_self_loops; [done|]. by apply keyed_own_name.
Qed.

Lemma no_self_loops_kept_witness :
  own_name_not_dependency (default ∅ (fst <$> get_modules example_tracer 10 "a.x")) ∧
  own_name_not_dependency (match collapse_step elements_order 3 two_cycle "A" with
                           | Done (Some (m', _)) => m'
                           | _ => ∅
                           end) ∧
  own_name_not_dependency (prune elements_order 10 diamond "A").1.
Proof.
  destruct (no_self_loops_kept elements_order) as (Hbuild & Hcollapse & Hprune).
  split_and!.
  - assert (is_Some (get_modules example_tracer 10 "a.x")) as [[m r] E]
      by (apply (bool_decide_unpack _); vm_compute; exact I).
    rewrite E. exact (proj2 (Hbuild _ _ _ _ _ E)).
  - assert (match collapse_step elements_order 3 two_cycle "A" with
            | Done (Some _) => True
            | _ => False
            end) as Hdone by (vm_compute; exact I).
    destruct (collapse_step elements_order 3 two_cycle "A") as [[[m' s']|]| |] eqn:E;
      try done.
    refine (proj2 (Hcollapse _ _ _ _ _ _ _ E));
      apply (bool_decide_unpack _); vm_compute; exact I.
  - apply Hprune; apply (bool_decide_unpack _); vm_compute; exact I.
Defined.

(** ** Order independence of the builder *)

(** C9: for a fixed import tracer and root, when a run of the work loop
    that pops the queue in one admissible way returns, every run that pops
    it in another admissible way returns as well once it has enough fuel,
    and whenever it returns it returns the same registry (the same module
    names, each with the same packages and dependencies) and the same root
    name.  [get_modules] itself pops with [list_pop]. *)
Theorem get_modules_order_independent (_get_imports : string → list string)
    (root_pkg : string) pop1 pop2 fuel1 r1 :
  pop_ok pop1 → pop_ok pop2 →
  get_modules_with _get_imports pop1 fuel1 root_pkg = Some r1 →
  (∀ fuel2 r2,
     get_modules_with _get_imports pop2 fuel2 root_pkg = Some r2 → r2 = r1) ∧
  ∃ n, ∀ fuel2, (n ≤ fuel2)%nat →
    get_modules_with _get_imports pop2 fuel2 root_pkg = Some r1.
Proof.
  intros Hpop1 Hpop2. unfold get_modules_with.
  destruct (build_loop _ pop1 _ _ _) as [m1|] eqn:E1; [|done]. intros [= <-].
  assert (build_inv _get_imports root_pkg m1 []) as Hinv1.
  { exact (build_loop_inv _ _ pop1 fuel1 ∅ [root_pkg] m1 Hpop1 (build_inv_init _ _) E1). }
  assert (∀ fuel2 r2,
    match build_loop _get_imports pop2 fuel2 ∅ [root_pkg] with
    | Some modules => Some (modules, _module_name root_pkg)
    | None => None
    end = Some r2 → r2 = (m1, _module_name root_pkg)) as Hsame.
  { intros fuel2 r2.
    destruct (build_loop _ pop2 _ _ _) as [m2|] eqn:E2; [|done]. intros [= <-].
    f_equal. eapply build_inv_unique; [|done].
    exact (build_loop_inv _ _ pop2 fuel2 ∅ [root_pkg] m2 Hpop2 (build_inv_init _ _) E2). }
  split; [done|].
  exists (S (build_work _get_imports (all_packages m1) ∅ [root_pkg])).
  intros fuel2 Hfuel.
  destruct (build_loop_terminates _get_imports root_pkg (all_packages m1) pop2 fuel2
              ∅ [root_pkg]) as [m2 E2]; [|done|apply build_inv_init|lia|].
  { intros p (M & HM & Hp)%(build_inv_processed _ _ m1 p Hinv1).
    apply elem_of_all_packages. eauto. }
  specialize (Hsame fuel2). rewrite E2 in Hsame |- *. by rewrite (Hsame _ eq_refl).
Qed.

Lemma get_modules_order_independent_witness :
  (∀ fuel2 r2,
     get_modules_with example_tracer list_pop_first fuel2 "a.x" = Some r2 →
     Some r2 = get_modules example_tracer 10 "a.x") ∧
  ∃ n, ∀ fuel2, (n ≤ fuel2)%nat →
    get_modules_with example_tracer list_pop_first fuel2 "a.x"
    = get_modules example_tracer 10 "a.x".
Proof.
  assert (is_Some (get_modules example_tracer 10 "a.x")) as [r1 E1]
    by (apply (bool_decide_unpack _); vm_compute; exact I).
  rewrite E1.
  destruct (get_modules_order_independent example_tracer "a.x" list_pop list_pop_first
              10 r1 list_pop_ok list_pop_first_ok E1) as [Hsame Hterm].
  split; [|exact Hterm]. intros fuel2 r2 E2. f_equal. exact (Hsame fuel2 r2 E2).
Defined.

(** ** Memory attribution *)

Section AttributionProofs.
Variable ord : IterOrder.
Variable World : Type.
Variable run_python : World → string → World * (Z * Z).

Lemma collect_deps_spec (m : registry) names acc :
  (∀ d, d ∈ names → is_Some (m !! d)) →
  collect_deps m names acc = Done (acc ∪ pkgs_of m names).
Proof.
  revert acc. induction names as [|d names IH]; intros acc Hin; simpl.
  - f_equal. unfold pkgs_of. simpl. set_solver.
  - destruct (Hin d (list_elem_of_here _ _)) as [D HD]. unfold lookup_key.
    rewrite HD. cbn [mbind outcome_mbind outcome_bind].
    rewrite IH by (intros; apply Hin; by right).
    f_equal. unfold pkgs_of. simpl. rewrite HD. simpl. set_solver.
Qed.

Lemma imports_memory_usage_ok w imports w' rss :
  run_python w (import_script ord imports) = (w', (0, rss)) →
  _imports_memory_usage ord World run_python w imports = (w', Done rss).
Proof. intros E. unfold _imports_memory_usage. by rewrite E. Qed.

(** Attribution of one module when both probes exit with status 0. *)
Lemma set_rss_for_module_spec (st : attr_state World) (k : string) M w1 total w2 deps_rss :
  st_modules st !! k = Some M →
  (∀ d, d ∈ dependencies M → is_Some (st_modules st !! d)) →
  run_python (st_world st) (import_script ord (packages M)) = (w1, (0, total)) →
  run_python w1
    (import_script ord (pkgs_of (st_modules st) (set_iter ord (dependencies M))))
  = (w2, (0, deps_rss)) →
  let deps := pkgs_of (st_modules st) (set_iter ord (dependencies M)) in
  let log := st_log st ++ [InfoGettingRss k; InfoOwnPackages k (packages M);
                          InfoDependencies k deps] in
  _set_rss_for_module ord World run_python st k
  = (mkAttrState w2
       (if bool_decide (total - deps_rss < 0)
        then log ++ [WarningNegativeOwnRss k (total - deps_rss)] else log)
       (<[k := set_own_rss (Z.max 0 (total - deps_rss)) (set_total_rss total M)]>
          (st_modules st)),
     Done ()).
Proof.
  intros HM Hin E1 E2 deps log. unfold _set_rss_for_module.
  unfold add_log, set_world, set_module. cbn [st_modules st_world st_log].
  rewrite HM. rewrite (imports_memory_usage_ok _ _ _ _ E1).
  cbn [st_modules st_world st_log].
  rewrite collect_deps_spec.
  2:{ intros d Hd%set_iter_elem_of. cbn [set_total_rss dependencies] in Hd.
      destruct (decide (d = k)) as [->|Hne].
      - rewrite lookup_insert_eq. eauto.
      - rewrite lookup_insert_ne by done. auto. }
  assert (pkgs_of (<[k := set_total_rss total M]> (st_modules st))
            (set_iter ord (dependencies (set_total_rss total M))) = deps) as Hdeps.
  { unfold deps, pkgs_of. cbn [set_total_rss dependencies]. f_equal.
    apply list_fmap_ext. intros i d _.
    destruct (decide (d = k)) as [->|Hne].
    - by rewrite lookup_insert_eq, HM.
    - by rewrite lookup_insert_ne. }
  rewrite (left_id_L ∅ (∪)), Hdeps. fold deps in E2.
  rewrite (imports_memory_usage_ok _ _ _ _ E2).
  cbn [set_own_rss set_total_rss own_rss total_rss name packages dependencies
       st_modules st_world st_log].
  rewrite !insert_insert_eq. unfold log.
  case_bool_decide as Hneg.
  - rewrite Z.max_l by lia. by rewrite <-!(assoc_L (++)).
  - rewrite Z.max_r by lia. by rewrite <-!(assoc_L (++)).
Qed.

(** C6: when both probes exit with status 0 and the deps-only probe
    reports more than the total probe, [_set_rss_for_module] returns
    normally, [own_rss] is exactly 0, [total_rss] is the total probe, the
    warning with the negative difference is logged, and the loop over the
    remaining modules goes on from the state it leaves. *)
Theorem negative_delta_clamped (st : attr_state World) (k : string) (M : Module)
    w1 total w2 deps_rss :
  st_modules st !! k = Some M →
  (∀ d, d ∈ dependencies M → is_Some (st_modules st !! d)) →
  run_python (st_world st) (import_script ord (packages M)) = (w1, (0, total)) →
  run_python w1
    (import_script ord (pkgs_of (st_modules st) (set_iter ord (dependencies M))))
  = (w2, (0, deps_rss)) →
  total < deps_rss →
  ∃ st' M',
    _set_rss_for_module ord World run_python st k = (st', Done ()) ∧
    st_modules st' !! k = Some M' ∧
    own_rss M' = 0 ∧ total_rss M' = total ∧
    WarningNegativeOwnRss k (total - deps_rss) ∈ st_log st' ∧
    ∀ names,
      set_rss_each ord World run_python st (k :: names)
      = set_rss_each ord World run_python st' names.
Proof.
  intros HM Hin E1 E2 Hlt.
  pose proof (set_rss_for_module_spec st k M w1 total w2 deps_rss HM Hin E1 E2)
    as Hspec. cbv zeta in Hspec.
  rewrite bool_decide_eq_true_2 in Hspec by lia. rewrite Z.max_l in Hspec by lia.
  eexists _, _. split; [exact Hspec|]. cbn [st_modules st_log].
  split; [apply lookup_insert_eq|]. split; [done|]. split; [done|].
  split; [set_solver|]. intros names. cbn [set_rss_each]. by rewrite Hspec.
Qed.

(** A module without dependencies, when both probes exit with status 0:
    [own_rss] is the total probe less what the probe of the empty import
    set reports, floored at 0. *)
Lemma leaf_attribution (st : attr_state World) (k : string) (M : Module)
    w1 total w2 base :
  st_modules st !! k = Some M → dependencies M = ∅ →
  run_python (st_world st) (import_script ord (packages M)) = (w1, (0, total)) →
  run_python w1 (import_script ord ∅) = (w2, (0, base)) →
  ∃ st' M',
    _set_rss_for_module ord World run_python st k = (st', Done ()) ∧
    st_modules st' !! k = Some M' ∧
    total_rss M' = total ∧ own_rss M' = Z.max 0 (total - base).
Proof.
  intros HM Hleaf E1 E2.
  assert (pkgs_of (st_modules st) (set_iter ord (dependencies M)) = ∅) as Hdeps
    by by rewrite Hleaf, set_iter_empty.
  pose proof (set_rss_for_module_spec st k M w1 total w2 base HM) as Hspec.
  cbv zeta in Hspec. rewrite Hdeps in Hspec.
  eexists _, _. split; [apply Hspec; [set_solver|done..]|]. cbn [st_modules].
  split; [apply lookup_insert_eq|]. simpl. done.
Qed.

(** C7: attribution consistency for leaf modules.  For a module whose
    dependencies set is empty, when the probe of its packages exits with
    status 0 and reports a peak that is not negative, and the probe of the
    empty import set exits with status 0 and reports the zero baseline,
    [_set_rss_for_module] returns normally and leaves [own_rss] equal to
    [total_rss], the peak of the first probe. *)
Theorem leaf_own_rss (st : attr_state World) (k : string) (M : Module)
    w1 total w2 :
  st_modules st !! k = Some M → dependencies M = ∅ →
  run_python (st_world st) (import_script ord (packages M)) = (w1, (0, total)) →
  run_python w1 (import_script ord ∅) = (w2, (0, 0)) →
  0 ≤ total →
  ∃ st' M',
    _set_rss_for_module ord World run_python st k = (st', Done ()) ∧
    st_modules st' !! k = Some M' ∧
    total_rss M' = total ∧ own_rss M' = total_rss M'.
Proof.
  intros HM Hleaf E1 E2 Htotal.
  destruct (leaf_attribution st k M w1 total w2 0 HM Hleaf E1 E2)
    as (st' & M' & Hrun & HM' & Ht & Ho).
  exists st', M'. split_and!; [done..|]. rewrite Ho, Ht. lia.
Qed.
End AttributionProofs.

Lemma import_script_empty ord : import_script ord ∅ = "".
Proof. unfold import_script. by rewrite set_iter_empty. Qed.

Lemma negative_delta_clamped_witness :
  ∃ st' M',
    _set_rss_for_module elements_order nat noisy_python
      (mkAttrState 0%nat [] leaf_registry) "leaf" = (st', Done ()) ∧
    st_modules st' !! "leaf" = Some M' ∧
    own_rss M' = 0 ∧ total_rss M' = 100 ∧
    WarningNegativeOwnRss "leaf" (100 - 120) ∈ st_log st' ∧
    ∀ names,
      set_rss_each elements_order nat noisy_python
        (mkAttrState 0%nat [] leaf_registry) ("leaf" :: names)
      = set_rss_each elements_order nat noisy_python st' names.
Proof.
  apply (negative_delta_clamped elements_order nat noisy_python
           (mkAttrState 0%nat [] leaf_registry) "leaf"
           (mkModule "leaf" {["leaf"]} ∅ 0 0) 1%nat 100 2%nat 120).
  - reflexivity.
  - intros d Hd. simpl in Hd. set_solver.
  - reflexivity.
  - reflexivity.
  - lia.
Defined.

Lemma leaf_own_rss_witness :
  ∃ st' M',
    _set_rss_for_module elements_order unit zero_baseline_python
      (mkAttrState () [] leaf_registry) "leaf" = (st', Done ()) ∧
    st_modules st' !! "leaf" = Some M' ∧
    total_rss M' = 100 ∧ own_rss M' = total_rss M'.
Proof.
  apply (leaf_own_rss elements_order unit zero_baseline_python
           (mkAttrState () [] leaf_registry) "leaf"
           (mkModule "leaf" {["leaf"]} ∅ 0 0) () 100 ()).
  - reflexivity.
  - reflexivity.
  - vm_compute. reflexivity.
  - reflexivity.
  - lia.
Defined.

(** ** Witnesses for the pruning phase *)

Lemma ranked_acyclic rank (m : registry) : ranked rank m → acyclic m.
Proof.
  intros Hr.
  assert (∀ a b, tc (edge m) a b → (rank b < rank a)%nat) as Htc.
  { induction 1 as [a b (M & HM & Hb)|a b c (M & HM & Hb) _ IH].
    - by apply (Hr a M HM b).
    - pose proof (Hr a M HM b Hb) as Hab. simpl in Hab. lia. }
  intros x Hx%Htc. lia.
Qed.

Lemma prune_preserves_reachability_witness :
  (∀ fuel x, reachable diamond "A" x
             ↔ reachable (prune elements_order fuel diamond "A").1 "A" x) ∧
  ∃ n, ∀ fuel, (n ≤ fuel)%nat →
    (prune elements_order fuel diamond "A").2
    = if decide (is_Some (diamond !! "A")) then Done () else Raise (KeyError "A").
Proof.
  apply (prune_preserves_reachability elements_order diamond "A").
  - apply (ranked_acyclic diamond_rank). apply (bool_decide_unpack _).
    vm_compute. exact I.
  - apply (bool_decide_unpack _). vm_compute. exact I.
Defined.

(** The diamond scenario: pruning drops the direct edge from [A] to [D]
    and nothing else. *)
Example prune_diamond :
  (λ '(m, r), (map_to_list ((elements ∘ dependencies) <$> m), r))
    (prune elements_order 10 diamond "A")
  = ([("C", ["D"]); ("A", ["C"; "B"]); ("B", ["D"]); ("D", [])], Done ()).
Proof. vm_compute. reflexivity. Qed.

(** ** The node identifiers of the renderer *)

Section RendererProofs.
Variable ord : IterOrder.

Lemma print_nodes_ids counter min_rss max_rss ms node_names :
  node_ids (print_nodes counter min_rss max_rss ms node_names).2
  = (λ M, _dot_node_name counter (name M)) <$> ms.
Proof.
  revert node_names. induction ms as [|M ms IH]; intros node_names; [done|].
  cbn [print_nodes]. specialize (IH (<[name M := _dot_node_name counter (name M)]> node_names)).
  destruct (print_nodes _ _ _ ms _) as [names lines]. simpl in *. by rewrite IH.
Qed.

Lemma node_ids_app l1 l2 : node_ids (l1 ++ l2) = node_ids l1 ++ node_ids l2.
Proof. unfold node_ids. apply omap_app. Qed.

Lemma print_edges_of_ids node_names M deps :
  node_ids (print_edges_of node_names M deps).1 = [].
Proof.
  induction deps as [|d deps IH]; [done|]. simpl.
  destruct (lookup_node node_names (name M)) as [src| |]; try done.
  destruct (lookup_node node_names d) as [dst| |]; try done.
  by destruct (print_edges_of node_names M deps).
Qed.

Lemma print_edges_ids node_names ms :
  node_ids (print_edges ord node_names ms).1 = [].
Proof.
  induction ms as [|M ms IH]; [done|]. simpl.
  pose proof (print_edges_of_ids node_names M (set_iter ord (dependencies M))) as H.
  destruct (print_edges_of _ _ _) as [lines [[]| |]]; simpl in *; try done.
  destruct (print_edges ord node_names ms) as [lines' r]. simpl in *.
  by rewrite node_ids_app, H, IH.
Qed.

(** The identifier of every node is built with the counter at 0. *)
Lemma print_dot_node_ids (m : registry) :
  node_ids (print_dot ord m).1
  = (λ M, _dot_node_name 0 (name M)) <$> dict_values ord m.
Proof.
  unfold print_dot. destruct (rss_range _) as [max_rss min_rss].
  pose proof (print_nodes_ids 0 min_rss max_rss (dict_values ord m) ∅) as Hn.
  destruct (print_nodes _ _ _ _ _) as [node_names nodes].
  pose proof (print_edges_ids node_names (dict_values ord m)) as He.
  destruct (print_edges _ _ _) as [edges [[]| |]]; simpl in *;
    rewrite ?node_ids_app, Hn, He; simpl; by rewrite ?app_nil_r.
Qed.

(** C8 fails on the code: the registry that collapsing the cycle of [a]
    and [b] below the root [a_b] leaves has two modules with distinct
    names, and [print_dot] gives both the identifier [node0_a_b]. *)
Theorem dot_node_ids_collide :
  keyed colliding ∧ NoDup (name <$> dict_values ord colliding) ∧
  node_ids (print_dot ord colliding).1 = ["node0_a_b"; "node0_a_b"] ∧
  ¬ NoDup (node_ids (print_dot ord colliding).1).
Proof.
  assert (dict_values ord colliding
          ≡ₚ omap (λ k, colliding !! k) (elements (dom colliding))) as Hperm.
  { unfold dict_values. by rewrite (dict_iter_perm ord colliding). }
  assert (node_ids (print_dot ord colliding).1 = ["node0_a_b"; "node0_a_b"]) as Hids.
  { rewrite print_dot_node_ids.
    assert ((λ M, _dot_node_name 0 (name M)) <$> dict_values ord colliding
            ≡ₚ replicate 2 "node0_a_b") as Hp.
    { rewrite Hperm. by vm_compute. }
    symmetry in Hp. by apply replicate_Permutation in Hp. }
  split; [|split; [|split]].
  - apply (bool_decide_unpack _). vm_compute. exact I.
  - rewrite Hperm. apply (bool_decide_unpack _). vm_compute. exact I.
  - done.
  - rewrite Hids. intros Hnd. apply NoDup_cons in Hnd as [Hnd _]. set_solver.
Qed.
End RendererProofs.

(** * Further properties of the source *)

(** ** Names and identifiers *)

Lemma contains_char_app c (a b : string) :
  contains_char c (a +:+ b) = contains_char c a || contains_char c b.
Proof. induction a as [|x a IH]; simpl; [done|]. by rewrite IH, orb_assoc. Qed.

Lemma string_forall_app P (a b : string) :
  string_forall P (a +:+ b) = string_forall P a && string_forall P b.
Proof. induction a as [|x a IH]; simpl; [done|]. by rewrite IH, andb_assoc. Qed.

(** X1: [_module_name] returns the part of the import path before its first
    dot: a prefix of the path without a dot, the path itself when the
    path has no dot, and a name that [_module_name] maps to itself. *)
Theorem module_name_is_leading_component (import_path : string) :
  contains_char "."%char (_module_name import_path) = false ∧
  (import_path = _module_name import_path ∨
   ∃ rest, import_path = _module_name import_path +:+ "." +:+ rest) ∧
  (contains_char "."%char import_path = false →
   _module_name import_path = import_path) ∧
  _module_name (_module_name import_path) = _module_name import_path.
Proof.
  assert (∀ p, contains_char "."%char p = false → _module_name p = p) as Hid.
  { induction p as [|c p IH]; simpl; [done|].
    destruct (Ascii.eqb c "."%char); simpl; [done|]. intros H. by rewrite IH. }
  assert (∀ p, contains_char "."%char (_module_name p) = false) as Hno.
  { induction p as [|c p IH]; simpl; [done|].
    destruct (Ascii.eqb c "."%char) eqn:E; simpl; [done|]. by rewrite E. }
  split_and!; [done| |apply Hid|by apply Hid].
  induction import_path as [|c p IH]; simpl; [by left|].
  destruct (Ascii.eqb c "."%char) eqn:E; simpl.
  - apply Ascii.eqb_eq in E as ->. right. by exists p.
  - destruct IH as [IH|[rest IH]]; [left|right; exists rest].
    + congruence.
    + change (String c p = String c (_module_name p +:+ "." +:+ rest)). congruence.
Qed.

(** X2: [_invalid_dot_chars.sub("_", name)] keeps the length of the name,
    leaves only letters, digits and underscores, and does not change a
    name that has no other character. *)
Theorem sanitize_valid (s : string) :
  String.length (sanitize s) = String.length s ∧
  string_forall is_dot_char (sanitize s) = true ∧
  (string_forall is_dot_char s = true → sanitize s = s).
Proof.
  split_and!.
  - induction s as [|c s IH]; simpl; [done|]. by rewrite IH.
  - induction s as [|c s IH]; simpl; [done|]. rewrite IH.
    by destruct (is_dot_char c) eqn:E; rewrite ?E.
  - induction s as [|c s IH]; simpl; [done|].
    intros [Hc Hs]%andb_true_iff. by rewrite Hc, IH.
Qed.

Lemma string_app_assoc (a b c : string) : (a +:+ b) +:+ c = a +:+ b +:+ c.
Proof.
  induction a as [|x a IH]; [done|].
  change (String x ((a +:+ b) +:+ c) = String x (a +:+ b +:+ c)). by rewrite IH.
Qed.

Lemma pretty_N_go_digits (x : N) (s : string) :
  ∃ d, pretty_N_go x s = d +:+ s ∧ string_forall is_digit d = true.
Proof.
  revert s. induction (N.lt_wf_0 x) as [x _ IH]; intros s.
  assert (x = 0 ∨ 0 < x)%N as [->|Hx] by lia.
  - exists "". by rewrite pretty_N_go_0.
  - rewrite pretty_N_go_step by done.
    destruct (IH (x `div` 10)%N) with (s := String (pretty_N_char (x `mod` 10)) s)
      as (d & -> & Hd); [by apply N.div_lt|].
    exists (d +:+ String (pretty_N_char (x `mod` 10)) ""). split.
    + by rewrite string_app_assoc.
    + rewrite string_forall_app, Hd. simpl.
      unfold pretty_N_char. by repeat case_match.
Qed.

Lemma pretty_N_digits (x : N) : string_forall is_digit (pretty x) = true.
Proof.
  unfold pretty, pretty_N. case_decide; [done|].
  destruct (pretty_N_go_digits x "") as (d & -> & Hd).
  by rewrite string_forall_app, Hd.
Qed.

Lemma digits_underscore_split (d1 d2 s1 s2 : string) :
  string_forall is_digit d1 = true → string_forall is_digit d2 = true →
  d1 +:+ String "_"%char s1 = d2 +:+ String "_"%char s2 → d1 = d2 ∧ s1 = s2.
Proof.
  revert d2. induction d1 as [|c d1 IH]; intros [|c' d2]; simpl.
  - intros _ _ [= ->]. done.
  - intros _ [Hc _]%andb_true_iff [= <- _]. done.
  - intros [Hc _]%andb_true_iff _ [= -> _]. done.
  - intros [_ H1]%andb_true_iff [_ H2]%andb_true_iff [= -> Heq].
    destruct (IH d2 H1 H2 Heq) as [-> ->]. done.
Qed.

(** X3: The identifier that [_dot_node_name] builds determines the counter
    and the sanitized name: two identifiers built with different counters
    differ, whatever the names. *)
Theorem dot_node_name_determines_counter (i j : N) (a b : string) :
  _dot_node_name i a = _dot_node_name j b → i = j ∧ sanitize a = sanitize b.
Proof.
  unfold _dot_node_name. intros [= Heq].
  apply digits_underscore_split in Heq as [Hij ?]; try apply pretty_N_digits.
  split; [|done]. by apply (inj pretty).
Qed.

Lemma dot_node_name_determines_counter_witness :
  0%N = 0%N ∧ sanitize (join newline ["a"; "b"]) = sanitize "a_b".
Proof.
  apply (dot_node_name_determines_counter 0 0 (join newline ["a"; "b"]) "a_b").
  vm_compute. reflexivity.
Defined.

(** ** Escaping of labels *)

Lemma replace_char_app c r (a b : string) :
  replace_char c r (a +:+ b) = replace_char c r a +:+ replace_char c r b.
Proof.
  induction a as [|x a IH]; [done|].
  change (replace_char c r (String x (a +:+ b))
          = replace_char c r (String x a) +:+ replace_char c r b).
  cbn [replace_char]. destruct (Ascii.eqb x c).
  - by rewrite IH, string_app_assoc.
  - change (String x (replace_char c r (a +:+ b))
            = String x (replace_char c r a +:+ replace_char c r b)). by rewrite IH.
Qed.

(** The three passes of [_dot_escape] amount to one pass that writes
    [escape_char] for every character. *)
Lemma dot_escape_cons (c : ascii) (s : string) :
  _dot_escape (String c s) = escape_char c +:+ _dot_escape s.
Proof.
  unfold _dot_escape, escape_char. cbn [replace_char].
  destruct (Ascii.eqb c backslash) eqn:E1.
  { rewrite !replace_char_app. done. }
  cbn [replace_char]. destruct (Ascii.eqb c dquote) eqn:E2.
  { rewrite !replace_char_app. done. }
  cbn [replace_char]. by destruct (Ascii.eqb c "010"%char).
Qed.

Lemma escape_char_cases (c : ascii) :
  escape_char c = String backslash (String backslash "") ∧ c = backslash
  ∨ escape_char c = String backslash (String dquote "") ∧ c = dquote
  ∨ escape_char c = String backslash "n" ∧ c = "010"%char
  ∨ escape_char c = String c "" ∧ c ≠ backslash ∧ c ≠ dquote ∧ c ≠ "010"%char.
Proof.
  unfold escape_char.
  destruct (Ascii.eqb c backslash) eqn:E1; [apply Ascii.eqb_eq in E1; auto|].
  destruct (Ascii.eqb c dquote) eqn:E2; [apply Ascii.eqb_eq in E2; auto|].
  destruct (Ascii.eqb c "010"%char) eqn:E3; [apply Ascii.eqb_eq in E3; auto 6|].
  apply Ascii.eqb_neq in E1, E2, E3. auto 10.
Qed.

(** X4: [_dot_escape] loses nothing: strings with the same escaped form are
    the same string. *)
Theorem dot_escape_injective (s1 s2 : string) :
  _dot_escape s1 = _dot_escape s2 → s1 = s2.
Proof.
  revert s2. induction s1 as [|c1 s1 IH]; intros [|c2 s2].
  - done.
  - rewrite dot_escape_cons.
    destruct (escape_char_cases c2) as [[-> _]|[[-> _]|[[-> _]|[-> _]]]]; done.
  - rewrite dot_escape_cons.
    destruct (escape_char_cases c1) as [[-> _]|[[-> _]|[[-> _]|[-> _]]]]; done.
  - rewrite !dot_escape_cons.
    destruct (escape_char_cases c1) as [[-> ->]|[[-> ->]|[[-> ->]|[-> (?&?&?)]]]];
    destruct (escape_char_cases c2) as [[-> ->]|[[-> ->]|[[-> ->]|[-> (?&?&?)]]]];
      intros Heq; simplify_eq/=; try done; f_equal; auto.
Qed.

Lemma dot_escape_injective_witness :
  String dquote (String backslash "n") = String dquote (String backslash "n").
Proof.
  apply (dot_escape_injective (String dquote (String backslash "n"))
           (String dquote (String backslash "n"))).
  reflexivity.
Defined.

(** X5: The escaped form has no line break, and a string without backslash,
    double quote and line break is written as it is. *)
Theorem dot_escape_one_line (s : string) :
  contains_char "010"%char (_dot_escape s) = false ∧
  (contains_char backslash s = false → contains_char dquote s = false →
   contains_char "010"%char s = false → _dot_escape s = s).
Proof.
  split.
  - induction s as [|c s IH]; [done|]. rewrite dot_escape_cons, contains_char_app, IH.
    destruct (escape_char_cases c) as [[-> _]|[[-> _]|[[-> _]|[-> (_&_&Hn)]]]];
      try done.
    simpl. apply Ascii.eqb_neq in Hn. by rewrite Hn.
  - induction s as [|c s IH]; [done|]. rewrite dot_escape_cons. simpl.
    intros [H1 ?]%orb_false_iff [H2 ?]%orb_false_iff [H3 ?]%orb_false_iff.
    unfold escape_char. rewrite H1, H2, H3, IH by done. done.
Qed.

(** ** The renderer *)

Lemma rss_fold_bounds (ms : list Module) (a b : Z) :
  let r := foldl (λ '(max_rss, min_rss) mod_,
                    (Z.max max_rss (total_rss mod_), Z.min min_rss (total_rss mod_)))
                 (a, b) ms in
  a ≤ r.1 ∧ r.2 ≤ b ∧ ∀ M, M ∈ ms → r.2 ≤ total_rss M ≤ r.1.
Proof.
  revert a b. induction ms as [|M0 ms IH]; intros a b; simpl.
  - split_and!; [lia..|]. by intros M ?%elem_of_nil.
  - destruct (IH (Z.max a (total_rss M0)) (Z.min b (total_rss M0))) as (H1 & H2 & H3).
    split_and!; [lia..|]. intros M [->|HM]%elem_of_cons; [lia|auto].
Qed.

(** X6: The range that [print_dot] normalizes by: the two ends differ, every
    module's total lies between them, and for a module of the list the
    divisor [max_rss - min_rss] is positive and the quotient lies between
    0 and 1. *)
Theorem rss_range_normalizes (ms : list Module) (max_rss min_rss : Z) (M : Module) :
  rss_range ms = (max_rss, min_rss) → M ∈ ms →
  0 < max_rss - min_rss ∧ 0 ≤ total_rss M - min_rss ≤ max_rss - min_rss.
Proof.
  unfold rss_range. pose proof (rss_fold_bounds ms 0 sys_maxsize) as Hb.
  cbv zeta in Hb. destruct (foldl _ _ ms) as [a b]. simpl in Hb.
  destruct Hb as (_ & _ & Hb). intros Hr HM. specialize (Hb M HM).
  case_bool_decide; simplify_eq; lia.
Qed.

Lemma rss_range_normalizes_witness :
  0 < 101 - 100 ∧
  0 ≤ total_rss (mkModule "leaf" {["leaf"]} ∅ 0 100) - 100 ≤ 101 - 100.
Proof.
  apply (rss_range_normalizes [mkModule "leaf" {["leaf"]} ∅ 0 100] 101 100).
  - reflexivity.
  - apply list_elem_of_here.
Defined.

Section PrintDot.
Variable ord : IterOrder.

Lemma elem_of_dict_values (m : registry) M :
  M ∈ dict_values ord m ↔ ∃ k, m !! k = Some M.
Proof.
  unfold dict_values. rewrite list_elem_of_omap. split.
  - intros (k & _ & Hk). eauto.
  - intros (k & Hk). exists k. split; [|done]. apply dict_iter_elem_of. eauto.
Qed.

Lemma print_nodes_lookup counter min_rss max_rss ms (node_names : gmap string string) k :
  (print_nodes counter min_rss max_rss ms node_names).1 !! k
  = if bool_decide (k ∈ name <$> ms) then Some (_dot_node_name counter k)
    else node_names !! k.
Proof.
  revert node_names. induction ms as [|M ms IH]; intros node_names.
  - by simpl.
  - cbn [print_nodes].
    specialize (IH (<[name M := _dot_node_name counter (name M)]> node_names)).
    destruct (print_nodes _ _ _ ms _) as [names lines]. simpl in *. rewrite IH.
    destruct (decide (k = name M)) as [->|Hne].
    + rewrite lookup_insert_eq. repeat case_bool_decide; try done; set_solver.
    + rewrite lookup_insert_ne by done.
      repeat case_bool_decide; try done; set_solver.
Qed.

Lemma print_edges_of_done (node_names : gmap string string) M deps src
    (f : string → string) :
  node_names !! name M = Some src →
  (∀ d, d ∈ deps → node_names !! d = Some (f d)) →
  print_edges_of node_names M deps = ((λ d, DotEdge src (f d)) <$> deps, Done ()).
Proof.
  intros Hsrc. induction deps as [|d deps IH]; intros Hd; [done|].
  cbn [print_edges_of]. unfold lookup_node. rewrite Hsrc, (Hd d) by left.
  rewrite IH by (intros; apply Hd; by right). done.
Qed.

Lemma print_edges_of_raise (node_names : gmap string string) M deps e :
  is_Some (node_names !! name M) →
  (print_edges_of node_names M deps).2 = Raise e →
  ∃ d, e = KeyError d ∧ d ∈ deps ∧ node_names !! d = None.
Proof.
  intros [src Hsrc]. induction deps as [|d deps IH]; [done|].
  cbn [print_edges_of]. unfold lookup_node. rewrite Hsrc.
  destruct (node_names !! d) as [dst|] eqn:Hd.
  - destruct (print_edges_of node_names M deps) as [lines r]. simpl in *.
    intros (d' & ? & ? & ?)%IH. exists d'. split_and!; [done|by right|done].
  - simpl. intros [= <-]. exists d. split_and!; [done|by left|done].
Qed.

Lemma print_edges_of_no_fuel (node_names : gmap string string) M deps :
  (print_edges_of node_names M deps).2 ≠ OutOfFuel.
Proof.
  induction deps as [|d deps IH]; [done|]. cbn [print_edges_of]. unfold lookup_node.
  destruct (node_names !! name M); [|done]. destruct (node_names !! d); [|done].
  by destruct (print_edges_of node_names M deps).
Qed.

Lemma print_edges_of_done_inv (node_names : gmap string string) M deps :
  (print_edges_of node_names M deps).2 = Done () →
  ∀ d, d ∈ deps → is_Some (node_names !! d).
Proof.
  induction deps as [|d deps IH]; [by intros _ d ?%elem_of_nil|].
  cbn [print_edges_of]. unfold lookup_node.
  destruct (node_names !! name M); [|done].
  destruct (node_names !! d) as [dst|] eqn:Hd; [|done].
  destruct (print_edges_of node_names M deps) as [lines r]. simpl in *.
  intros Hr d' [->|?]%elem_of_cons; eauto.
Qed.

Lemma print_edges_done (node_names : gmap string string) ms (f : string → string) :
  (∀ M, M ∈ ms → node_names !! name M = Some (f (name M)) ∧
                 ∀ d, d ∈ dependencies M → node_names !! d = Some (f d)) →
  print_edges ord node_names ms
  = (flat_map (λ M, (λ d, DotEdge (f (name M)) (f d)) <$> set_iter ord (dependencies M))
       ms, Done ()).
Proof.
  induction ms as [|M ms IH]; intros Hms; [done|]. cbn [print_edges flat_map].
  destruct (Hms M (list_elem_of_here _ _)) as [Hsrc Hd].
  rewrite (print_edges_of_done node_names M _ _ f Hsrc)
    by (intros d ?%set_iter_elem_of; auto).
  rewrite IH by (intros; apply Hms; by right). done.
Qed.

Lemma print_edges_cases (node_names : gmap string string) ms :
  (∀ M, M ∈ ms → is_Some (node_names !! name M)) →
  match (print_edges ord node_names ms).2 with
  | Done _ => ∀ M d, M ∈ ms → d ∈ dependencies M → is_Some (node_names !! d)
  | Raise e => ∃ M d, M ∈ ms ∧ d ∈ dependencies M ∧ node_names !! d = None ∧
                      e = KeyError d
  | OutOfFuel => False
  end.
Proof.
  induction ms as [|M ms IH]; intros Hms; [by intros M d ?%elem_of_nil|].
  cbn [print_edges].
  pose proof (print_edges_of_done_inv node_names M (set_iter ord (dependencies M))) as Hdone.
  pose proof (print_edges_of_raise node_names M (set_iter ord (dependencies M))) as Hraise.
  pose proof (print_edges_of_no_fuel node_names M (set_iter ord (dependencies M))) as Hfuel.
  destruct (print_edges_of _ _ _) as [lines [[]|e|]]; simpl in *.
  - specialize (IH (λ M' HM', Hms M' (list_elem_of_further _ _ _ HM'))).
    destruct (print_edges ord node_names ms) as [lines' [[]|e|]]; simpl in *.
    + intros M' d [->|?]%elem_of_cons Hd; [|eauto].
      apply Hdone; [done|]. by apply set_iter_elem_of.
    + destruct IH as (M' & d & ? & ?). exists M', d. split; [by right|done].
    + done.
  - destruct (Hraise e (Hms M (list_elem_of_here _ _)) eq_refl)
      as (d & -> & Hd%set_iter_elem_of & Hnone).
    exists M, d. split_and!; [left|done..].
  - done.
Qed.

Lemma edge_lines_app l1 l2 : edge_lines (l1 ++ l2) = edge_lines l1 ++ edge_lines l2.
Proof. unfold edge_lines. apply omap_app. Qed.

Lemma print_nodes_no_edges counter min_rss max_rss ms node_names :
  edge_lines (print_nodes counter min_rss max_rss ms node_names).2 = [].
Proof.
  revert node_names. induction ms as [|M ms IH]; intros node_names; [done|].
  cbn [print_nodes].
  specialize (IH (<[name M := _dot_node_name counter (name M)]> node_names)).
  by destruct (print_nodes _ _ _ ms _) as [names lines].
Qed.

Lemma print_dot_node_names (m : registry) k :
  keyed m →
  (print_nodes 0 (rss_range (dict_values ord m)).2 (rss_range (dict_values ord m)).1
     (dict_values ord m) ∅).1 !! k
  = if bool_decide (is_Some (m !! k)) then Some (_dot_node_name 0 k) else None.
Proof.
  intros Hk. rewrite print_nodes_lookup, lookup_empty.
  assert (k ∈ name <$> dict_values ord m ↔ is_Some (m !! k)) as Hiff.
  { rewrite list_elem_of_fmap. split.
    - intros (M & -> & (k' & HM)%elem_of_dict_values). rewrite (Hk k' M HM). eauto.
    - intros [M HM]. exists M. split; [by rewrite (Hk k M HM)|].
      apply elem_of_dict_values. eauto. }
  repeat case_bool_decide; try done; tauto.
Qed.

(** X7: For a registry that stores every module under its name, has no
    dangling edge and has its memory fields within the range of a float
    (so that formatting a label cannot overflow), [print_dot] ends
    normally and prints one node per module and, for every module, one edge
    per dependency, from the module's identifier to the dependency's. *)
Theorem print_dot_complete (m : registry) :
  keyed m → no_dangling m → rss_fits_float m →
  (print_dot ord m).2 = Done () ∧
  node_ids (print_dot ord m).1
  = (λ M, _dot_node_name 0 (name M)) <$> dict_values ord m ∧
  edge_lines (print_dot ord m).1
  = flat_map (λ M, (λ d, (_dot_node_name 0 (name M), _dot_node_name 0 d))
                     <$> set_iter ord (dependencies M))
      (dict_values ord m).
Proof.
  intros Hk Hd _. split_and!; [|apply print_dot_node_ids|].
  - unfold print_dot. pose proof (λ k, print_dot_node_names m k Hk) as Hnames.
    destruct (rss_range _) as [max_rss min_rss]. simpl in Hnames.
    destruct (print_nodes _ _ _ _ _) as [node_names nodes]. simpl in Hnames.
    rewrite (print_edges_done node_names _ (_dot_node_name 0)); [done|].
    intros M (k & HM)%elem_of_dict_values. rewrite !Hnames.
    rewrite (Hk k M HM), bool_decide_eq_true_2 by eauto. split; [done|].
    intros d Hdep. by rewrite Hnames, bool_decide_eq_true_2 by eauto.
  - unfold print_dot. pose proof (λ k, print_dot_node_names m k Hk) as Hnames.
    pose proof (print_nodes_no_edges 0 (rss_range (dict_values ord m)).2
                  (rss_range (dict_values ord m)).1 (dict_values ord m) ∅) as Hne.
    destruct (rss_range _) as [max_rss min_rss]. simpl in Hnames, Hne.
    destruct (print_nodes _ _ _ _ _) as [node_names nodes]. simpl in Hnames, Hne.
    rewrite (print_edges_done node_names _ (_dot_node_name 0)).
    + simpl. rewrite !edge_lines_app, Hne. simpl. rewrite app_nil_r.
      induction (dict_values ord m) as [|M ms IH]; [done|]. simpl.
      rewrite edge_lines_app, IH. f_equal.
      induction (set_iter ord (dependencies M)) as [|d ds IHd]; [done|].
      simpl. f_equal. exact IHd.
    + intros M (k & HM)%elem_of_dict_values. rewrite !Hnames.
      rewrite (Hk k M HM), bool_decide_eq_true_2 by eauto. split; [done|].
      intros d Hdep. by rewrite Hnames, bool_decide_eq_true_2 by eauto.
Qed.

(** X8: With memory fields within the range of a float, where formatting
    a label cannot overflow, [print_dot] fails only on a dangling edge: in
    a registry that stores every module under its name it ends normally
    exactly when no edge dangles, and otherwise raises [KeyError] for a
    dependency that names no module, after the node lines. *)
Theorem print_dot_dangling (m : registry) :
  keyed m → rss_fits_float m →
  match (print_dot ord m).2 with
  | Done _ => no_dangling m
  | Raise e => ∃ k M d, m !! k = Some M ∧ d ∈ dependencies M ∧ m !! d = None ∧
                        e = KeyError d
  | OutOfFuel => False
  end.
Proof.
  intros Hk _. unfold print_dot.
  pose proof (λ k, print_dot_node_names m k Hk) as Hnames.
  destruct (rss_range _) as [max_rss min_rss]. simpl in Hnames.
  destruct (print_nodes _ _ _ _ _) as [node_names nodes]. simpl in Hnames.
  pose proof (print_edges_cases node_names (dict_values ord m)) as Hcases.
  destruct (print_edges ord node_names (dict_values ord m)) as [edges [[]|e|]];
    simpl in *.
  - intros k M d HM Hdep.
    assert (is_Some (node_names !! d)) as Hsome.
    { eapply Hcases; [|apply elem_of_dict_values; eauto|done].
      intros M' (k' & HM')%elem_of_dict_values.
      rewrite Hnames, (Hk k' M' HM'), bool_decide_eq_true_2 by eauto. eauto. }
    rewrite Hnames in Hsome. case_bool_decide; [done|]. by destruct Hsome.
  - destruct Hcases as (M & d & (k & HM)%elem_of_dict_values & Hdep & Hnone & ->).
    { intros M' (k' & HM')%elem_of_dict_values.
      rewrite Hnames, (Hk k' M' HM'), bool_decide_eq_true_2 by eauto. eauto. }
    exists k, M, d. split_and!; try done.
    rewrite Hnames in Hnone. case_bool_decide as Hs; [done|].
    by apply eq_None_not_Some.
  - apply Hcases. intros M' (k' & HM')%elem_of_dict_values.
    rewrite Hnames, (Hk k' M' HM'), bool_decide_eq_true_2 by eauto. eauto.
Qed.
End PrintDot.

Lemma print_dot_complete_witness :
  (print_dot elements_order diamond).2 = Done () ∧
  node_ids (print_dot elements_order diamond).1
  = (λ M, _dot_node_name 0 (name M)) <$> dict_values elements_order diamond ∧
  edge_lines (print_dot elements_order diamond).1
  = flat_map (λ M, (λ d, (_dot_node_name 0 (name M), _dot_node_name 0 d))
                     <$> set_iter elements_order (dependencies M))
      (dict_values elements_order diamond).
Proof.
  apply (print_dot_complete elements_order diamond).
  - apply (bool_decide_unpack _). vm_compute. exact I.
  - apply (bool_decide_unpack _). vm_compute. exact I.
  - apply (bool_decide_unpack _). vm_compute. exact I.
Defined.

Lemma print_dot_dangling_witness :
  (print_dot elements_order dangling_registry).2 = Raise (KeyError "b") ∧
  ∃ k M d, dangling_registry !! k = Some M ∧ d ∈ dependencies M ∧
           dangling_registry !! d = None ∧ KeyError "b" = KeyError d.
Proof.
  assert ((print_dot elements_order dangling_registry).2 = Raise (KeyError "b")) as E
    by (vm_compute; reflexivity).
  split; [exact E|].
  pose proof (print_dot_dangling elements_order dangling_registry) as H.
  rewrite E in H. apply H.
  - apply (bool_decide_unpack _). vm_compute. exact I.
  - apply (bool_decide_unpack _). vm_compute. exact I.
Defined.

(** ** The graph functions *)

Lemma chain_rtc (R : relation string) l i n a b :
  chain R l → l !! i = Some a → l !! (i + n)%nat = Some b → rtc R a b.
Proof.
  intros Hch. revert i a. induction n as [|n IH]; intros i a Ha Hb.
  - rewrite Nat.add_0_r in Hb. by simplify_eq.
  - destruct (l !! S i) as [c|] eqn:Hc.
    + eapply rtc_l; [by apply (Hch i)|]. apply (IH (S i)); [done|].
      by replace (S i + n)%nat with (i + S n)%nat by lia.
    + apply lookup_ge_None in Hc. apply lookup_lt_Some in Hb. lia.
Qed.

(** A cycle closes on its first member. *)
Lemma is_cycle_tc (m : registry) loop :
  is_cycle m loop → ∃ b, head loop = Some b ∧ tc (edge m) b b.
Proof.
  intros (_ & _ & Hch & a & b & Ha & Hb & Hab). exists b. split; [done|].
  eapply tc_rtc_l; [|by apply tc_once].
  rewrite last_lookup in Ha. rewrite head_lookup in Hb.
  by apply (chain_rtc _ loop 0 (pred (length loop)) b a Hch).
Qed.

Section GraphFunctions.
Variable ord : IterOrder.

Lemma can_remove_scan_false (m : registry) dependency deps :
  can_remove_scan m dependency deps = Done false →
  ∀ c D, c ∈ deps → c ≠ dependency → m !! c = Some D → dependency ∉ dependencies D.
Proof.
  induction deps as [|c deps IH]; simpl; [by intros _ c D ?%elem_of_nil|].
  case_bool_decide as Hc.
  - intros Hs c' D [->|?]%elem_of_cons; [done|]. by apply IH.
  - unfold lookup_key. destruct (m !! c) as [D|] eqn:HD; [|done].
    cbn [mbind outcome_mbind outcome_bind]. case_bool_decide as He; [done|].
    intros Hs c' D' [->|?]%elem_of_cons; [|by apply IH].
    intros _ ?. by simplify_eq.
Qed.

(** X9: [_dependency_can_be_removed] answers, whatever the order in which the
    set is walked, whether another dependency of [name] itself depends on
    [dependency]; it raises [KeyError] when [name] is not in the registry. *)
Theorem dependency_can_be_removed_spec (m : registry) (k dependency : string) :
  match m !! k with
  | None => _dependency_can_be_removed ord m k dependency = Raise (KeyError k)
  | Some M =>
      (∀ c, c ∈ dependencies M → is_Some (m !! c)) →
      ∃ b, _dependency_can_be_removed ord m k dependency = Done b ∧
           (b = true ↔ ∃ c D, c ∈ dependencies M ∧ c ≠ dependency ∧
                              m !! c = Some D ∧ dependency ∈ dependencies D)
  end.
Proof.
  unfold _dependency_can_be_removed, lookup_key.
  destruct (m !! k) as [M|] eqn:HM; [|done].
  cbn [mbind outcome_mbind outcome_bind]. intros Hin.
  destruct (can_remove_scan_done m dependency (set_iter ord (dependencies M)))
    as [b Hb]; [by intros c ?%set_iter_elem_of; auto|].
  exists b. split; [done|]. destruct b.
  - split; [intros _|done].
    apply can_remove_scan_true in Hb as (c & D & ?%set_iter_elem_of & ?). eauto.
  - split; [done|]. intros (c & D & Hc & Hne & HD & Hd).
    by destruct (can_remove_scan_false m dependency _ Hb c D
                   (proj2 (set_iter_elem_of ord _ _) Hc) Hne HD).
Qed.

Lemma detect_loop_members fuel (m : registry) x v loop v' :
  _detect_loop ord fuel m x v = Done (Some loop, v') →
  ∀ y, y ∈ loop → y ∈ v ∨ rtc (edge m) x y.
Proof.
  revert x v. induction fuel as [|fuel IH]; intros x v; [done|]. simpl.
  case_bool_decide as Hx.
  - intros [= <- <-] y Hy. left. by apply (subseteq_drop (index x v) v).
  - destruct (m !! x) as [M|] eqn:HM; [|done]. intros Hs y Hy.
    destruct (search_deps_cases (_detect_loop ord fuel m)
      (set_iter ord (dependencies M)) (v ++ [x])) as [[H1 _]|(d & Hd & H1 & _)].
    + intros d w _. apply detect_loop_none_visited.
    + by rewrite H1 in Hs.
    + rewrite H1 in Hs. apply set_iter_elem_of in Hd.
      destruct (IH _ _ Hs y Hy) as [[?| ->%list_elem_of_singleton]%elem_of_app|Hr].
      * by left.
      * right. apply rtc_refl.
      * right. eapply rtc_l; [|done]. by exists M.
Qed.

Lemma detect_loop_raise fuel (m : registry) x v e :
  _detect_loop ord fuel m x v = Raise e →
  ∃ w y, e = VisitedError (v ++ w ++ [y]) ∧ m !! y = None ∧ rtc (edge m) x y.
Proof.
  revert x v. induction fuel as [|fuel IH]; intros x v; [done|]. simpl.
  case_bool_decide as Hx; [done|].
  destruct (m !! x) as [M|] eqn:HM.
  - intros Hs.
    destruct (search_deps_cases (_detect_loop ord fuel m)
      (set_iter ord (dependencies M)) (v ++ [x])) as [[H1 _]|(d & Hd & H1 & _)].
    + intros d w _. apply detect_loop_none_visited.
    + by rewrite H1 in Hs.
    + rewrite H1 in Hs. apply set_iter_elem_of in Hd.
      destruct (IH _ _ Hs) as (w & y & -> & Hy & Hr).
      exists ([x] ++ w), y. split_and!; [by rewrite <-!(assoc_L (++))|done|].
      eapply rtc_l; [|done]. by exists M.
  - intros [= <-]. exists [], x. split_and!; [done..|apply rtc_refl].
Qed.

(** X10: With more fuel than there are modules the search from [start_name]
    always ends.  It returns a cycle of modules that can be reached from
    [start_name] when there is such a cycle and [None] exactly when there is
    none; it raises only on a name that is reachable from [start_name] and
    missing from the registry, and reports the path that leads to it. *)
Theorem detect_loop_spec (m : registry) (s : string) (fuel : nat) :
  (size m < fuel)%nat →
  match _detect_loop ord fuel m s [] with
  | Done (Some loop, _) =>
      is_cycle m loop ∧ (∀ y, y ∈ loop → reachable m s y) ∧ ¬ acyclic_from m s
  | Done (None, visited) => visited = [] ∧ acyclic_from m s ∧ is_Some (m !! s)
  | Raise e =>
      ∃ path y, e = VisitedError (path ++ [y]) ∧ m !! y = None ∧ reachable m s y
  | OutOfFuel => False
  end.
Proof.
  intros Hfuel.
  destruct (_detect_loop ord fuel m s []) as [[[loop|] v]|e|] eqn:Hd.
  - assert (is_cycle m loop) as Hcyc.
    { eapply (detect_loop_is_cycle ord fuel m s []); [apply NoDup_nil_2| | |done].
      - by intros y ?%elem_of_nil.
      - intros [|i] a b; simpl; [|by rewrite lookup_nil]. done. }
    assert (∀ y, y ∈ loop → reachable m s y) as Hreach.
    { intros y Hy. by destruct (detect_loop_members _ _ _ _ _ _ Hd y Hy)
        as [?%elem_of_nil|?]. }
    split_and!; [done..|]. intros Hacyc.
    destruct (is_cycle_tc m loop Hcyc) as (b & Hb%head_Some_elem_of & Htc).
    by apply (Hacyc b (Hreach b Hb)).
  - split_and!.
    + by apply detect_loop_none_visited in Hd.
    + by eapply detect_loop_none_acyclic.
    + assert (v = []) as -> by by apply detect_loop_none_visited in Hd.
      apply detect_loop_none_step in Hd as (_ & M & -> & _). eauto.
  - apply detect_loop_raise in Hd as (w & y & -> & ? & ?). by exists w, y.
  - apply detect_loop_fuel_enough in Hd; [done|apply NoDup_nil_2| |simpl; lia].
    by intros y ?%elem_of_nil.
Qed.

End GraphFunctions.

Lemma detect_loop_spec_witness :
  match _detect_loop elements_order 3 two_cycle "A" [] with
  | Done (Some loop, _) =>
      is_cycle two_cycle loop ∧ (∀ y, y ∈ loop → reachable two_cycle "A" y) ∧
      ¬ acyclic_from two_cycle "A"
  | Done (None, visited) =>
      visited = [] ∧ acyclic_from two_cycle "A" ∧ is_Some (two_cycle !! "A")
  | Raise e =>
      ∃ path y, e = VisitedError (path ++ [y]) ∧ two_cycle !! y = None ∧
                reachable two_cycle "A" y
  | OutOfFuel => False
  end.
Proof.
  apply (detect_loop_spec elements_order two_cycle "A" 3). vm_compute. lia.
Defined.

Section GraphFunctions2.
Variable ord : IterOrder.

(** X11: What a completed iteration of the collapse loop leaves: the members of
    the cycle are gone, the composite has their packages and the
    dependencies that lead out of the cycle, every other module keeps its
    fields except that its edges into the cycle have become one edge to the
    composite, and the root is renamed when it was a member. *)
Theorem collapse_step_redirects fuel (m : registry) s m' s' :
  collapse_step ord fuel m s = Done (Some (m', s')) →
  ∃ loop, is_cycle m loop ∧ (2 ≤ length loop)%nat ∧ (join newline loop ∉ loop) ∧
    s' = (if bool_decide (s ∈ loop) then join newline loop else s) ∧
    (∀ l, l ∈ loop → m' !! l = None) ∧
    (∃ C, m' !! join newline loop = Some C ∧ name C = join newline loop ∧
          packages C = pkgs_of m loop ∧ own_rss C = 0 ∧ total_rss C = 0 ∧
          ∀ d, d ∈ dependencies C ↔
               d ∈ deps_of m loop ∧ (d ∉ loop) ∧ d ≠ join newline loop) ∧
    (∀ k, k ∉ loop → k ≠ join newline loop →
       match m !! k with
       | None => m' !! k = None
       | Some M =>
           ∃ M', m' !! k = Some M' ∧ name M' = name M ∧
                 packages M' = packages M ∧ own_rss M' = own_rss M ∧
                 total_rss M' = total_rss M ∧
                 ∀ d, d ∈ dependencies M' ↔
                      (d ∈ dependencies M ∧ d ∉ loop)
                      ∨ (d = join newline loop ∧ ∃ l, l ∈ loop ∧ l ∈ dependencies M)
       end).
Proof.
  intros (loop & Hcyc & Hlen & -> & ->)%collapse_step_some.
  exists loop. set (new_name := join newline loop).
  assert (new_name ∉ loop) as Hnew.
  { destruct loop as [|x [|y loop]]; simpl in Hlen; try lia. apply join_not_member. }
  split_and!; try done.
  - intros l Hl. rewrite collapsed_lookup_ne by (intros ->; done).
    by rewrite bool_decide_eq_true_2.
  - eexists. split; [apply collapsed_lookup_new|]. simpl. split_and!; try done.
    intros d. rewrite elem_of_difference, elem_of_redirect_deps, elem_of_singleton.
    fold new_name. split.
    + intros [[[? ?]|[-> _]] ?]; done.
    + intros (? & ? & ?). split; [by left|done].
  - intros k Hk Hne. rewrite collapsed_lookup_ne, bool_decide_eq_false_2 by done.
    destruct (m !! k) as [M|]; [|done]. simpl. eexists. split; [done|].
    simpl. split_and!; try done. intros d. apply elem_of_redirect_deps.
Qed.

End GraphFunctions2.

Lemma two_cycle_step :
  collapse_step elements_order 3 two_cycle "A"
  = Done (Some (collapsed two_cycle ["A"; "B"], join newline ["A"; "B"])).
Proof.
  assert (_detect_loop elements_order 3 two_cycle "A" [] = Done (Some ["A"; "B"], ["A"; "B"]))
    as Hd by (vm_compute; reflexivity).
  unfold collapse_step. rewrite Hd. cbn [mbind outcome_mbind outcome_bind].
  rewrite collapse_cycle_spec.
  - reflexivity.
  - apply join_not_member.
  - apply (bool_decide_unpack _). vm_compute. exact I.
  - intros l Hl.
    assert (Forall (λ l, is_Some (two_cycle !! l)) ["A"; "B"]) as HF
      by (apply (bool_decide_unpack _); vm_compute; exact I).
    by eapply Forall_forall in HF.
  - exists "A". split; [set_solver|]. apply elem_of_deps_of.
    exists "B", (mkModule "B" {["B.x"]} {["A"]} 0 0). split_and!; [set_solver|done|set_solver].
Qed.

Lemma collapse_step_redirects_witness :
  ∃ loop, is_cycle two_cycle loop ∧ (2 ≤ length loop)%nat ∧ (join newline loop ∉ loop) ∧
    join newline ["A"; "B"]
    = (if bool_decide ("A" ∈ loop) then join newline loop else "A") ∧
    (∀ l, l ∈ loop → collapsed two_cycle ["A"; "B"] !! l = None) ∧
    (∃ C, collapsed two_cycle ["A"; "B"] !! join newline loop = Some C ∧
          name C = join newline loop ∧
          packages C = pkgs_of two_cycle loop ∧ own_rss C = 0 ∧ total_rss C = 0 ∧
          ∀ d, d ∈ dependencies C ↔
               d ∈ deps_of two_cycle loop ∧ (d ∉ loop) ∧ d ≠ join newline loop) ∧
    (∀ k, k ∉ loop → k ≠ join newline loop →
       match two_cycle !! k with
       | None => collapsed two_cycle ["A"; "B"] !! k = None
       | Some M =>
           ∃ M', collapsed two_cycle ["A"; "B"] !! k = Some M' ∧ name M' = name M ∧
                 packages M' = packages M ∧ own_rss M' = own_rss M ∧
                 total_rss M' = total_rss M ∧
                 ∀ d, d ∈ dependencies M' ↔
                      (d ∈ dependencies M ∧ d ∉ loop)
                      ∨ (d = join newline loop ∧ ∃ l, l ∈ loop ∧ l ∈ dependencies M)
       end).
Proof.
  apply (collapse_step_redirects elements_order 3 two_cycle "A"). exact two_cycle_step.
Defined.

(** ** What the pruning phase leaves, and the whole of [collapse_modules] *)

Lemma list_pop_Some (q : list string) x q' : list_pop q = Some (x, q') → q = q' ++ [x].
Proof.
  destruct q as [|y q _] using rev_ind; [done|].
  rewrite list_pop_snoc. by intros [= -> ->].
Qed.

Lemma irreducible_prunes (m m' : registry) y :
  prunes m m' → m' !! y = m !! y → irreducible m y → irreducible m' y.
Proof.
  intros Hp Hy Hirr M d c D HM Hd Hc Hne HD. rewrite Hy in HM.
  destruct (prunes_lookup_inv _ _ _ _ Hp HD) as (D0 & HD0 & _ & _ & _ & _ & Hsub).
  intros Hin. by apply (Hirr M d c D0 HM Hd Hc Hne HD0), Hsub.
Qed.

Lemma prunes_tc (m m' : registry) a b :
  prunes m m' → tc (edge m') a b → tc (edge m) a b.
Proof.
  intros Hp H. induction H as [a b H|a b c H _ IH].
  - apply tc_once. by eapply prunes_edge.
  - eapply tc_l; [|done]. by eapply prunes_edge.
Qed.

Section PruneResult.
Variable ord : IterOrder.

Lemma find_eliminate_none (m : registry) x deps :
  find_eliminate ord m x deps = Done None →
  ∀ d, d ∈ deps → _dependency_can_be_removed ord m x d = Done false.
Proof.
  induction deps as [|dep deps IH]; cbn [find_eliminate].
  - by intros _ d ?%elem_of_nil.
  - destruct (_dependency_can_be_removed ord m x dep) as [[]| |] eqn:Hb; try done.
    cbn [mbind outcome_mbind outcome_bind]. intros Hrest d [->|Hd]%elem_of_cons; auto.
Qed.

(** The inner [while True] of the pruning phase changes the entry of
    [mod_name] only, and leaves it without a shadowed dependency. *)
Lemma eliminate_loop_result fuel (m : registry) x m' :
  eliminate_loop ord fuel m x = (m', Done ()) →
  irreducible m' x ∧ ∀ y, y ≠ x → m' !! y = m !! y.
Proof.
  revert m. induction fuel as [|fuel IH]; intros m; cbn [eliminate_loop]; [done|].
  unfold lookup_key. destruct (m !! x) as [M|] eqn:HM; [|done].
  destruct (find_eliminate ord m x (set_iter ord (dependencies M)))
    as [[e|]| |] eqn:Hf; try done.
  - case_bool_decide; [|done]. intros [Hirr Hsame]%IH. split; [done|].
    intros y Hy. rewrite Hsame by done. by rewrite lookup_insert_ne.
  - intros [= <-]. split; [|done].
    intros M' d c D HM' Hd Hc Hne HD. rewrite HM in HM'. injection HM' as <-.
    assert (_dependency_can_be_removed ord m x d = Done false) as Hrem.
    { eapply find_eliminate_none; [done|]. by apply set_iter_elem_of. }
    unfold _dependency_can_be_removed, lookup_key in Hrem. rewrite HM in Hrem.
    cbn [mbind outcome_mbind outcome_bind] in Hrem.
    eapply can_remove_scan_false; [done| |done|done]. by apply set_iter_elem_of.
Qed.

Lemma prune_loop_settles fuel (m : registry) queue m' (P : string → Prop) :
  prune_loop ord fuel m queue = (m', Done ()) →
  (∀ x, P x → irreducible m x ∧
     ∀ M d, m !! x = Some M → d ∈ dependencies M → P d ∨ d ∈ queue) →
  ∃ P' : string → Prop,
    (∀ x, P x → P' x) ∧ (∀ q, q ∈ queue → P' q) ∧
    ∀ x, P' x → irreducible m' x ∧
      ∀ M d, m' !! x = Some M → d ∈ dependencies M → P' d.
Proof.
  revert m queue P. induction fuel as [|fuel IH]; intros m queue P; [done|].
  cbn [prune_loop]. destruct (list_pop queue) as [[x q']|] eqn:Hpop.
  - apply list_pop_Some in Hpop as ->.
    pose proof (proj1 (eliminate_loop_prunes ord (S fuel) m x)) as Hpr.
    destruct (eliminate_loop ord (S fuel) m x) as [m1 [[]| |]] eqn:He; try done.
    cbn [fst] in Hpr. apply eliminate_loop_result in He as [Hirr Hsame].
    unfold lookup_key. destruct (m1 !! x) as [M1|] eqn:HM1; [|done].
    intros Hrun HP.
    destruct (IH m1 (q' ++ set_iter ord (dependencies M1)) (λ y, P y ∨ y = x) Hrun)
      as (P' & HPP' & Hq & Hset).
    { intros y Hy. destruct (decide (y = x)) as [->|Hne].
      - split; [done|]. intros M d HM Hd. right. rewrite HM1 in HM. injection HM as <-.
        apply elem_of_app. right. by apply set_iter_elem_of.
      - destruct Hy as [Hy|Hy]; [|done]. destruct (HP y Hy) as [Hy1 Hy2]. split.
        + apply (irreducible_prunes m); [done|by apply Hsame|done].
        + intros M d HM Hd. rewrite Hsame in HM by done.
          destruct (Hy2 M d HM Hd) as [?|[?|Hdx%list_elem_of_singleton]%elem_of_app].
          * left. by left.
          * right. apply elem_of_app. by left.
          * left. by right. }
    exists P'. split_and!; [|intros q [?|Hqx%list_elem_of_singleton]%elem_of_app|done].
    + intros y Hy. apply HPP'. by left.
    + apply Hq, elem_of_app. by left.
    + apply HPP'. by right.
  - pose proof (list_pop_ok queue) as Hq. rewrite Hpop in Hq. subst queue.
    intros [= <-] HP. exists P. split_and!; [done|by intros q ?%elem_of_nil|].
    intros x Hx. destruct (HP x Hx) as [Hirr Hd]. split; [done|].
    intros M d HM Hin. by destruct (Hd M d HM Hin) as [?|?%elem_of_nil].
Qed.

Lemma prune_loop_irreducible fuel (m : registry) queue m' :
  prune_loop ord fuel m queue = (m', Done ()) →
  ∀ q x, q ∈ queue → reachable m' q x → irreducible m' x.
Proof.
  intros Hrun.
  destruct (prune_loop_settles fuel m queue m' (λ _, False) Hrun)
    as (P' & _ & Hq & Hset); [done|].
  intros q x Hin Hx. apply Hset. specialize (Hq q Hin). clear Hrun Hin.
  induction Hx as [a|a b c (M & HM & Hb) _ IH]; [done|].
  apply IH. by apply (proj2 (Hset a Hq) M).
Qed.

(** X12: When the pruning phase ends normally it has reached its fixed point:
    no module that the root still reaches keeps a dependency [d] that
    another of its dependencies also has. *)
Theorem prune_leaves_no_shadowed_edge fuel (m : registry) s m' :
  prune ord fuel m s = (m', Done ()) →
  ∀ x, reachable m' s x → irreducible m' x.
Proof.
  unfold prune. intros Hrun x Hx.
  eapply prune_loop_irreducible; [exact Hrun| |exact Hx].
  apply list_elem_of_here.
Qed.

Lemma collapse_loop_fuel_mono fuel fuel' (m : registry) s r :
  (fuel ≤ fuel')%nat → collapse_loop ord fuel m s = Done r →
  collapse_loop ord fuel' m s = Done r.
Proof.
  revert fuel' m s. induction fuel as [|fuel IH]; intros fuel' m s Hle; [done|].
  destruct fuel' as [|fuel']; [lia|]. cbn [collapse_loop].
  destruct (collapse_step ord (S fuel) m s) as [[[m1 s1]|]| |] eqn:Hstep; try done.
  - rewrite (collapse_step_fuel_mono ord (S fuel) (S fuel')), Hstep;
      [|lia|by rewrite Hstep].
    cbn [mbind outcome_mbind outcome_bind]. apply IH. lia.
  - rewrite (collapse_step_fuel_mono ord (S fuel) (S fuel')), Hstep;
      [|lia|by rewrite Hstep]. done.
Qed.

Lemma collapse_loop_invariants fuel (m : registry) s m' s' :
  collapse_loop ord fuel m s = Done (m', s') →
  no_self_loops m → no_dangling m → is_Some (m !! s) →
  no_self_loops m' ∧ no_dangling m' ∧ is_Some (m' !! s') ∧ acyclic_from m' s'.
Proof.
  revert m s. induction fuel as [|fuel IH]; intros m s; [done|].
  cbn [collapse_loop].
  destruct (collapse_step ord (S fuel) m s) as [[[m1 s1]|]| |] eqn:Hstep; try done.
  - cbn [mbind outcome_mbind outcome_bind]. intros Hrun Hself Hdang Hs.
    apply collapse_step_some in Hstep as (loop & Hcyc & Hlen & -> & ->).
    apply (IH _ _ Hrun).
    + by apply collapsed_no_self_loops.
    + by apply collapsed_no_dangling.
    + by apply collapsed_root.
  - cbn [mbind outcome_mbind outcome_bind]. intros [= <- <-] Hself Hdang Hs.
    split_and!; try done. by eapply collapse_step_none.
Qed.

Lemma collapse_loop_keyed fuel (m : registry) s m' s' :
  collapse_loop ord fuel m s = Done (m', s') → keyed m → keyed m'.
Proof.
  revert m s. induction fuel as [|fuel IH]; intros m s; [done|].
  cbn [collapse_loop].
  destruct (collapse_step ord (S fuel) m s) as [[[m1 s1]|]| |] eqn:Hstep; try done.
  - cbn [mbind outcome_mbind outcome_bind]. intros Hrun Hk.
    apply collapse_step_some in Hstep as (loop & _ & _ & -> & ->).
    apply (IH _ _ Hrun). by apply collapsed_keyed.
  - cbn [mbind outcome_mbind outcome_bind]. by intros [= <- <-].
Qed.

Lemma acyclic_from_sn (m : registry) s :
  acyclic_from m s → no_dangling m → sn (edge m) s.
Proof.
  intros Hacyc Hdang.
  set (R := λ a b, reachable m s a ∧ edge m a b).
  assert (∀ a b, tc R a b → tc (edge m) a b ∧ reachable m s a) as Htc.
  { intros a b H. induction H as [a b [? ?]|a b c [? ?] _ [IH _]].
    - split; [by apply tc_once|done].
    - split; [by eapply tc_l|done]. }
  assert (sn R s) as Hsn.
  { apply tc_finite_sn.
    - intros x [Hx Hr]%Htc. by apply (Hacyc x).
    - exists (elements (dom m)). intros y [Hy _]%Htc.
      apply elem_of_elements, elem_of_dom.
      apply tc_last_edge in Hy as (z & M & HM & Hz). eauto. }
  assert (∀ x, sn R x → reachable m s x → sn (edge m) x) as Hgen.
  { intros x Hx. induction Hx as [x _ IH]. intros Hr. constructor. intros y Hy.
    apply IH; [by split|]. eapply rtc_r; [done|exact Hy]. }
  apply Hgen; [done|apply rtc_refl].
Qed.

(** Without a cycle below the root the collapse loop changes nothing. *)
Lemma collapse_loop_acyclic fuel (m : registry) s :
  acyclic_from m s → no_self_loops m → no_dangling m → is_Some (m !! s) →
  (size m < fuel)%nat →
  collapse_loop ord fuel m s = Done (m, s).
Proof.
  intros Hacyc Hself Hdang Hs Hfuel. destruct fuel as [|fuel]; [lia|].
  cbn [collapse_loop].
  destruct (collapse_step_done ord (S fuel) m s Hself Hdang Hs Hfuel) as [r Hr].
  rewrite Hr. cbn [mbind outcome_mbind outcome_bind].
  destruct r as [[m1 s1]|]; [exfalso|done].
  unfold collapse_step in Hr.
  destruct (_detect_loop ord (S fuel) m s []) as [[[loop|] v]| |] eqn:Hd; try done.
  assert (is_cycle m loop) as Hcyc.
  { eapply (detect_loop_is_cycle ord (S fuel) m s []); [apply NoDup_nil_2| | |done].
    - by intros y ?%elem_of_nil.
    - intros [|i] a b; simpl; [|by rewrite lookup_nil]. done. }
  destruct (is_cycle_tc m loop Hcyc) as (b & Hb%head_Some_elem_of & Htc).
  apply (Hacyc b); [|done].
  by destruct (detect_loop_members ord _ _ _ _ _ _ Hd b Hb) as [?%elem_of_nil|?].
Qed.

(** The two phases of [collapse_modules] with enough fuel: the collapse
    loop ends with a registry [mc] and a root, and the pruning phase ends
    normally on them. *)
Lemma collapse_modules_run (m : registry) (s : string) :
  no_self_loops m → no_dangling m → is_Some (m !! s) →
  ∃ n (mc m' : registry) s',
    (∀ fuel, (n ≤ fuel)%nat →
       collapse_loop ord fuel m s = Done (mc, s') ∧
       prune ord fuel mc s' = (m', Done ())) ∧
    prunes mc m' ∧ is_Some (mc !! s') ∧ no_self_loops mc ∧ no_dangling mc ∧
    (keyed m → keyed mc) ∧ acyclic_from mc s'.
Proof.
  intros Hself Hdang Hs.
  destruct (collapse_loop_run ord (S (size m)) m s) as (k & mc & sc & _ & _ & Hloop);
    [done|done|done|lia|].
  destruct (collapse_loop_invariants _ _ _ _ _ Hloop) as (Hself' & Hdang' & Hs' & Hacyc);
    [done..|].
  destruct (prune_loop_node ord mc (S (size mc)) Hdang') with (x := sc) (m := mc)
    (queue := @nil string) as (n & m' & Hpr & Hrun);
    [intros; by eapply deps_size_bound|by apply acyclic_from_sn|apply prunes_refl|done|].
  exists (S (size m) `max` (n + S (size mc)))%nat, mc, m', sc. split_and!; try done.
  - intros fuel Hfuel. split.
    + apply (collapse_loop_fuel_mono (S (size m))); [lia|done].
    + unfold prune. replace fuel with (n + (fuel - n))%nat by lia.
      change [sc] with ([] ++ [sc]). rewrite Hrun by lia.
      destruct (fuel - n)%nat eqn:E; [lia|]. done.
  - intros Hk. by eapply collapse_loop_keyed.
Qed.

(** X13: [collapse_modules] is total on a registry without self-loops and
    dangling edges whose root is a module.  With enough fuel the collapse
    loop ends, always with the same registry [mc] and the same root [s'],
    the pruning phase run from that root ends normally with [m'], and
    [collapse_modules] returns [m'].  That root is a module of [m'], no
    cycle is reachable from it and no module reachable from it has a
    shadowed dependency; when no cycle was reachable from the given root
    the collapse loop changes nothing and the root is the given one.  Both
    invariants hold of [m'], and every module is stored under its name when
    that was so before. *)
Theorem collapse_modules_total (m : registry) (s : string) :
  no_self_loops m → no_dangling m → is_Some (m !! s) →
  ∃ n (mc m' : registry) s',
    (∀ fuel, (n ≤ fuel)%nat →
       collapse_loop ord fuel m s = Done (mc, s') ∧
       prune ord fuel mc s' = (m', Done ()) ∧
       collapse_modules ord fuel m s = Done m') ∧
    (acyclic_from m s → mc = m ∧ s' = s) ∧
    is_Some (m' !! s') ∧ no_self_loops m' ∧ no_dangling m' ∧ (keyed m → keyed m') ∧
    acyclic_from m' s' ∧ ∀ x, reachable m' s' x → irreducible m' x.
Proof.
  intros Hself Hdang Hs.
  destruct (collapse_modules_run m s Hself Hdang Hs)
    as (n & mc & m' & s' & Hrun & Hpr & Hs' & Hself' & Hdang' & Hk & Hacyc).
  exists (n `max` S (size m))%nat, mc, m', s'. split_and!.
  - intros fuel Hfuel. destruct (Hrun fuel) as [Hloop Hprune]; [lia|].
    split_and!; [done..|]. unfold collapse_modules. rewrite Hloop.
    cbn [mbind outcome_mbind outcome_bind]. by rewrite Hprune.
  - intros Hacyc0.
    destruct (Hrun (n `max` S (size m))%nat) as [Hloop _]; [lia|].
    rewrite (collapse_loop_acyclic (n `max` S (size m)) m s) in Hloop;
      [by injection Hloop as <- <-|done..|lia].
  - by apply (prunes_is_Some mc m').
  - by eapply prunes_no_self_loops.
  - by eapply prunes_no_dangling.
  - intros Hkm. eapply prunes_keyed; [done|]. by apply Hk.
  - intros x Hx Hcyc. apply (Hacyc x).
    + eapply rtc_subrel; [|done]. intros a b. by apply prunes_edge.
    + eapply prunes_tc; done.
  - destruct (Hrun n (le_n n)) as [_ Hprune]. unfold prune in Hprune.
    intros x Hx. eapply prune_loop_irreducible; [exact Hprune| |exact Hx].
    apply list_elem_of_here.
Qed.

(** X14: A root whose only dependency is itself: the search returns the
    one-member cycle, and removing the composite's own name from its
    dependencies raises [KeyError], because renaming a module to its own
    name has already dropped it. *)
Theorem self_dependent_root_raises fuel (m : registry) s M :
  m !! s = Some M → dependencies M = {[s]} → (2 ≤ fuel)%nat →
  collapse_modules ord fuel m s = Raise (KeyError s).
Proof.
  intros HM Hdeps Hfuel. destruct fuel as [|[|fuel]]; [lia..|].
  unfold collapse_modules. cbn [collapse_loop]. unfold collapse_step.
  assert (_detect_loop ord (S (S fuel)) m s [] = Done (Some [s], [s])) as ->.
  { cbn [_detect_loop]. rewrite bool_decide_eq_false_2 by apply not_elem_of_nil.
    rewrite HM, Hdeps, set_iter_singleton. cbn [search_deps _detect_loop app].
    rewrite bool_decide_eq_true_2 by apply list_elem_of_here.
    cbn [index]. by rewrite bool_decide_eq_true_2. }
  cbn [mbind outcome_mbind outcome_bind].
  by rewrite collapse_cycle_singleton.
Qed.
End PruneResult.

(** ** What [get_modules] returns *)

Section BuilderResult.
Variable _get_imports : string → list string.
Variable root_pkg : string.

(** X15: The registry that [get_modules] returns is read off the import trace:
    the root name is the first component of the root package; a module [k]
    exists exactly when some traced import path has first component [k];
    its packages are those paths, its dependencies the first components,
    other than [k], of what those paths import, and its two memory fields
    are 0. *)
Theorem get_modules_content fuel (m : registry) r :
  get_modules _get_imports fuel root_pkg = Some (m, r) →
  r = _module_name root_pkg ∧
  ∀ k, match m !! k with
       | Some M =>
           name M = k ∧ own_rss M = 0 ∧ total_rss M = 0 ∧
           (∃ p, p ∈ packages M) ∧
           (∀ p, p ∈ packages M ↔
                 traced _get_imports root_pkg p ∧ _module_name p = k) ∧
           (∀ d, d ∈ dependencies M ↔
                 d ≠ k ∧ ∃ p i, traced _get_imports root_pkg p ∧ _module_name p = k ∧
                                i ∈ _get_imports p ∧ _module_name i = d)
       | None => ∀ p, traced _get_imports root_pkg p → _module_name p ≠ k
       end.
Proof.
  intros Hget. split.
  { unfold get_modules, get_modules_with in Hget.
    destruct (build_loop _ _ _ _ _); [|done]. by injection Hget as _ <-. }
  apply get_modules_inv in Hget as Hinv.
  assert (∀ p, traced _get_imports root_pkg p → processed m p) as Hproc
    by (intros p; by apply build_inv_processed).
  destruct Hinv as [Hmod Hpkg Hdep Hq Hroot]. intros k.
  destruct (m !! k) as [M|] eqn:HM.
  - destruct (Hmod k M HM) as (? & ? & ? & ?).
    assert (∀ p, p ∈ packages M ↔ traced _get_imports root_pkg p ∧ _module_name p = k)
      as Hpk.
    { intros p. split.
      - intros Hp. by destruct (Hpkg k M p HM Hp) as (? & ? & _).
      - intros [(M' & HM' & Hp)%Hproc <-]. congruence. }
    split_and!; try done. intros d. split.
    + intros Hd. destruct (Hdep k M d HM Hd) as (? & p & i & Hp & Hi & Hn).
      split; [done|]. exists p, i. by apply Hpk in Hp as [? ?].
    + intros (Hne & p & i & Hp & Hk & Hi & <-).
      assert (p ∈ packages M) as Hin by by apply Hpk.
      destruct (Hpkg k M p HM Hin) as (_ & _ & Himp). by apply (Himp i Hi).
  - intros p (M' & HM' & _)%Hproc. congruence.
Qed.

(** X16: [get_modules] leaves no orphan: the names of the registry are exactly
    the names that dependency edges reach from the returned root. *)
Theorem get_modules_all_reachable fuel (m : registry) r :
  get_modules _get_imports fuel root_pkg = Some (m, r) →
  ∀ k, is_Some (m !! k) ↔ reachable m r k.
Proof.
  intros Hget. apply get_modules_inv in Hget as Hinv.
  assert (r = _module_name root_pkg) as ->.
  { unfold get_modules, get_modules_with in Hget.
    destruct (build_loop _ _ _ _ _); [|done]. by injection Hget as _ <-. }
  assert (∀ p, traced _get_imports root_pkg p → processed m p) as Hproc
    by (intros p; by apply build_inv_processed).
  pose proof (build_inv_final _ _ _ Hinv) as (_ & _ & Hdang).
  destruct Hinv as [Hmod Hpkg Hdep Hq Hroot].
  assert (∀ p, traced _get_imports root_pkg p →
               reachable m (_module_name root_pkg) (_module_name p)) as Htr.
  { apply rtc_ind_r; [apply rtc_refl|].
    intros p i Hp Hi IH. apply Hproc in Hp as (M & HM & Hin).
    destruct (Hpkg _ _ _ HM Hin) as (_ & _ & Himp).
    destruct (decide (_module_name i = _module_name p)) as [->|Hne]; [done|].
    eapply rtc_r; [done|]. exists M. split; [done|]. by apply (Himp i Hi). }
  intros k. split.
  - intros [M HM]. destruct (Hmod k M HM) as (_ & _ & _ & p & Hp).
    destruct (Hpkg k M p HM Hp) as (<- & ? & _). by apply Htr.
  - intros Hk. apply rtc_inv_r in Hk as [<-|(y & _ & M & HM & Hd)].
    + destruct Hroot as [?%elem_of_nil|(M & ? & _)]; [done|eauto].
    + by apply (Hdang y M k).
Qed.


End BuilderResult.

(** ** Memory attribution over the whole registry *)

Lemma same_graph_refl (m : registry) : same_graph m m.
Proof. intros k. by destruct (m !! k). Qed.

Lemma same_graph_trans (m1 m2 m3 : registry) :
  same_graph m1 m2 → same_graph m2 m3 → same_graph m1 m3.
Proof.
  intros H1 H2 k. specialize (H1 k). specialize (H2 k).
  destruct (m1 !! k), (m2 !! k), (m3 !! k); try done.
  destruct H1 as (? & ? & ?), H2 as (? & ? & ?). split_and!; congruence.
Qed.

Lemma same_graph_insert (m : registry) k M M' :
  m !! k = Some M → name M' = name M → packages M' = packages M →
  dependencies M' = dependencies M → same_graph m (<[k := M']> m).
Proof.
  intros HM ? ? ? y. destruct (decide (y = k)) as [->|Hne].
  - by rewrite HM, lookup_insert_eq.
  - rewrite lookup_insert_ne by done. by destruct (m !! y).
Qed.

Lemma same_graph_no_dangling (m m' : registry) :
  same_graph m m' → no_dangling m → no_dangling m'.
Proof.
  intros Hs Hd k M' d HM' Hin. pose proof (Hs k) as Hk. rewrite HM' in Hk.
  destruct (m !! k) as [M|] eqn:HM; [|done]. destruct Hk as (_ & _ & Hdeps).
  rewrite Hdeps in Hin. destruct (Hd k M d HM Hin) as [D HD].
  specialize (Hs d). rewrite HD in Hs. by destruct (m' !! d).
Qed.


Lemma same_graph_is_Some (m m' : registry) k :
  same_graph m m' → is_Some (m' !! k) ↔ is_Some (m !! k).
Proof.
  intros Hs. specialize (Hs k).
  destruct (m !! k), (m' !! k); try done; split; intros [? ?]; done || eauto.
Qed.

Section AttributionResult.
Variable ord : IterOrder.
Variable World : Type.
Variable run_python : World → string → World * (Z * Z).

Lemma collect_deps_cases (m : registry) names acc :
  ((∀ d, d ∈ names → is_Some (m !! d)) ∧
   collect_deps m names acc = Done (acc ∪ pkgs_of m names))
  ∨ ∃ d, d ∈ names ∧ m !! d = None ∧ collect_deps m names acc = Raise (KeyError d).
Proof.
  revert acc. induction names as [|x names IH]; intros acc.
  - left. split; [by intros d ?%elem_of_nil|]. by apply collect_deps_spec; intros d ?%elem_of_nil.
  - cbn [collect_deps]. unfold lookup_key. destruct (m !! x) as [D|] eqn:HD.
    + cbn [mbind outcome_mbind outcome_bind].
      destruct (IH (acc ∪ packages D)) as [[Hin E]|(d & Hd & Hnone & E)].
      * left. assert (∀ d, d ∈ x :: names → is_Some (m !! d)) as Hall.
        { intros d [->|?]%elem_of_cons; eauto. }
        split; [done|]. rewrite <-(collect_deps_spec m (x :: names) acc Hall).
        cbn [collect_deps]. unfold lookup_key. by rewrite HD.
      * right. exists d. split_and!; [by right|done|done].
    + right. exists x. split_and!; [by left|done|done].
Qed.

(** Every way in which [_set_rss_for_module] can end, with the registry
    it leaves. *)
Lemma set_rss_for_module_cases (st : attr_state World) (k : string) :
  let r := _set_rss_for_module ord World run_python st k in
  let m := st_modules st in
  match m !! k with
  | None => r.2 = Raise (KeyError k) ∧ st_modules r.1 = m
  | Some M =>
      let deps := pkgs_of m (set_iter ord (dependencies M)) in
      (∃ ws, r.2 = Raise (WaitStatusError ws (import_script ord (packages M))) ∧
             ws ≠ 0 ∧ st_modules r.1 = m ∧
             (run_python (st_world st) (import_script ord (packages M))).2.1 = ws)
      ∨ (∃ t d, r.2 = Raise (KeyError d) ∧ d ∈ dependencies M ∧ m !! d = None ∧
                st_modules r.1 = <[k := set_total_rss t M]> m)
      ∨ (∃ t ws, r.2 = Raise (WaitStatusError ws (import_script ord deps)) ∧ ws ≠ 0 ∧
                 (∀ d, d ∈ dependencies M → is_Some (m !! d)) ∧
                 st_modules r.1 = <[k := set_total_rss t M]> m ∧
                 ∃ w, (run_python w (import_script ord deps)).2.1 = ws)
      ∨ (∃ t d, r.2 = Done () ∧ (∀ d, d ∈ dependencies M → is_Some (m !! d)) ∧
                st_modules r.1
                = <[k := set_own_rss (Z.max 0 (t - d)) (set_total_rss t M)]> m)
  end.
Proof.
  intros r m. subst r m.
  destruct (_set_rss_for_module ord World run_python st k) as [st' out] eqn:E.
  cbn [fst snd]. unfold _set_rss_for_module in E.
  unfold add_log, set_world, set_module in E. cbn [st_modules st_world st_log] in E.
  destruct (st_modules st !! k) as [M|] eqn:HM; [|by injection E as <- <-].
  unfold _imports_memory_usage in E.
  destruct (run_python (st_world st) (import_script ord (packages M)))
    as [w1 [ws1 t]] eqn:E1.
  case_bool_decide as Hws1.
  { left. exists ws1. by injection E as <- <-. }
  right. cbn [st_modules st_world st_log] in E.
  set (m1 := <[k := set_total_rss t M]> (st_modules st)) in *.
  assert (∀ d, m1 !! d = None ↔ st_modules st !! d = None) as Hnone.
  { intros d. unfold m1. destruct (decide (d = k)) as [->|Hne].
    - rewrite lookup_insert_eq, HM. done.
    - by rewrite lookup_insert_ne. }
  assert (∀ d, is_Some (m1 !! d) ↔ is_Some (st_modules st !! d)) as Hsome.
  { intros d. rewrite <-!not_eq_None_Some. by rewrite Hnone. }
  assert (pkgs_of m1 (set_iter ord (dependencies (set_total_rss t M)))
          = pkgs_of (st_modules st) (set_iter ord (dependencies M))) as Hdeps.
  { unfold pkgs_of, m1. cbn [set_total_rss dependencies]. f_equal.
    apply list_fmap_ext. intros i d _.
    destruct (decide (d = k)) as [->|Hne].
    - by rewrite lookup_insert_eq, HM.
    - by rewrite lookup_insert_ne. }
  destruct (collect_deps_cases m1 (set_iter ord (dependencies (set_total_rss t M))) ∅)
    as [[Hin Hc]|(d & Hd & Hd' & Hc)]; rewrite Hc in E.
  2:{ left. exists t, d. injection E as <- <-.
      split_and!; [done| |by apply Hnone|done].
      by apply set_iter_elem_of in Hd. }
  right. rewrite (left_id_L ∅ (∪)), Hdeps in E.
  assert (∀ d, d ∈ dependencies M → is_Some (st_modules st !! d)) as Hall.
  { intros d Hd. apply Hsome, Hin. by apply set_iter_elem_of. }
  cbn [st_modules st_world st_log] in E.
  destruct (run_python w1 _) as [w2 [ws2 dr]] eqn:E2.
  case_bool_decide as Hws2.
  { left. exists t, ws2. injection E as <- <-. split_and!; try done.
    exists w1. by rewrite E2. }
  right. exists t, dr.
  cbn [set_own_rss set_total_rss own_rss total_rss name packages dependencies
       st_modules st_world st_log] in E.
  case_bool_decide as Hneg; injection E as <- <-; cbn [st_modules]; unfold m1;
    rewrite !insert_insert_eq; (split_and!; [done|done|]).
  - by rewrite Z.max_l by lia.
  - by rewrite Z.max_r by lia.
Qed.

Lemma set_rss_for_module_same_graph (st : attr_state World) (k : string) :
  same_graph (st_modules st)
    (st_modules (_set_rss_for_module ord World run_python st k).1).
Proof.
  pose proof (set_rss_for_module_cases st k) as H. cbv zeta in H.
  destruct (st_modules st !! k) as [M|] eqn:HM.
  - destruct H as [(ws & _ & _ & -> & _)|[(t & d & _ & _ & _ & ->)|
      [(t & ws & _ & _ & _ & -> & _)|(t & d & _ & _ & ->)]]];
      try apply same_graph_refl; by eapply same_graph_insert.
  - destruct H as [_ ->]. apply same_graph_refl.
Qed.

Lemma set_rss_each_same_graph (st : attr_state World) names :
  same_graph (st_modules st)
    (st_modules (set_rss_each ord World run_python st names).1).
Proof.
  revert st. induction names as [|k names IH]; intros st; cbn [set_rss_each].
  - apply same_graph_refl.
  - pose proof (set_rss_for_module_same_graph st k) as H1.
    destruct (_set_rss_for_module ord World run_python st k) as [st1 [[]| |]]; try done.
    eapply same_graph_trans; [exact H1|apply IH].
Qed.

(** X18: Attribution is a frame for the graph: however [set_rss_for_modules]
    ends, the registry has the same modules as before, each with the same
    name, packages and dependencies. *)
Theorem set_rss_for_modules_keeps_graph (st : attr_state World) :
  same_graph (st_modules st)
    (st_modules (set_rss_for_modules ord World run_python st).1).
Proof. apply set_rss_each_same_graph. Qed.

(** X19: How [_set_rss_for_module] ends, given what the probes return.
    A name that is not in the registry raises [KeyError] before any probe
    is run, and nothing changes.  A first probe with a wait status other
    than 0 raises the wait-status exception for the script of the module's
    packages and leaves the registry as it was.  After a first probe with
    status 0, a dependency missing from the registry raises [KeyError] for
    a missing dependency, and a second probe with a status other than 0
    raises the wait-status exception for the script of the dependencies'
    packages; in both cases [total_rss] has already been overwritten and
    [own_rss] is the old one.  With both statuses 0 it returns normally
    with [own_rss] the difference of the two peaks, floored at 0. *)
Theorem set_rss_for_module_failures (st : attr_state World) (k : string) :
  let r := _set_rss_for_module ord World run_python st k in
  let m := st_modules st in
  match m !! k with
  | None =>
      r.2 = Raise (KeyError k) ∧ st_modules r.1 = m ∧ st_world r.1 = st_world st
  | Some M =>
      let script := import_script ord (packages M) in
      let deps_script :=
        import_script ord (pkgs_of m (set_iter ord (dependencies M))) in
      ∀ w1 ws1 t, run_python (st_world st) script = (w1, (ws1, t)) →
        (ws1 ≠ 0 →
           r.2 = Raise (WaitStatusError ws1 script) ∧ st_modules r.1 = m) ∧
        (ws1 = 0 →
           ((∃ d, d ∈ dependencies M ∧ m !! d = None) →
            ∃ d, d ∈ dependencies M ∧ m !! d = None ∧ r.2 = Raise (KeyError d) ∧
                 st_modules r.1 = <[k := set_total_rss t M]> m) ∧
           ((∀ d, d ∈ dependencies M → is_Some (m !! d)) →
            ∀ w2 ws2 deps_rss, run_python w1 deps_script = (w2, (ws2, deps_rss)) →
              (ws2 ≠ 0 →
                 r.2 = Raise (WaitStatusError ws2 deps_script) ∧
                 st_modules r.1 = <[k := set_total_rss t M]> m) ∧
              (ws2 = 0 →
                 r.2 = Done () ∧
                 st_modules r.1
                 = <[k := set_own_rss (Z.max 0 (t - deps_rss)) (set_total_rss t M)]> m)))
  end.
Proof.
  intros r m. subst r m.
  destruct (_set_rss_for_module ord World run_python st k) as [st' out] eqn:E.
  cbn [fst snd]. unfold _set_rss_for_module in E.
  unfold add_log, set_world, set_module in E. cbn [st_modules st_world st_log] in E.
  destruct (st_modules st !! k) as [M|] eqn:HM; [|by injection E as <- <-].
  cbv zeta. intros w1 ws1 t E1.
  unfold _imports_memory_usage in E. rewrite E1 in E. split.
  { intros Hws. rewrite bool_decide_eq_true_2 in E by done. by injection E as <- <-. }
  intros ->. rewrite bool_decide_eq_false_2 in E by (intros H; by apply H).
  cbn [st_modules st_world st_log] in E.
  set (m1 := <[k := set_total_rss t M]> (st_modules st)) in *.
  assert (∀ d, m1 !! d = None ↔ st_modules st !! d = None) as Hnone.
  { intros d. unfold m1. destruct (decide (d = k)) as [->|Hne].
    - rewrite lookup_insert_eq, HM. done.
    - by rewrite lookup_insert_ne. }
  assert (∀ d, is_Some (m1 !! d) ↔ is_Some (st_modules st !! d)) as Hsome.
  { intros d. rewrite <-!not_eq_None_Some. by rewrite Hnone. }
  assert (pkgs_of m1 (set_iter ord (dependencies (set_total_rss t M)))
          = pkgs_of (st_modules st) (set_iter ord (dependencies M))) as Hdeps.
  { unfold pkgs_of, m1. cbn [set_total_rss dependencies]. f_equal.
    apply list_fmap_ext. intros i d _.
    destruct (decide (d = k)) as [->|Hne].
    - by rewrite lookup_insert_eq, HM.
    - by rewrite lookup_insert_ne. }
  destruct (collect_deps_cases m1 (set_iter ord (dependencies (set_total_rss t M))) ∅)
    as [[Hin Hc]|(d & Hd & Hd' & Hc)]; rewrite Hc in E.
  - assert (∀ d, d ∈ dependencies M → is_Some (st_modules st !! d)) as Hall.
    { intros d Hd. apply Hsome, Hin. by apply set_iter_elem_of. }
    split.
    { intros (d & Hd & Hmiss). destruct (Hall d Hd) as [? ?]. congruence. }
    intros _ w2 ws2 deps_rss E2.
    rewrite (left_id_L ∅ (∪)), Hdeps in E.
    cbn [st_modules st_world st_log] in E. rewrite E2 in E. split.
    + intros Hws. rewrite bool_decide_eq_true_2 in E by done. by injection E as <- <-.
    + intros ->. rewrite bool_decide_eq_false_2 in E by (intros H; by apply H).
      cbn [set_own_rss set_total_rss own_rss total_rss name packages dependencies
           st_modules st_world st_log] in E.
      case_bool_decide as Hneg; injection E as <- <-; cbn [st_modules]; unfold m1;
        rewrite !insert_insert_eq; (split; [done|]).
      * by rewrite Z.max_l by lia.
      * by rewrite Z.max_r by lia.
  - injection E as <- <-. apply set_iter_elem_of in Hd.
    cbn [set_total_rss dependencies] in Hd. apply Hnone in Hd'. split.
    + intros _. exists d. done.
    + intros Hall. destruct (Hall d Hd) as [? ?]. congruence.
Qed.

Lemma set_rss_each_nonneg (st st' : attr_state World) names (P : string → Prop) :
  set_rss_each ord World run_python st names = (st', Done ()) →
  (∀ k M, st_modules st !! k = Some M → P k → 0 ≤ own_rss M) →
  ∀ k M, st_modules st' !! k = Some M → P k ∨ k ∈ names → 0 ≤ own_rss M.
Proof.
  revert st P. induction names as [|x names IH]; intros st P; cbn [set_rss_each].
  - intros [= <-] HP k M HM [?|?%elem_of_nil]; [eauto|done].
  - pose proof (set_rss_for_module_cases st x) as H. cbv zeta in H.
    destruct (_set_rss_for_module ord World run_python st x) as [st1 [[]| |]] eqn:E;
      try done.
    cbn [fst snd] in H. intros Hrun HP k M HM Hk.
    apply (IH st1 (λ y, P y ∨ y = x) Hrun) with (k := k); [|done|].
    + intros y My HMy Hy.
      destruct (st_modules st !! x) as [Mx|] eqn:HMx; [|by destruct H].
      destruct H as [(? & ? & _)|[(? & ? & ? & _)|[(? & ? & ? & _)|(t & d & _ & _ & Hm)]]];
        try done.
      rewrite Hm in HMy. destruct (decide (y = x)) as [->|Hne].
      * rewrite lookup_insert_eq in HMy. injection HMy as <-. simpl. lia.
      * rewrite lookup_insert_ne in HMy by done. destruct Hy; [eauto|done].
    + destruct Hk as [?|[->|?]%elem_of_cons]; auto.
Qed.

Lemma set_rss_each_done (st : attr_state World) names :
  (∀ w script, (run_python w script).2.1 = 0) →
  no_dangling (st_modules st) → (∀ k, k ∈ names → is_Some (st_modules st !! k)) →
  (set_rss_each ord World run_python st names).2 = Done ().
Proof.
  intros Hok. revert st. induction names as [|x names IH]; intros st Hdang Hin;
    cbn [set_rss_each]; [done|].
  pose proof (set_rss_for_module_same_graph st x) as Hsame.
  pose proof (set_rss_for_module_cases st x) as H. cbv zeta in H.
  destruct (Hin x (list_elem_of_here _ _)) as [M HM]. rewrite HM in H.
  destruct (_set_rss_for_module ord World run_python st x) as [st1 r] eqn:E.
  cbn [fst snd] in H, Hsame.
  assert (r = Done ()) as ->.
  { destruct H as [(ws & -> & Hws & _ & Hrun)|[(t & d & -> & Hd & Hnone & _)|
      [(t & ws & -> & Hws & _ & _ & w & Hrun)|(t & d & -> & _)]]]; [| | |done].
    - by rewrite Hok in Hrun.
    - destruct (Hdang x M d HM Hd) as [? ?]. congruence.
    - by rewrite Hok in Hrun. }
  apply IH.
  - by eapply same_graph_no_dangling.
  - intros y Hy. apply (same_graph_is_Some _ _ y Hsame). apply Hin. by right.
Qed.

(** X20: When every probe exits with status 0 and no edge dangles,
    [set_rss_for_modules] returns normally, and no module is left with a
    negative [own_rss]. *)
Theorem set_rss_for_modules_total (st : attr_state World) :
  (∀ w script, (run_python w script).2.1 = 0) → no_dangling (st_modules st) →
  ∃ st', set_rss_for_modules ord World run_python st = (st', Done ()) ∧
         ∀ k M, st_modules st' !! k = Some M → 0 ≤ own_rss M.
Proof.
  intros Hok Hdang. unfold set_rss_for_modules.
  pose proof (set_rss_each_done st (dict_iter ord (st_modules st)) Hok Hdang) as Hdone.
  pose proof (set_rss_each_same_graph st (dict_iter ord (st_modules st))) as Hsame.
  destruct (set_rss_each ord World run_python st (dict_iter ord (st_modules st)))
    as [st' r] eqn:E. cbn [fst snd] in *.
  rewrite Hdone by (intros k Hk; by apply dict_iter_elem_of in Hk).
  exists st'. split; [done|]. intros k M HM.
  rewrite Hdone in E by (intros y Hy; by apply dict_iter_elem_of in Hy).
  apply (set_rss_each_nonneg _ _ _ (λ _, False) E) with (k := k); [done|done|].
  right. apply dict_iter_elem_of. apply (same_graph_is_Some _ _ k Hsame). eauto.
Qed.
End AttributionResult.

(** ** The command line *)

Lemma string_length_app (a b : string) :
  String.length (a +:+ b) = (String.length a + String.length b)%nat.
Proof. induction a as [|x a IH]; simpl; [done|]. by rewrite IH. Qed.

Lemma string_drop_app (p s : string) : string_drop (String.length p) (p +:+ s) = s.
Proof. induction p as [|x p IH]; simpl; [done|]. exact IH. Qed.

Lemma string_take_app (p s : string) : string_take (String.length p) (p +:+ s) = p.
Proof. induction p as [|x p IH]; simpl; [done|]. by rewrite IH. Qed.

Lemma string_take_drop (n : nat) (s : string) : string_take n s +:+ string_drop n s = s.
Proof.
  revert s. induction n as [|n IH]; intros [|x s]; try done.
  change (String x (string_take n s +:+ string_drop n s) = String x s). by rewrite IH.
Qed.

Lemma startswith_app (p s : string) : startswith p (p +:+ s) = true.
Proof.
  induction p as [|x p IH]; simpl; [done|]. by rewrite Ascii.eqb_refl, IH.
Qed.

Lemma endswith_app (suffix s : string) : endswith suffix (s +:+ suffix) = true.
Proof.
  unfold endswith. rewrite string_length_app.
  replace (String.length s + String.length suffix - String.length suffix)%nat
    with (String.length s) by lia.
  rewrite string_drop_app, String.eqb_refl, andb_true_r.
  apply Nat.leb_le. lia.
Qed.

Lemma drop_suffix_app (suffix s : string) : drop_suffix suffix (s +:+ suffix) = s.
Proof.
  unfold drop_suffix. rewrite string_length_app.
  replace (String.length s + String.length suffix - String.length suffix)%nat
    with (String.length s) by lia.
  apply string_take_app.
Qed.

Lemma endswith_split (suffix s : string) :
  endswith suffix s = true → s = drop_suffix suffix s +:+ suffix.
Proof.
  unfold endswith, drop_suffix. intros [_ Heq%String.eqb_eq]%andb_true_iff.
  rewrite <-(string_take_drop (String.length s - String.length suffix) s) at 1.
  by rewrite Heq.
Qed.

Lemma replace_char_absent c r (s : string) :
  contains_char c s = false → replace_char c r s = s.
Proof.
  induction s as [|x s IH]; simpl; [done|].
  intros [-> Hs]%orb_false_iff. by rewrite IH.
Qed.

Lemma replace_char_removes c r (s : string) :
  contains_char c r = false → contains_char c (replace_char c r s) = false.
Proof.
  intros Hr. induction s as [|x s IH]; simpl; [done|].
  destruct (Ascii.eqb x c) eqn:E.
  - by rewrite contains_char_app, Hr, IH.
  - simpl. by rewrite E, IH.
Qed.

(** X21: The module argument of the command line: a name without a slash is
    taken as it is; the result never has a slash; and a path [./p.py]
    becomes [p] with its slashes turned into dots. *)
Theorem module_name_of_arg_dotted (module_name : string) :
  (contains_char "/"%char module_name = false →
   module_name_of_arg module_name = module_name) ∧
  contains_char "/"%char (module_name_of_arg module_name) = false ∧
  module_name_of_arg ("./" +:+ module_name +:+ ".py")
  = replace_char "/"%char "." module_name.
Proof.
  split_and!.
  - intros H. unfold module_name_of_arg. by rewrite H.
  - unfold module_name_of_arg.
    destruct (contains_char "/" module_name) eqn:E; [|done].
    by apply replace_char_removes.
  - unfold module_name_of_arg.
    change ("./" +:+ module_name +:+ ".py")
      with (String "." (String "/" (module_name +:+ ".py"))).
    cbn [contains_char startswith string_drop]. rewrite !Ascii.eqb_refl.
    cbn [orb andb]. by rewrite endswith_app, drop_suffix_app.
Qed.

(** X22: The output names that [main] settles on: [--open] implies the SVG
    conversion; without either option the DOT output is the one given; the
    SVG name ends in [.svg] and is never the name of the DOT file; and when
    the conversion runs, the DOT output is a file, not the standard
    output. *)
Theorem output_plan_names (args : cli_args) (module_name : string) :
  let '(dot_output, svg_output, generate_svg) := output_plan args module_name in
  generate_svg = arg_generate_svg args || arg_open args ∧
  (generate_svg = false → dot_output = arg_output args) ∧
  (generate_svg = true → dot_output ≠ "-") ∧
  endswith ".svg" svg_output = true ∧
  svg_output ≠ dot_output.
Proof.
  unfold output_plan.
  set (g := if arg_open args then true else arg_generate_svg args).
  set (d := if g && String.eqb (arg_output args) "-" then _ else arg_output args).
  assert (g = arg_generate_svg args || arg_open args) as Hg.
  { unfold g. by destruct (arg_open args), (arg_generate_svg args). }
  split_and!.
  - done.
  - intros E. unfold d. by rewrite E.
  - intros E. unfold d. rewrite E. cbn [andb].
    destruct (String.eqb (arg_output args) "-") eqn:Eo.
    + intros H. apply (f_equal String.length) in H.
      rewrite string_length_app in H. simpl in H. lia.
    + by apply String.eqb_neq in Eo.
  - apply endswith_app.
  - destruct (endswith ".dot" d) eqn:Ed.
    + apply endswith_split in Ed. clearbody d.
      set (b := drop_suffix ".dot" d) in *. clearbody b. subst d. clear.
      induction b as [|x b IH]; [done|]. intros H. injection H as H. auto.
    + intros H. apply (f_equal String.length) in H.
      rewrite string_length_app in H. simpl in H. lia.
Qed.

(** ** The import tracer *)

Lemma scan_entries_spec (own_modules : list string) (sys : Tracer.sys_modules) acc :
  foldl (Tracer.scan_entry own_modules) acc sys
  = (acc.1 ++ omap (λ e, match e.2 with
                         | Some n =>
                             if bool_decide ((e.1 ∉ own_modules) ∧ (n ∉ Tracer._exclude))
                             then Some n else None
                         | None => None
                         end) sys,
     acc.2 ++ filter (λ k, k ∉ own_modules) sys.*1).
Proof.
  revert acc. induction sys as [|[k spec] sys IH]; intros [new del].
  - cbn. by rewrite !app_nil_r.
  - cbn [foldl]. rewrite IH. clear IH. unfold Tracer.scan_entry.
    cbn [fst snd fmap list_fmap omap list_omap]. rewrite filter_cons.
    destruct (decide (k ∈ own_modules)) as [Hk|Hk].
    + rewrite bool_decide_eq_true_2 by done. rewrite decide_False by (intros ?; done).
      cbn [fst snd]. f_equal. f_equal. destruct spec as [n|]; [|done].
      rewrite bool_decide_eq_false_2; [done|]. intros [? _]. done.
    + rewrite bool_decide_eq_false_2 by done. rewrite decide_True by done.
      cbn [fst snd]. rewrite <-(assoc_L (++)). f_equal. destruct spec as [n|]; [|done].
      destruct (decide (n ∈ Tracer._exclude)) as [Hn|Hn].
      * rewrite bool_decide_eq_true_2 by done.
        rewrite bool_decide_eq_false_2; [done|]. intros [_ ?]. done.
      * rewrite bool_decide_eq_false_2 by done.
        rewrite bool_decide_eq_true_2 by done. by rewrite <-(assoc_L (++)).
Qed.

Lemma list_filter_elem_iff {A} (P Q : A → Prop) `{!∀ x, Decision (P x)}
    `{!∀ x, Decision (Q x)} (l : list A) :
  (∀ x, x ∈ l → P x ↔ Q x) → filter P l = filter Q l.
Proof.
  induction l as [|x l IH]; intros Hl; [done|]. rewrite !filter_cons.
  rewrite IH by (intros y Hy; apply Hl; by right).
  destruct (decide (P x)) as [HP|HP], (decide (Q x)) as [HQ|HQ]; try done.
  - destruct HQ. by apply (Hl x (list_elem_of_here _ _)).
  - destruct HP. by apply (Hl x (list_elem_of_here _ _)).
Qed.

Lemma sys_del_all (to_delete : list string) (sys : Tracer.sys_modules) :
  foldl (λ sys name, Tracer.sys_del name sys) sys to_delete
  = filter (λ e, e.1 ∉ to_delete) sys.
Proof.
  revert sys. induction to_delete as [|x l IH]; intros sys; cbn [foldl].
  - induction sys as [|e sys IHs]; [done|].
    rewrite filter_cons, decide_True by apply not_elem_of_nil. by rewrite <-IHs.
  - rewrite IH. unfold Tracer.sys_del. rewrite list_filter_filter.
    apply list_filter_iff. intros e. rewrite not_elem_of_cons. tauto.
Qed.

Section TracerProofs.
Variable Error : Type.
Variable import_module :
  Tracer.sys_modules → string → Tracer.sys_modules * option Error.

Lemma get_imports_run (sys sys1 : Tracer.sys_modules) (pkg : string) :
  import_module sys pkg = (sys1, None) →
  ∃ new_modules,
    Tracer._get_imports Error import_module sys pkg
    = (filter (λ e, e.1 ∈ sys.*1) sys1, inr new_modules) ∧
    (∀ n, n ∈ new_modules ↔
          (n ∉ Tracer._exclude) ∧ ∃ k, (k, Some n) ∈ sys1 ∧ k ∉ sys.*1).
Proof.
  intros E. unfold Tracer._get_imports. rewrite E.
  rewrite scan_entries_spec. cbn [fst snd app]. eexists. split.
  - f_equal. rewrite sys_del_all. apply list_filter_elem_iff.
    intros [k spec] Hin. cbn [fst]. rewrite list_elem_of_filter. split.
    + intros H. destruct (decide (k ∈ sys.*1)) as [|Hk]; [done|].
      destruct H. split; [done|]. apply list_elem_of_fmap. by exists (k, spec).
    + intros Hk [? _]. done.
  - intros n. rewrite list_elem_of_omap. split.
    + intros ([k spec] & Hin & Hn). cbn [fst snd] in Hn.
      destruct spec as [n'|]; [|done]. case_bool_decide as Hc; [|done].
      injection Hn as ->. destruct Hc. eauto.
    + intros (Hn & k & Hin & Hk). exists (k, Some n). split; [done|].
      cbn [fst snd]. by rewrite bool_decide_eq_true_2.
Qed.

(** X23: What [_get_imports] reports and what it leaves in [sys.modules]: an
    exception of the import is passed on with the table as the import left
    it; otherwise the report lists the spec names, not in [_exclude], of
    the entries whose key was not loaded before, and exactly the entries
    under keys loaded before stay in the table. *)
Theorem get_imports_spec (sys : Tracer.sys_modules) (pkg : string) :
  match import_module sys pkg with
  | (sys1, Some e) =>
      Tracer._get_imports Error import_module sys pkg = (sys1, inl e)
  | (sys1, None) =>
      ∃ new_modules,
        Tracer._get_imports Error import_module sys pkg
        = (filter (λ e, e.1 ∈ sys.*1) sys1, inr new_modules) ∧
        (∀ n, n ∈ new_modules ↔
              (n ∉ Tracer._exclude) ∧ ∃ k, (k, Some n) ∈ sys1 ∧ k ∉ sys.*1)
  end.
Proof.
  destruct (import_module sys pkg) as [sys1 [e|]] eqn:E.
  - unfold Tracer._get_imports. by rewrite E.
  - by apply get_imports_run.
Qed.

(** X24: [_get_imports] undoes the import: when the import only adds entries
    under keys that were not loaded, [sys.modules] is afterwards what it
    was before, so that tracing the same package again sees the same
    imports. *)
Theorem get_imports_restores (sys added : Tracer.sys_modules) (pkg : string) :
  import_module sys pkg = (sys ++ added, None) →
  (∀ e, e ∈ added → e.1 ∉ sys.*1) →
  (Tracer._get_imports Error import_module sys pkg).1 = sys.
Proof.
  intros E Hnew. destruct (get_imports_run _ _ _ E) as (new_modules & -> & _).
  cbn [fst]. rewrite filter_app.
  replace (filter (λ e, e.1 ∈ sys.*1) added) with (@nil (string * option string)).
  - rewrite app_nil_r. clear.
    assert (∀ l : Tracer.sys_modules,
              (∀ e, e ∈ l → e.1 ∈ sys.*1) → filter (λ e, e.1 ∈ sys.*1) l = l) as Hall.
    { induction l as [|e l IH]; intros Hl; [done|].
      rewrite filter_cons, decide_True by (apply Hl; by left).
      rewrite IH; [done|]. intros e' He'. apply Hl. by right. }
    apply Hall. intros e He. apply list_elem_of_fmap. by exists e.
  - symmetry. clear E. induction added as [|e l IH]; [done|].
    rewrite filter_cons, decide_False by (apply Hnew; by left).
    apply IH. intros e' He'. apply Hnew. by right.
Qed.
End TracerProofs.

(** ** The pipeline of [main] *)

Section PipelineProofs.
Variable ord : IterOrder.
Variable _get_imports : string → list string.
Variable World : Type.
Variable run_python : World → string → World * (Z * Z).


End PipelineProofs.

(** ** Renaming a dependency *)

(** X26: [_rename_dependency] in terms of edges: an edge that does not lead to
    [name] stays, an edge to [name] becomes an edge to [new_name] or, when
    there is no new name, disappears; no module is added or removed, and
    the other fields of every module stay as they are. *)
Theorem rename_dependency_edges (m : registry) (name_ : string)
    (new_name : option string) :
  let m' := _rename_dependency m name_ new_name in
  (∀ k d, edge m' k d ↔
          (edge m k d ∧ d ≠ name_) ∨ (new_name = Some d ∧ edge m k name_)) ∧
  ∀ k, match m !! k, m' !! k with
       | Some M, Some M' =>
           name M' = name M ∧ packages M' = packages M ∧
           own_rss M' = own_rss M ∧ total_rss M' = total_rss M
       | None, None => True
       | _, _ => False
       end.
Proof.
  intros m'. subst m'. unfold _rename_dependency. split.
  - intros k d. unfold edge. setoid_rewrite lookup_fmap. split.
    + intros (M' & HM' & Hd). destruct (m !! k) as [M|] eqn:HM; [|done].
      injection HM' as <-. unfold rename_in in Hd. case_bool_decide as Hin.
      * destruct new_name as [n|]; simpl in Hd.
        -- apply elem_of_union in Hd as [->%elem_of_singleton|Hd].
           ++ right. split; [done|]. eauto.
           ++ left. apply elem_of_difference in Hd as [? ?%not_elem_of_singleton]. eauto.
        -- left. apply elem_of_difference in Hd as [? ?%not_elem_of_singleton]. eauto.
      * left. split; [eauto|]. by intros ->.
    + intros [[(M & HM & Hd) Hne]|[-> (M & HM & Hn)]]; rewrite HM; eexists;
        (split; [done|]); unfold rename_in.
      * case_bool_decide; [|done]. destruct new_name; simpl; set_solver.
      * rewrite bool_decide_eq_true_2 by done. simpl. set_solver.
  - intros k. rewrite lookup_fmap. destruct (m !! k) as [M|]; [|done]. simpl.
    unfold rename_in. case_bool_decide; [|done]. by destruct new_name.
Qed.

(** ** The packages across a collapse *)

(** X27: A completed iteration of the collapse loop invents no import
    path, and it loses none unless the name of the composite was already
    the name of a module, which the composite then replaces. *)
Theorem collapse_step_keeps_packages (ord : IterOrder) fuel (m : registry) s m' s' :
  collapse_step ord fuel m s = Done (Some (m', s')) →
  ∃ loop, is_cycle m loop ∧ is_Some (m' !! join newline loop) ∧
    all_packages m' ⊆ all_packages m ∧
    (m !! join newline loop = None → all_packages m' = all_packages m).
Proof.
  intros (loop & Hcyc & Hlen & -> & ->)%collapse_step_some.
  exists loop. set (new_name := join newline loop).
  assert (all_packages (collapsed m loop) ⊆ all_packages m) as Hsub.
  { intros p (k & M' & HM' & Hp)%elem_of_all_packages. apply elem_of_all_packages.
    destruct (decide (k = new_name)) as [->|Hne].
    - unfold new_name in HM'. rewrite collapsed_lookup_new in HM'.
      injection HM' as <-. cbn [packages] in Hp.
      apply elem_of_pkgs_of in Hp as (l & M & _ & HM & Hp). eauto.
    - rewrite collapsed_lookup_ne in HM' by done. case_bool_decide; [done|].
      destruct (m !! k) as [M|] eqn:HM; [|done]. injection HM' as <-. eauto. }
  split_and!; [done| |done|].
  - unfold new_name. rewrite collapsed_lookup_new. eauto.
  - intros Hfree. apply (anti_symm (⊆)); [done|].
    intros p (k & M & HM & Hp)%elem_of_all_packages. apply elem_of_all_packages.
    assert (k ≠ new_name) as Hne.
    { intros Heq. rewrite Heq in HM. congruence. }
    destruct (decide (k ∈ loop)) as [Hk|Hk].
    + eexists new_name, _. split; [apply collapsed_lookup_new|]. cbn [packages].
      apply elem_of_pkgs_of. eauto.
    + exists k, (redirect_module loop new_name M). split; [|done].
      rewrite collapsed_lookup_ne by done. by rewrite bool_decide_eq_false_2, HM.
Qed.

(** ** The theorems at concrete inputs *)

Lemma prune_leaves_no_shadowed_edge_witness :
  (prune elements_order 10 diamond "A").2 = Done () ∧
  ∀ x, reachable (prune elements_order 10 diamond "A").1 "A" x →
       irreducible (prune elements_order 10 diamond "A").1 x.
Proof.
  assert ((prune elements_order 10 diamond "A").2 = Done ()) as Hdone
    by (vm_compute; reflexivity).
  split; [exact Hdone|].
  apply (prune_leaves_no_shadowed_edge elements_order 10 diamond "A").
  apply injective_projections; [reflexivity|exact Hdone].
Defined.

Lemma collapse_modules_total_witness :
  ∃ n (mc m' : registry) s',
    (∀ fuel, (n ≤ fuel)%nat →
       collapse_loop elements_order fuel two_cycle "A" = Done (mc, s') ∧
       prune elements_order fuel mc s' = (m', Done ()) ∧
       collapse_modules elements_order fuel two_cycle "A" = Done m') ∧
    (acyclic_from two_cycle "A" → mc = two_cycle ∧ s' = "A") ∧
    is_Some (m' !! s') ∧ no_self_loops m' ∧ no_dangling m' ∧
    (keyed two_cycle → keyed m') ∧
    acyclic_from m' s' ∧ ∀ x, reachable m' s' x → irreducible m' x.
Proof.
  apply (collapse_modules_total elements_order two_cycle "A");
    apply (bool_decide_unpack _); vm_compute; exact I.
Defined.

Lemma self_dependent_root_raises_witness :
  collapse_modules elements_order 2 self_importer "A" = Raise (KeyError "A").
Proof.
  apply (self_dependent_root_raises elements_order 2 self_importer "A"
           (mkModule "A" {["A"]} {["A"]} 0 0)).
  - vm_compute. reflexivity.
  - reflexivity.
  - lia.
Defined.

Lemma get_modules_content_witness :
  ∃ (m : registry) r,
    get_modules example_tracer 10 "a.x" = Some (m, r) ∧
    r = _module_name "a.x" ∧
    ∀ k, match m !! k with
         | Some M =>
             name M = k ∧ own_rss M = 0 ∧ total_rss M = 0 ∧
             (∃ p, p ∈ packages M) ∧
             (∀ p, p ∈ packages M ↔
                   traced example_tracer "a.x" p ∧ _module_name p = k) ∧
             (∀ d, d ∈ dependencies M ↔
                   d ≠ k ∧ ∃ p i, traced example_tracer "a.x" p ∧ _module_name p = k ∧
                                  i ∈ example_tracer p ∧ _module_name i = d)
         | None => ∀ p, traced example_tracer "a.x" p → _module_name p ≠ k
         end.
Proof.
  assert (is_Some (get_modules example_tracer 10 "a.x")) as [[m r] E]
    by (apply (bool_decide_unpack _); vm_compute; exact I).
  exists m, r. split; [exact E|].
  exact (get_modules_content example_tracer "a.x" 10 m r E).
Defined.

Lemma get_modules_all_reachable_witness :
  ∃ (m : registry) r,
    get_modules example_tracer 10 "a.x" = Some (m, r) ∧
    ∀ k, is_Some (m !! k) ↔ reachable m r k.
Proof.
  assert (is_Some (get_modules example_tracer 10 "a.x")) as [[m r] E]
    by (apply (bool_decide_unpack _); vm_compute; exact I).
  exists m, r. split; [exact E|].
  exact (get_modules_all_reachable example_tracer "a.x" 10 m r E).
Defined.



Lemma set_rss_for_modules_total_witness :
  ∃ st', set_rss_for_modules elements_order nat noisy_python
           (mkAttrState 0%nat [] diamond) = (st', Done ()) ∧
         ∀ k M, st_modules st' !! k = Some M → 0 ≤ own_rss M.
Proof.
  apply (set_rss_for_modules_total elements_order nat noisy_python
           (mkAttrState 0%nat [] diamond)).
  - intros w script. reflexivity.
  - apply (bool_decide_unpack _). vm_compute. exact I.
Defined.

Lemma get_imports_restores_witness :
  (Tracer._get_imports unit example_import example_sys "a").1 = example_sys.
Proof.
  apply (get_imports_restores unit example_import example_sys
           [("a", Some "a"); ("json", Some "json")] "a").
  - reflexivity.
  - apply Forall_forall. apply (bool_decide_unpack _). vm_compute. exact I.
Defined.


Lemma collapse_step_keeps_packages_witness :
  ∃ loop, is_cycle two_cycle loop ∧
    is_Some (collapsed two_cycle ["A"; "B"] !! join newline loop) ∧
    all_packages (collapsed two_cycle ["A"; "B"]) ⊆ all_packages two_cycle ∧
    (two_cycle !! join newline loop = None →
     all_packages (collapsed two_cycle ["A"; "B"]) = all_packages two_cycle).
Proof.
  apply (collapse_step_keeps_packages elements_order 3 two_cycle "A" _
           (join newline ["A"; "B"])).
  exact two_cycle_step.
Defined.
